(** * ts-array-joins: grouping and join operators over arrays of records

    A shallow embedding of the TypeScript sources

      - src/utils/nestedGroup.ts   (createNestedGroups, getFromNestedGroups)
      - src/utils/compositeKey.ts  (createCompositeKey, makeCompositeKeyExtractor,
                                    getCompositeKey)
      - src/groupBy.ts             (groupBy, groupByKey, groupByMany,
                                    groupByTransform, groupByComposite)
      - src/joins/*.ts             (attachChildren, attachChild, joinBySelectors,
                                    attachChildrenComposite, attachChildComposite,
                                    attachChildrenNested, attachChildNested,
                                    attachChildrenWithFilter with and
                                    without cardinalities)

    together with the part of the JavaScript run time these functions rely on:
    values and their string rendering, plain objects used as dictionaries (own
    property order, members inherited from Object.prototype), arrays, and
    [Map] with its SameValueZero key comparison. *)

From Stdlib Require Import ZArith NArith List String Ascii Bool Lia.
From Stdlib Require Import DecimalString DecimalZ DecimalPos Sorted Permutation.
Import ListNotations.

Local Open Scope string_scope.
Local Open Scope list_scope.

Set Implicit Arguments.
Set Warnings "-register-all".

(* ================================================================== *)
(** * Values *)
(* ================================================================== *)

(** JavaScript values as the library meets them: primitives, arrays and plain
    objects.  Numbers are the integers (rendered in decimal by [String]);
    symbols, functions and non-integral numbers are not part of the model.
    A value is a tree: two object or array values occurring in the inputs are
    two distinct references. *)
Inductive value : Type :=
| VUndefined
| VNull
| VBool (b : bool)
| VNum (n : Z)
| VStr (s : string)
| VArr (elems : list value)
| VObj (props : list (string * value)).

(** A record is a plain object given by its own properties, in own-key order. *)
Definition record : Type := list (string * value).

(** Result of a call that may raise.  The only exception the modelled code can
    raise is the TypeError of calling [push] on something that is not an
    array. *)
Inductive outcome (A : Type) : Type :=
| Ok (a : A)
| Throw.

Arguments Ok {A} a.
Arguments Throw {A}.

Definition bind {A B : Type} (m : outcome A) (f : A -> outcome B) : outcome B :=
  match m with
  | Ok a => f a
  | Throw => Throw
  end.

Notation "x <- m ;; f" := (bind m (fun x => f))
  (at level 61, m at next level, right associativity).

Definition nullish (v : value) : bool :=
  match v with
  | VUndefined | VNull => true
  | _ => false
  end.

(** [a ?? b] *)
Definition coalesce (a b : value) : value := if nullish a then b else a.

(** [Array.prototype.join]. *)
Fixpoint join (sep : string) (l : list string) : string :=
  match l with
  | [] => EmptyString
  | x :: rest =>
      match rest with
      | [] => x
      | _ :: _ => x ++ sep ++ join sep rest
      end
  end.

Definition string_of_Z (n : Z) : string := NilZero.string_of_int (Z.to_int n).

(** [String(v)].  An array renders its elements joined by a comma, null and
    undefined elements as the empty string; a plain object renders through
    Object.prototype.toString. *)
Fixpoint ToString (v : value) : string :=
  match v with
  | VUndefined => "undefined"
  | VNull => "null"
  | VBool true => "true"
  | VBool false => "false"
  | VNum n => string_of_Z n
  | VStr s => s
  | VArr elems =>
      join "," (map (fun e => if nullish e then EmptyString else ToString e) elems)
  | VObj _ => "[object Object]"
  end.

(** Property keys are strings: a value used as a key is converted first. *)
Definition ToPropertyKey (v : value) : string := ToString v.

(** Boolean coercion, as in [if (x)] and [x && y]. *)
Definition truthy (v : value) : bool :=
  match v with
  | VUndefined | VNull => false
  | VBool b => b
  | VNum n => negb (n =? 0)%Z
  | VStr s => negb (s =? EmptyString)
  | VArr _ | VObj _ => true
  end.

(** [typeof v === "object"] *)
Definition typeof_object (v : value) : bool :=
  match v with
  | VNull | VArr _ | VObj _ => true
  | _ => false
  end.

(** Key comparison of [Map] (SameValueZero), which on this value domain is
    also [===]: primitives are compared by type and value, objects and arrays
    by reference, and two values of the tree model never share a reference. *)
Definition SameValueZero (a b : value) : bool :=
  match a, b with
  | VUndefined, VUndefined => true
  | VNull, VNull => true
  | VBool x, VBool y => Bool.eqb x y
  | VNum x, VNum y => (x =? y)%Z
  | VStr x, VStr y => (x =? y)
  | _, _ => false
  end.

(* ================================================================== *)
(** * Plain objects *)
(* ================================================================== *)

(** Members every plain object inherits from Object.prototype.  Reading one of
    these names on an object that has no own property of that name yields a
    built-in (a function, or the prototype itself for [__proto__]), which is
    truthy and has no [push] method. *)
Definition ObjectPrototype : list string :=
  [ "constructor"; "hasOwnProperty"; "isPrototypeOf"; "propertyIsEnumerable";
    "toLocaleString"; "toString"; "valueOf"; "__proto__";
    "__defineGetter__"; "__defineSetter__";
    "__lookupGetter__"; "__lookupSetter__" ].

(** Method names arrays inherit from Array.prototype (ECMAScript 2023). *)
Definition ArrayPrototype : list string :=
  [ "at"; "concat"; "copyWithin"; "entries"; "every"; "fill"; "filter";
    "find"; "findIndex"; "findLast"; "findLastIndex"; "flat"; "flatMap";
    "forEach"; "includes"; "indexOf"; "join"; "keys"; "lastIndexOf"; "map";
    "pop"; "push"; "reduce"; "reduceRight"; "reverse"; "shift"; "slice";
    "some"; "sort"; "splice"; "toReversed"; "toSorted"; "toSpliced";
    "unshift"; "values"; "with" ].

Definition mem_string (k : string) (l : list string) : bool :=
  existsb (String.eqb k) l.

Definition inherited (k : string) : bool := mem_string k ObjectPrototype.

(** A property key is an array index when it is the canonical decimal form of
    an integer between 0 and 2^32 - 2. *)
Definition array_index (k : string) : option N :=
  match NilZero.uint_of_string k with
  | Some d =>
      let n := N.of_uint d in
      if (NilZero.string_of_uint (N.to_uint n) =? k) && (n <=? 4294967294)%N
      then Some n else None
  | None => None
  end.

Definition is_index (k : string) : bool :=
  match array_index k with Some _ => true | None => false end.

Section PlainObject.
Variable A : Type.

(** Own properties in the order [Object.keys] / [Object.entries] and the
    spread operator enumerate them: array indices in ascending numeric
    order, then the other string keys in creation order. *)
Definition obj : Type := list (string * A).

Fixpoint own (o : obj) (k : string) : option A :=
  match o with
  | [] => None
  | (k', v) :: rest => if k' =? k then Some v else own rest k
  end.

Definition has_own (o : obj) (k : string) : bool :=
  match own o k with Some _ => true | None => false end.

Definition keys (o : obj) : list string := map fst o.

Fixpoint replace_own (k : string) (v : A) (o : obj) : obj :=
  match o with
  | [] => []
  | (k', v') :: rest =>
      if k' =? k then (k', v) :: rest else (k', v') :: replace_own k v rest
  end.

(** Creating an array-index property places it among the index keys. *)
Fixpoint insert_index (n : N) (k : string) (v : A) (o : obj) : obj :=
  match o with
  | [] => [(k, v)]
  | (k', v') :: rest =>
      match array_index k' with
      | Some n' =>
          if (n' <? n)%N then (k', v') :: insert_index n k v rest
          else (k, v) :: o
      | None => (k, v) :: o
      end
  end.

Definition add_own (k : string) (v : A) (o : obj) : obj :=
  match array_index k with
  | Some n => insert_index n k v o
  | None => o ++ [(k, v)]
  end.

(** [o[k] = v] on an own data property, or creation of the property. *)
Definition obj_set (o : obj) (k : string) (v : A) : obj :=
  if has_own o k then replace_own k v o else add_own k v o.

End PlainObject.

(** [item[key]] for a field name [key] of the record's type ([keyof T]): the
    field, or undefined when the record leaves it out. *)
Definition get (item : record) (key : string) : value :=
  match own item key with
  | Some v => v
  | None => VUndefined
  end.

(** [{ ...item, [as]: v }]: a new object with the own properties of [item] in
    their order and the property [as] written last. *)
Definition with_property (item : record) (as_ : string) (v : value) : record :=
  obj_set item as_ v.

Definition array_of (items : list record) : value := VArr (map VObj items).

(* ================================================================== *)
(** * Map *)
(* ================================================================== *)

Section JsMap.
Variables K V : Type.
Variable same : K -> K -> bool.

(** Entries in insertion order. *)
Definition jsmap : Type := list (K * V).

Fixpoint map_get (m : jsmap) (k : K) : option V :=
  match m with
  | [] => None
  | (k', v) :: rest => if same k' k then Some v else map_get rest k
  end.

Definition map_has (m : jsmap) (k : K) : bool :=
  match map_get m k with Some _ => true | None => false end.

Fixpoint map_set (m : jsmap) (k : K) (v : V) : jsmap :=
  match m with
  | [] => [(k, v)]
  | (k', v') :: rest =>
      if same k' k then (k', v) :: rest else (k', v') :: map_set rest k v
  end.
End JsMap.

(* ================================================================== *)
(** * src/utils/compositeKey.ts *)
(* ================================================================== *)

Definition separator : string := "||~~||".

(** [values.map((v) => String(v ?? empty)).join(separator)], [empty] being the
    empty string. *)
Definition createCompositeKey (values : list value) : string :=
  join separator (map (fun v => ToString (coalesce v (VStr EmptyString))) values).

Definition makeCompositeKeyExtractor (keys : list string) : record -> string :=
  fun item =>
    let values := map (fun key => get item key) keys in
    createCompositeKey values.

Definition getCompositeKey (item : record) (keys : list string) : string :=
  let values := map (fun key => get item key) keys in
  createCompositeKey values.

(* ================================================================== *)
(** * src/groupBy.ts *)
(* ================================================================== *)

(** Body of the grouping loops:
    [if (!result[key]) { result[key] = []; } result[key].push(item);]
    When [key] is not an own property but names a member of Object.prototype,
    [result[key]] is that built-in: the test fails and [push] is not a
    function. *)
Definition push_group (result : obj (list record)) (key : string)
    (item : record) : outcome (obj (list record)) :=
  match own result key with
  | Some group => Ok (obj_set result key (group ++ [item]))
  | None =>
      if inherited key then Throw
      else Ok (obj_set result key ([] ++ [item]))
  end.

Definition groupBy (items : list record) (keySelector : record -> value)
  : outcome (obj (list record)) :=
  fold_left
    (fun acc item =>
       result <- acc ;;
       let key := ToPropertyKey (keySelector item) in
       push_group result key item)
    items (Ok []).

Definition groupByKey (items : list record) (key : string)
  : outcome (obj (list record)) :=
  fold_left
    (fun acc item =>
       result <- acc ;;
       let groupKey := ToPropertyKey (get item key) in
       push_group result groupKey item)
    items (Ok []).

(** A grouping result seen as a value: every group is an array of records. *)
Definition groups_value (groups : obj (list record)) : value :=
  VObj (map (fun e => (fst e, array_of (snd e))) groups).

Fixpoint groupByMany (items : list record) (keys : list string) {struct keys}
  : outcome value :=
  match keys with
  | [] => Ok (array_of items)
  | firstKey :: restKeys =>
      match restKeys with
      | [] =>
          grouped <- groupByKey items firstKey ;;
          Ok (groups_value grouped)
      | _ :: _ =>
          firstLevelGroups <- groupByKey items firstKey ;;
          result <-
            fold_left
              (fun acc entry =>
                 result <- acc ;;
                 sub <- groupByMany (snd entry) restKeys ;;
                 Ok (obj_set result (fst entry) sub))
              firstLevelGroups (Ok []) ;;
          Ok (VObj result)
      end
  end.

Definition groupByTransform (R : Type) (items : list record)
    (keySelector : record -> value) (valueTransform : list record -> R)
  : outcome (obj R) :=
  grouped <- groupBy items keySelector ;;
  Ok (fold_left
        (fun result entry => obj_set result (fst entry) (valueTransform (snd entry)))
        grouped []).

Definition groupByComposite (items : list record) (keys : list string)
  : outcome (obj (list record)) :=
  let keyExtractor := makeCompositeKeyExtractor keys in
  groupBy items (fun item => VStr (keyExtractor item)).

(* ================================================================== *)
(** * src/utils/nestedGroup.ts *)
(* ================================================================== *)

Fixpoint createNestedGroups (items : list record) (keys : list string)
    {struct keys} : outcome value :=
  match keys with
  | [] => Ok (array_of items)
  | firstKey :: restKeys =>
      match restKeys with
      | [] =>
          result <-
            fold_left
              (fun acc item =>
                 result <- acc ;;
                 let groupKey := ToPropertyKey (get item firstKey) in
                 push_group result groupKey item)
              items (Ok []) ;;
          Ok (groups_value result)
      | _ :: _ =>
          firstLevelGroups <-
            fold_left
              (fun acc item =>
                 result <- acc ;;
                 let groupKey := ToPropertyKey (get item firstKey) in
                 push_group result groupKey item)
              items (Ok []) ;;
          result <-
            fold_left
              (fun acc entry =>
                 result <- acc ;;
                 sub <- createNestedGroups (snd entry) restKeys ;;
                 Ok (obj_set result (fst entry) sub))
              firstLevelGroups (Ok []) ;;
          Ok (VObj result)
      end
  end.

(** What the loop variable [current] of [getFromNestedGroups] can hold: a
    value of the tree, or a built-in reached through inheritance (a method of
    Object.prototype or Array.prototype, or a prototype object). *)
Inductive cursor : Type :=
| Val (v : value)
| Host.

(** [k in v] for an object or array [v]: own and inherited properties. *)
Definition has_property (v : value) (k : string) : bool :=
  match v with
  | VObj props => has_own props k || inherited k
  | VArr elems =>
      match array_index k with
      | Some i => (i <? N.of_nat (List.length elems))%N
      | None => false
      end
      || (k =? "length") || mem_string k ArrayPrototype || inherited k
  | _ => false
  end.

(** [v[k]] for an object or array [v] that has the property. *)
Definition get_property (v : value) (k : string) : cursor :=
  match v with
  | VObj props =>
      match own props k with
      | Some x => Val x
      | None => if inherited k then Host else Val VUndefined
      end
  | VArr elems =>
      match array_index k with
      | Some i =>
          match nth_error elems (N.to_nat i) with
          | Some x => Val x
          | None => Val VUndefined
          end
      | None =>
          if k =? "length" then Val (VNum (Z.of_nat (List.length elems)))
          else if mem_string k ArrayPrototype || inherited k then Host
          else Val VUndefined
      end
  | _ => Val VUndefined
  end.

(** The loop over [path] followed by the final [Array.isArray] test.  From a
    built-in the loop can only reach further built-ins: a function fails the
    [typeof] test, and the prototype objects hold no caller data, Array.prototype
    being itself an empty array; the result is the empty sequence. *)
Fixpoint walk (current : cursor) (path : list value) : list value :=
  match path with
  | [] =>
      match current with
      | Val (VArr elems) => elems
      | _ => []
      end
  | key :: rest =>
      match current with
      | Val c =>
          if truthy c && typeof_object c
             && negb (SameValueZero key VNull)
             && negb (SameValueZero key VUndefined)
             && has_property c (ToPropertyKey key)
          then walk (get_property c (ToPropertyKey key)) rest
          else []
      | Host => []
      end
  end.

Definition getFromNestedGroups (nestedGroups : value) (path : list value)
  : list value :=
  if (List.length path =? 0)%nat then
    match nestedGroups with
    | VArr elems => elems
    | _ => []
    end
  else walk (Val nestedGroups) path.

(* ================================================================== *)
(** * src/joins *)
(* ================================================================== *)

Section Index.
Variables K T : Type.
Variable same : K -> K -> bool.
Variable key_of : T -> K.

(** The one-to-many index loop:
    [const existing = m.get(key);
     if (existing) existing.push(child); else m.set(key, [child]);] *)
Definition index_many (children : list T) : jsmap K (list T) :=
  fold_left
    (fun m child =>
       let key := key_of child in
       match map_get same m key with
       | Some existing => map_set same m key (existing ++ [child])
       | None => map_set same m key [child]
       end)
    children [].

(** The one-to-one index loop:
    [if (!m.has(key)) m.set(key, child);] *)
Definition index_one (children : list T) : jsmap K T :=
  fold_left
    (fun m child =>
       let key := key_of child in
       if negb (map_has same m key) then map_set same m key child else m)
    children [].
End Index.

(** [m.get(k) ?? []] and [m.get(k) ?? null] on an index of records. *)
Definition or_empty (found : option (list record)) : list record :=
  match found with Some group => group | None => [] end.

Definition or_null (found : option record) : value :=
  match found with Some child => VObj child | None => VNull end.

Definition attachChildren (parents children : list record)
    (parentKey childKey as_ : string) : list record :=
  let childrenByKey :=
    index_many SameValueZero (fun child => get child childKey) children in
  map (fun parent =>
         let parentKeyValue := get parent parentKey in
         let matchingChildren :=
           or_empty (map_get SameValueZero childrenByKey parentKeyValue) in
         with_property parent as_ (array_of matchingChildren))
      parents.

Definition attachChild (parents children : list record)
    (parentKey childKey as_ : string) : list record :=
  let childByKey :=
    index_one SameValueZero (fun child => get child childKey) children in
  map (fun parent =>
         let parentKeyValue := get parent parentKey in
         let matchingChild :=
           or_null (map_get SameValueZero childByKey parentKeyValue) in
         with_property parent as_ matchingChild)
      parents.

Inductive Cardinality : Type :=
| one
| many.

Definition joinBySelectors (parents children : list record)
    (parentSelector childSelector : record -> value) (as_ : string)
    (mode : Cardinality) : list record :=
  match mode with
  | many =>
      let childrenByKey := index_many SameValueZero childSelector children in
      map (fun parent =>
             let key := parentSelector parent in
             let matchingChildren :=
               or_empty (map_get SameValueZero childrenByKey key) in
             with_property parent as_ (array_of matchingChildren))
          parents
  | one =>
      let childByKey := index_one SameValueZero childSelector children in
      map (fun parent =>
             let key := parentSelector parent in
             let matchingChild :=
               or_null (map_get SameValueZero childByKey key) in
             with_property parent as_ matchingChild)
          parents
  end.

Definition attachChildrenComposite (parents children : list record)
    (parentKeys childKeys : list string) (as_ : string) : list record :=
  let parentKeyExtractor := makeCompositeKeyExtractor parentKeys in
  let childKeyExtractor := makeCompositeKeyExtractor childKeys in
  let childrenByKey := index_many String.eqb childKeyExtractor children in
  map (fun parent =>
         let parentKey := parentKeyExtractor parent in
         let matchingChildren :=
           or_empty (map_get String.eqb childrenByKey parentKey) in
         with_property parent as_ (array_of matchingChildren))
      parents.

Definition attachChildComposite (parents children : list record)
    (parentKeys childKeys : list string) (as_ : string) : list record :=
  let parentKeyExtractor := makeCompositeKeyExtractor parentKeys in
  let childKeyExtractor := makeCompositeKeyExtractor childKeys in
  let childByKey := index_one String.eqb childKeyExtractor children in
  map (fun parent =>
         let parentKey := parentKeyExtractor parent in
         let matchingChild :=
           or_null (map_get String.eqb childByKey parentKey) in
         with_property parent as_ matchingChild)
      parents.

Definition attachChildrenNested (parents children : list record)
    (parentKeys childKeys : list string) (as_ : string)
  : outcome (list record) :=
  nestedGroups <- createNestedGroups children childKeys ;;
  Ok (map (fun parent =>
             let path := map (fun key => get parent key) parentKeys in
             let matchingChildren := getFromNestedGroups nestedGroups path in
             with_property parent as_ (VArr matchingChildren))
          parents).

Definition attachChildNested (parents children : list record)
    (parentKeys childKeys : list string) (as_ : string)
  : outcome (list record) :=
  nestedGroups <- createNestedGroups children childKeys ;;
  Ok (map (fun parent =>
             let path := map (fun key => get parent key) parentKeys in
             let matchingChildren := getFromNestedGroups nestedGroups path in
             let matchingChild :=
               match matchingChildren with
               | first :: _ => first
               | [] => VNull
               end in
             with_property parent as_ matchingChild)
          parents).

(** [===] on the value domain; it differs from SameValueZero only on NaN. *)
Definition StrictEquals (a b : value) : bool := SameValueZero a b.

(** [param = "many"] in the destructuring of the parameters. *)
Definition default_many (c : option Cardinality) : Cardinality :=
  match c with Some c => c | None => many end.

(** [card === "one" ? xs[0] ?? undefined : xs] *)
Definition resolve_cardinality (card : Cardinality) (xs : list record) : value :=
  match card with
  | one =>
      match xs with
      | first :: _ => VObj first
      | [] => VUndefined
      end
  | many => array_of xs
  end.

(** The inner [middle.map(...)] of attachChildrenWithFilter for one parent. *)
Definition middleWithChildren (childrenByMiddleKey : jsmap value (list record))
    (middle : list record) (parentKeyValue : value)
    (childParentKey middleKey childAs : string) (childCardinality : Cardinality)
  : list record :=
  map (fun mid =>
         let midKeyValue := get mid middleKey in
         let allChildrenForMiddle :=
           or_empty (map_get SameValueZero childrenByMiddleKey midKeyValue) in
         let matchingChildren :=
           filter (fun child =>
                     StrictEquals (get child childParentKey) parentKeyValue)
                  allChildrenForMiddle in
         let childValue := resolve_cardinality childCardinality matchingChildren in
         with_property mid childAs childValue)
      middle.

Definition attachChildrenWithFilter (parents middle children : list record)
    (parentKey childParentKey middleKey childKey middleAs childAs : string)
    (middleCardinality childCardinality : option Cardinality) : list record :=
  let middleCardinality := default_many middleCardinality in
  let childCardinality := default_many childCardinality in
  let childrenByMiddleKey :=
    index_many SameValueZero (fun child => get child childKey) children in
  map (fun parent =>
         let parentKeyValue := get parent parentKey in
         let enriched :=
           middleWithChildren childrenByMiddleKey middle parentKeyValue
             childParentKey middleKey childAs childCardinality in
         let middleValue := resolve_cardinality middleCardinality enriched in
         with_property parent middleAs middleValue)
      parents.

(** The variant of the three-level join that has no cardinality parameters
    (the same index and the same two maps). *)
Module Basic.

(** attachChildrenWithFilter without cardinality parameters: both levels
    attach sequences. *)
Definition attachChildrenWithFilter (parents middle children : list record)
    (parentKey childParentKey middleKey childKey middleAs childAs : string)
  : list record :=
  let childrenByMiddleKey :=
    index_many SameValueZero (fun child => get child childKey) children in
  map (fun parent =>
         let parentKeyValue := get parent parentKey in
         let middleWithChildren :=
           map (fun mid =>
                  let midKeyValue := get mid middleKey in
                  let allChildrenForMiddle :=
                    or_empty (map_get SameValueZero childrenByMiddleKey midKeyValue) in
                  let matchingChildren :=
                    filter (fun child =>
                              StrictEquals (get child childParentKey) parentKeyValue)
                           allChildrenForMiddle in
                  with_property mid childAs (array_of matchingChildren))
               middle in
         with_property parent middleAs (array_of middleWithChildren))
      parents.

End Basic.

Unset Implicit Arguments.

(* ================================================================== *)
(** * Specification vocabulary *)
(* ================================================================== *)

(** The distinct elements of [ks], each at the place of its first
    occurrence. *)
Fixpoint first_seen (ks : list string) : list string :=
  match ks with
  | [] => []
  | k :: rest => k :: filter (fun x => negb (x =? k)) (first_seen rest)
  end.

(** Numeric order between two array-index keys. *)
Definition index_lt (k1 k2 : string) : Prop :=
  match array_index k1, array_index k2 with
  | Some a, Some b => (a < b)%N
  | _, _ => False
  end.

(** The grouping loop shared by groupBy, groupByKey and both loops of
    createNestedGroups, for a key already converted to a property key. *)
Definition group_loop (key_of : record -> string) (items : list record)
  : outcome (obj (list record)) :=
  fold_left
    (fun acc item => result <- acc ;; push_group result (key_of item) item)
    items (Ok []).

(** A key that is enumerated in creation order. *)
Definition not_index (k : string) : bool := negb (is_index k).

(** [l] is [I ++ S]: index keys in ascending order, then the others. *)
Definition ordered_split (l I S : list string) : Prop :=
  l = I ++ S
  /\ Forall (fun k => is_index k = true) I
  /\ StronglySorted index_lt I
  /\ Forall (fun k => is_index k = false) S.

(** The second loop of the nested builders:
    [for (const [groupKey, groupItems] of Object.entries(groups))
       result[groupKey] = build(groupItems, restKeys);] *)
Definition sub_fold (build : list record -> outcome value)
    (entries : obj (list record)) : outcome (obj value) :=
  fold_left
    (fun acc entry =>
       result <- acc ;;
       sub <- build (snd entry) ;;
       Ok (obj_set result (fst entry) sub))
    entries (Ok []).

(** A child whose key values are [cvals] is found by [path] in the nested
    index: componentwise, the path element is neither null nor undefined and
    names the same property as the child's value. *)
Fixpoint nested_match (path cvals : list value) : bool :=
  match path, cvals with
  | [], [] => true
  | pv :: path', cv :: cvals' =>
      negb (nullish pv)
      && (ToPropertyKey cv =? ToPropertyKey pv)
      && nested_match path' cvals'
  | _, _ => false
  end.

(** [keys.map((key) => item[key])] *)
Definition key_values (item : record) (keys : list string) : list value :=
  map (fun key => get item key) keys.

(** No key value of the item names a member of Object.prototype. *)
Definition no_inherited_key (keys : list string) (item : record) : bool :=
  forallb (fun key => negb (inherited (ToPropertyKey (get item key)))) keys.

(** The string holds the character that starts and ends the separator. *)
Fixpoint has_bar (s : string) : bool :=
  match s with
  | EmptyString => false
  | String c rest => (c =? "|")%char || has_bar rest
  end.

(** A key value both strategies treat alike: neither null nor undefined, and
    rendered without the character that starts the separator. *)
Definition plain_key (v : value) : bool :=
  negb (nullish v) && negb (has_bar (ToString v)).


(** Match under the serialized-key strategy: equal composite keys. *)
Definition composite_match (parentKeys childKeys : list string)
    (parent child : record) : bool :=
  getCompositeKey child childKeys =? getCompositeKey parent parentKeys.

(** [xs.length > 0 ? xs[0] : null] *)
Definition first_or_null (xs : list value) : value :=
  match xs with
  | first :: _ => first
  | [] => VNull
  end.

Definition is_record (v : value) : bool :=
  match v with VObj _ => true | _ => false end.

(** A nested index of depth [k]: [k] levels of mappings over arrays of
    records. *)
Fixpoint has_depth (k : nat) (tree : value) : bool :=
  match k with
  | O =>
      match tree with
      | VArr elems => forallb is_record elems
      | _ => false
      end
  | S k' =>
      match tree with
      | VObj props => forallb (fun e => has_depth k' (snd e)) props
      | _ => false
      end
  end.

(** Navigation of a nested mapping level by level, [tree[v1][v2]...[vk]]:
    the sequence reached through the own properties named by the path, empty
    when a level has no such property or the path does not end on a
    sequence. *)
Fixpoint navigate (tree : value) (path : list value) : list value :=
  match path with
  | [] =>
      match tree with
      | VArr elems => elems
      | _ => []
      end
  | v :: rest =>
      match tree with
      | VObj props =>
          match own props (ToPropertyKey v) with
          | Some sub => navigate sub rest
          | None => []
          end
      | _ => []
      end
  end.

Definition not_nullish (v : value) : bool := negb (nullish v).

(** The two composite strategies give the same result on an input. *)
Definition strategies_agree_on (parents children : list record)
    (parentKeys childKeys : list string) (as_ : string) : Prop :=
  attachChildrenNested parents children parentKeys childKeys as_
  = Ok (attachChildrenComposite parents children parentKeys childKeys as_)
  /\ attachChildNested parents children parentKeys childKeys as_
     = Ok (attachChildComposite parents children parentKeys childKeys as_).


(** Match under the single-key joins: the same value, as a Map key. *)
Definition flat_match (parentKey childKey : string) (parent child : record) : bool :=
  SameValueZero (get child childKey) (get parent parentKey).

Definition selector_match (parentSelector childSelector : record -> value)
    (parent child : record) : bool :=
  SameValueZero (childSelector child) (parentSelector parent).



(** First element of an attached sequence, or the absence marker. *)
Definition first_of (v : value) : value :=
  match v with
  | VArr (first :: _) => first
  | _ => VNull
  end.


(** Keys in first-seen order, every group in input order. *)
Definition groups_in_first_seen_order (items : list record)
    (keySelector : record -> value) : Prop :=
  exists result,
    groupBy items keySelector = Ok result
    /\ keys result
       = first_seen (map (fun item => ToPropertyKey (keySelector item)) items)
    /\ forall k,
         own result k
         = match filter (fun item => ToPropertyKey (keySelector item) =? k) items with
           | [] => None
           | group => Some group
           end.

(** Plain navigation of the groupByMany tree and lookup in the nested index
    yield the same sequence (both builders fail on the same inputs). *)
Definition navigation_agrees (R : list record) (fields : list string)
    (path : list value) : Prop :=
  match groupByMany R fields, createNestedGroups R fields with
  | Ok grouped, Ok index => navigate grouped path = getFromNestedGroups index path
  | Throw, Throw => True
  | _, _ => False
  end.




Definition is_string (v : value) : bool :=
  match v with VStr _ => true | _ => false end.

Definition is_number (v : value) : bool :=
  match v with VNum _ => true | _ => false end.

(** Every key value of the parents and of the children is of one kind. *)
Definition keys_of_kind (kind : value -> bool) (parents children : list record)
    (parentKey childKey : string) : Prop :=
  Forall (fun parent => kind (get parent parentKey) = true) parents
  /\ Forall (fun child => kind (get child childKey) = true) children.

(* ================================================================== *)
(** * The joins over a store

    The same sources once more, now with the objects they read and write held
    in a store: arrays and records live at addresses, a value is a primitive
    or a reference, [push] updates an array in place, and object literals and
    [map] / [filter] results are allocated at fresh addresses. *)
Module Store.

Inductive hvalue : Type :=
| HUndefined
| HNull
| HBool (b : bool)
| HNum (n : Z)
| HStr (s : string)
| HRef (a : nat).

Inductive cell : Type :=
| CRecord (fields : obj hvalue)
| CArray (elems : list hvalue).

(** Addresses are positions; allocation extends the store. *)
Definition store : Type := list cell.

Definition alloc (h : store) (c : cell) : store * nat :=
  (h ++ [c], List.length h).

Fixpoint update (h : store) (a : nat) (c : cell) : store :=
  match h, a with
  | [], _ => []
  | _ :: rest, O => c :: rest
  | x :: rest, S a' => x :: update rest a' c
  end.

Definition elems_at (h : store) (a : nat) : list hvalue :=
  match nth_error h a with
  | Some (CArray elems) => elems
  | _ => []
  end.

Definition fields_of (h : store) (item : hvalue) : obj hvalue :=
  match item with
  | HRef a =>
      match nth_error h a with
      | Some (CRecord fields) => fields
      | _ => []
      end
  | _ => []
  end.

(** [item[key]] *)
Definition hget (h : store) (item : hvalue) (key : string) : hvalue :=
  match own (fields_of h item) key with
  | Some v => v
  | None => HUndefined
  end.

(** [array.push(v)] on the array at address [a]. *)
Definition push (h : store) (a : nat) (v : hvalue) : store :=
  update h a (CArray (elems_at h a ++ [v])).

(** SameValueZero and [===]: primitives by value, objects by reference. *)
Definition same_value (a b : hvalue) : bool :=
  match a, b with
  | HUndefined, HUndefined => true
  | HNull, HNull => true
  | HBool x, HBool y => Bool.eqb x y
  | HNum x, HNum y => (x =? y)%Z
  | HStr x, HStr y => (x =? y)
  | HRef x, HRef y => (x =? y)%nat
  | _, _ => false
  end.

(** One turn of the index loop of attachChildren: the Map holds, for every
    key, the address of its group array. *)
Definition index_step (childKey : string)
    (st : store * jsmap hvalue nat) (child : hvalue) : store * jsmap hvalue nat :=
  let h := fst st in
  let childrenByKey := snd st in
  let key := hget h child childKey in
  match map_get same_value childrenByKey key with
  | Some existing => (push h existing child, childrenByKey)
  | None =>
      let fresh := alloc h (CArray [child]) in
      (fst fresh, map_set same_value childrenByKey key (snd fresh))
  end.

(** [m.get(k) ?? []]: the group array itself, or a new empty array. *)
Definition lookup_or_empty (h : store) (m : jsmap hvalue nat) (k : hvalue)
  : store * nat :=
  match map_get same_value m k with
  | Some group => (h, group)
  | None => alloc h (CArray [])
  end.

(** One turn of [parents.map]: the enriched parent is a new record. *)
Definition attach_step (childrenByKey : jsmap hvalue nat)
    (parentKey as_ : string) (st : store * list hvalue) (parent : hvalue)
  : store * list hvalue :=
  let h := fst st in
  let parentKeyValue := hget h parent parentKey in
  let found := lookup_or_empty h childrenByKey parentKeyValue in
  let matchingChildren := snd found in
  let enriched :=
    alloc (fst found)
      (CRecord (obj_set (fields_of (fst found) parent) as_ (HRef matchingChildren))) in
  (fst enriched, snd st ++ [HRef (snd enriched)]).

(** attachChildren on the arrays at addresses [parents] and [children];
    returns the final store and the address of the result array. *)
Definition attachChildren (h : store) (parents children : nat)
    (parentKey childKey as_ : string) : store * nat :=
  let indexed := fold_left (index_step childKey) (elems_at h children) (h, []) in
  let childrenByKey := snd indexed in
  let mapped :=
    fold_left (attach_step childrenByKey parentKey as_)
      (elems_at (fst indexed) parents) (fst indexed, []) in
  alloc (fst mapped) (CArray (snd mapped)).

(** The store is unchanged below [n] and has not shrunk. *)
Definition preserves (n : nat) (h h' : store) : Prop :=
  List.length h <= List.length h'
  /\ forall a, a < n -> nth_error h' a = nth_error h a.

(** A reference of the value points into the store. *)
Definition allocated (h : store) (v : hvalue) : Prop :=
  match v with
  | HRef a => a < List.length h
  | _ => True
  end.

(** The Map of group addresses, read through the store. *)
Definition groups_of (h : store) (m : jsmap hvalue nat) : jsmap hvalue (list hvalue) :=
  map (fun e => (fst e, elems_at h (snd e))) m.

(** What the index loop maintains: the input part of the store is untouched,
    every group lives at an address of its own allocated by the loop, and the
    groups are those of the one-to-many index. *)
Definition index_inv (h0 : store) (childKey : string)
    (processed : list hvalue) (st : store * jsmap hvalue nat) : Prop :=
  preserves (List.length h0) h0 (fst st)
  /\ Forall (fun a => List.length h0 <= a < List.length (fst st)) (map snd (snd st))
  /\ NoDup (map snd (snd st))
  /\ groups_of (fst st) (snd st)
     = index_many same_value (fun child => hget h0 child childKey) processed.

(** The enriched parent at [out]: a record allocated by the call that holds
    the fields of [parent] with [as_] set to a reference to the array of the
    children whose key is the parent's. *)
Definition enriched_at (h0 h : store) (children : list hvalue)
    (parentKey childKey as_ : string) (parent out : hvalue) : Prop :=
  exists o arr,
    out = HRef o
    /\ List.length h0 <= o
    /\ List.length h0 <= arr < List.length h
    /\ nth_error h o
       = Some (CRecord (obj_set (fields_of h0 parent) as_ (HRef arr)))
    /\ elems_at h arr
       = filter (fun child =>
                   same_value (hget h0 child childKey) (hget h0 parent parentKey))
                children.

(** [a ?? b] *)
Definition hcoalesce (a b : hvalue) : hvalue :=
  match a with
  | HUndefined | HNull => b
  | _ => a
  end.

(** One turn of the index loop of attachChild: the Map holds the first child
    of every key. *)
Definition first_step (h : store) (childKey : string)
    (childByKey : jsmap hvalue hvalue) (child : hvalue) : jsmap hvalue hvalue :=
  let key := hget h child childKey in
  if negb (map_has same_value childByKey key)
  then map_set same_value childByKey key child
  else childByKey.

Definition attach_one_step (childByKey : jsmap hvalue hvalue)
    (parentKey as_ : string) (st : store * list hvalue) (parent : hvalue)
  : store * list hvalue :=
  let h := fst st in
  let parentKeyValue := hget h parent parentKey in
  let matchingChild :=
    match map_get same_value childByKey parentKeyValue with
    | Some child => hcoalesce child HNull
    | None => HNull
    end in
  let enriched :=
    alloc h (CRecord (obj_set (fields_of h parent) as_ matchingChild)) in
  (fst enriched, snd st ++ [HRef (snd enriched)]).

Definition attachChild (h : store) (parents children : nat)
    (parentKey childKey as_ : string) : store * nat :=
  let childByKey := fold_left (first_step h childKey) (elems_at h children) [] in
  let mapped :=
    fold_left (attach_one_step childByKey parentKey as_)
      (elems_at h parents) (h, []) in
  alloc (fst mapped) (CArray (snd mapped)).

(** [card === "one" ? xs[0] ?? undefined : xs] for the array at [arr]. *)
Definition resolve (card : Cardinality) (h : store) (arr : nat) : hvalue :=
  match card with
  | one =>
      match elems_at h arr with
      | first :: _ => hcoalesce first HUndefined
      | [] => HUndefined
      end
  | many => HRef arr
  end.

(** One turn of the inner [middle.map]: [filter] and the enriched middle
    record are new objects. *)
Definition middle_step (childrenByMiddleKey : jsmap hvalue nat)
    (parentKeyValue : hvalue) (childParentKey middleKey childAs : string)
    (childCardinality : Cardinality) (st : store * list hvalue) (mid : hvalue)
  : store * list hvalue :=
  let h := fst st in
  let midKeyValue := hget h mid middleKey in
  let found := lookup_or_empty h childrenByMiddleKey midKeyValue in
  let allChildrenForMiddle := snd found in
  let filtered :=
    alloc (fst found)
      (CArray (filter (fun child =>
                         same_value (hget (fst found) child childParentKey)
                                    parentKeyValue)
                      (elems_at (fst found) allChildrenForMiddle))) in
  let matchingChildren := snd filtered in
  let childValue := resolve childCardinality (fst filtered) matchingChildren in
  let enriched :=
    alloc (fst filtered)
      (CRecord (obj_set (fields_of (fst filtered) mid) childAs childValue)) in
  (fst enriched, snd st ++ [HRef (snd enriched)]).

(** One turn of the outer [parents.map]. *)
Definition filter_step (childrenByMiddleKey : jsmap hvalue nat) (middle : nat)
    (parentKey childParentKey middleKey middleAs childAs : string)
    (middleCardinality childCardinality : Cardinality)
    (st : store * list hvalue) (parent : hvalue) : store * list hvalue :=
  let h := fst st in
  let parentKeyValue := hget h parent parentKey in
  let mids :=
    fold_left
      (middle_step childrenByMiddleKey parentKeyValue childParentKey middleKey
         childAs childCardinality)
      (elems_at h middle) (h, []) in
  let middleWithChildren := alloc (fst mids) (CArray (snd mids)) in
  let middleValue :=
    resolve middleCardinality (fst middleWithChildren) (snd middleWithChildren) in
  let enriched :=
    alloc (fst middleWithChildren)
      (CRecord (obj_set (fields_of (fst middleWithChildren) parent)
                  middleAs middleValue)) in
  (fst enriched, snd st ++ [HRef (snd enriched)]).

Definition attachChildrenWithFilter (h : store) (parents middle children : nat)
    (parentKey childParentKey middleKey childKey middleAs childAs : string)
    (middleCardinality childCardinality : option Cardinality) : store * nat :=
  let middleCardinality := default_many middleCardinality in
  let childCardinality := default_many childCardinality in
  let indexed := fold_left (index_step childKey) (elems_at h children) (h, []) in
  let mapped :=
    fold_left
      (filter_step (snd indexed) middle parentKey childParentKey middleKey
         middleAs childAs middleCardinality childCardinality)
      (elems_at (fst indexed) parents) (fst indexed, []) in
  alloc (fst mapped) (CArray (snd mapped)).

(** Every object of [h] is in [h'] as it was. *)
Definition extends (h h' : store) : Prop := preserves (List.length h) h h'.

(** The output of one turn of [parents.map] in attachChildren: a record below
    the end of the store whose output field holds the address the Map has
    for the parent's key, or else that of the empty array allocated just
    before the record, at or above [bound]; the address is that of an
    array. *)
Definition attached_group (h0 h : store) (m : jsmap hvalue nat) (bound : nat)
    (parentKey as_ : string) (parent out : hvalue) : Prop :=
  exists o arr,
    out = HRef o
    /\ o < List.length h
    /\ hget h out as_ = HRef arr
    /\ (exists elems, nth_error h arr = Some (CArray elems))
    /\ match map_get same_value m (hget h0 parent parentKey) with
       | Some a => arr = a
       | None => o = S arr /\ bound <= arr
       end.

(** A reference to a record of the store: what the elements of the parent
    and child arrays are. *)
Definition record_ref (h : store) (v : hvalue) : Prop :=
  exists a fields, v = HRef a /\ nth_error h a = Some (CRecord fields).

(** The children of the array that match a parent, as the index sees them. *)
Definition matching (h : store) (children : list hvalue)
    (parentKey childKey : string) (parent : hvalue) : list hvalue :=
  filter (fun child => same_value (hget h child childKey) (hget h parent parentKey))
         children.

(** The output of one turn of [parents.map] in attachChild. *)
Definition attached_child (h0 h : store) (children : list hvalue)
    (parentKey childKey as_ : string) (parent out : hvalue) : Prop :=
  exists o,
    out = HRef o
    /\ List.length h0 <= o
    /\ nth_error h o
       = Some (CRecord
                 (obj_set (fields_of h0 parent) as_
                    (match find (fun child =>
                                   same_value (hget h0 child childKey)
                                              (hget h0 parent parentKey))
                                children with
                     | Some child => hcoalesce child HNull
                     | None => HNull
                     end))).

(** The value found in the store at [v], followed through [fuel] levels of
    references. *)
Fixpoint read (fuel : nat) (h : store) (v : hvalue) {struct fuel} : value :=
  match v with
  | HUndefined => VUndefined
  | HNull => VNull
  | HBool b => VBool b
  | HNum n => VNum n
  | HStr s => VStr s
  | HRef a =>
      match fuel with
      | O => VUndefined
      | S fuel' =>
          match nth_error h a with
          | Some (CRecord fields) =>
              VObj (map (fun e => (fst e, read fuel' h (snd e))) fields)
          | Some (CArray elems) => VArr (map (read fuel' h) elems)
          | None => VUndefined
          end
      end
  end.

Definition primitive (v : hvalue) : bool :=
  match v with HRef _ => false | _ => true end.

(** A reference to a record all of whose fields hold primitives. *)
Definition flat_record (h : store) (v : hvalue) : Prop :=
  exists a fields,
    v = HRef a
    /\ nth_error h a = Some (CRecord fields)
    /\ forallb (fun e => primitive (snd e)) fields = true.

(** The record a reference stands for. *)
Definition record_of (h : store) (v : hvalue) : record :=
  map (fun e => (fst e, read 0 h (snd e))) (fields_of h v).

End Store.

(** Concrete inputs. *)
Module Examples.

Definition num (n : Z) : value := VNum n.

Definition users : list record :=
  [ [("id", num 1)]; [("id", num 2)] ].

Definition orders : list record :=
  [ [("id", num 101); ("userId", num 1)];
    [("id", num 102); ("userId", num 1)];
    [("id", num 103); ("userId", num 2)] ].

Definition product : record := [("sku", VStr "A"); ("origin", VStr "US")].

Definition stock : list record :=
  [ [("sku", VStr "A"); ("origin", VStr "US"); ("qty", num 5)];
    [("sku", VStr "A"); ("origin", VStr "EU"); ("qty", num 9)] ].

(** A product and a stock line that both leave the lot unset. *)
Definition lot_product : record := [("sku", VStr "A"); ("lot", VNull)].
Definition lot_stock : record :=
  [("sku", VStr "A"); ("lot", VNull); ("qty", num 5)].

(** Key values that contain parts of the separator. *)
Definition split_parent : record := [("a", VStr "x||~~"); ("b", VStr "y")].
Definition split_child : record := [("a", VStr "x"); ("b", VStr "~~||y")].

(** A child whose key value names a member of Object.prototype. *)
Definition named_parent : record := [("name", VStr "x")].
Definition named_child : record := [("name", VStr "constructor")].

Definition tagged_child : record :=
  [("region", VStr "eu"); ("tags", VArr [VStr "t"])].

Definition by_k : list record := [ [("k", num 2)]; [("k", num 1)] ].
Definition by_role : list record :=
  [ [("role", VStr "admin"); ("id", num 1)];
    [("role", VStr "user"); ("id", num 2)];
    [("role", VStr "admin"); ("id", num 3)] ].

Definition null_keyed : list record := [ [("a", VNull)] ].

(** An index of depth one whose records hold an array-valued field. *)
Definition tagged_index : value :=
  VObj [("eu", VArr [VObj tagged_child])].



(** Users and orders in a store: records at addresses 0 to 4, the users array
    at 5 and the orders array at 6. *)
Definition shop : Store.store :=
  [ Store.CRecord [("id", Store.HNum 1)];
    Store.CRecord [("id", Store.HNum 2)];
    Store.CRecord [("id", Store.HNum 101); ("userId", Store.HNum 1)];
    Store.CRecord [("id", Store.HNum 102); ("userId", Store.HNum 1)];
    Store.CRecord [("id", Store.HNum 103); ("userId", Store.HNum 2)];
    Store.CArray [Store.HRef 0; Store.HRef 1];
    Store.CArray [Store.HRef 2; Store.HRef 3; Store.HRef 4] ].

(** Two users with the same id and a third without orders: records at
    addresses 0 to 3, the users array at 4 and the orders array at 5. *)
Definition twins : Store.store :=
  [ Store.CRecord [("id", Store.HNum 1)];
    Store.CRecord [("id", Store.HNum 1)];
    Store.CRecord [("id", Store.HNum 3)];
    Store.CRecord [("userId", Store.HNum 1)];
    Store.CArray [Store.HRef 0; Store.HRef 1; Store.HRef 2];
    Store.CArray [Store.HRef 3] ].

End Examples.

(** [out] holds, in parent order, one enrichment of every parent. *)
Definition enriches_each (parents : list record) (as_ : string)
    (out : list record) : Prop :=
  exists attached : record -> value,
    out = map (fun parent => with_property parent as_ (attached parent)) parents.

(* ================================================================== *)
(** * Facts *)
(* ================================================================== *)

Import Examples.

(** ** Plain objects *)

Section PlainObjectFacts.
Variable A : Type.
Implicit Types (o : obj A) (k : string) (v : A).

Lemma own_replace_same o k v :
  has_own o k = true -> own (replace_own k v o) k = Some v.
Proof.
  unfold has_own. induction o as [|[k' v'] o IH]; simpl; [discriminate|].
  destruct (k' =? k) eqn:E; simpl; rewrite E; auto.
Qed.

Lemma own_replace_other o k v k' :
  k <> k' -> own (replace_own k v o) k' = own o k'.
Proof.
  intros Hne. induction o as [|[k0 v0] o IH]; simpl; auto.
  destruct (k0 =? k) eqn:E; simpl.
  - apply String.eqb_eq in E. subst k0.
    apply String.eqb_neq in Hne. rewrite Hne. reflexivity.
  - rewrite IH. reflexivity.
Qed.

Lemma own_insert_index n o k v k' :
  own o k = None ->
  own (insert_index n k v o) k' = if k =? k' then Some v else own o k'.
Proof.
  induction o as [|[k0 v0] o IH]; simpl; intros Hnone; auto.
  destruct (k0 =? k) eqn:E0; [discriminate|].
  destruct (array_index k0) as [n0|]; simpl.
  - destruct (n0 <? n)%N; simpl.
    + rewrite IH by assumption.
      destruct (k0 =? k') eqn:E1; auto.
      destruct (k =? k') eqn:E2; auto.
      apply String.eqb_eq in E1, E2. subst.
      rewrite String.eqb_refl in E0. discriminate.
    + reflexivity.
  - reflexivity.
Qed.

Lemma own_app o1 o2 k :
  own (o1 ++ o2) k = match own o1 k with Some v => Some v | None => own o2 k end.
Proof.
  induction o1 as [|[k0 v0] o1 IH]; simpl; auto.
  destruct (k0 =? k); auto.
Qed.

Lemma own_add o k v k' :
  own o k = None ->
  own (add_own k v o) k' = if k =? k' then Some v else own o k'.
Proof.
  intros Hnone. unfold add_own.
  destruct (array_index k) as [n|].
  - apply own_insert_index; assumption.
  - rewrite own_app. simpl.
    destruct (k =? k') eqn:E.
    + apply String.eqb_eq in E. subst. rewrite Hnone. reflexivity.
    + destruct (own o k'); reflexivity.
Qed.

(** Reading back after [o[k] = v]. *)
Lemma own_obj_set o k v k' :
  own (obj_set o k v) k' = if k =? k' then Some v else own o k'.
Proof.
  unfold obj_set. destruct (has_own o k) eqn:H.
  - destruct (k =? k') eqn:E.
    + apply String.eqb_eq in E. subst. apply own_replace_same. assumption.
    + apply own_replace_other. intro; subst. rewrite String.eqb_refl in E. discriminate.
  - apply own_add. unfold has_own in H. destruct (own o k); [discriminate|reflexivity].
Qed.




Lemma keys_replace_own o k v : keys (replace_own k v o) = keys o.
Proof.
  unfold keys. induction o as [|[k0 v0] o IH]; simpl; auto.
  destruct (k0 =? k); simpl; congruence.
Qed.

Lemma own_in_keys o k : own o k <> None <-> In k (keys o).
Proof.
  unfold keys. induction o as [|[k0 v0] o IH]; simpl.
  - split; [congruence|tauto].
  - destruct (k0 =? k) eqn:E.
    + apply String.eqb_eq in E. split; [auto|discriminate].
    + rewrite IH. apply String.eqb_neq in E. tauto.
Qed.
End PlainObjectFacts.

(** ** Map and the two index loops

    The key comparison only needs to be symmetric and transitive: an object
    used as a key is the same as no other key of the tree model. *)

Section JsMapFacts.
Variables K V : Type.
Variable same : K -> K -> bool.
Hypothesis same_sym : forall a b, same a b = same b a.
Hypothesis same_trans :
  forall a b c, same a b = true -> same b c = true -> same a c = true.

Lemma map_get_set_same (m : jsmap K V) k v k' :
  same k k' = true -> map_get same (map_set same m k v) k' = Some v.
Proof.
  intros Hs. induction m as [|[k0 v0] m IH]; simpl.
  - rewrite Hs. reflexivity.
  - destruct (same k0 k) eqn:E; simpl.
    + rewrite (same_trans _ _ _ E Hs). reflexivity.
    + destruct (same k0 k') eqn:E'; auto.
      rewrite same_sym in Hs.
      rewrite (same_trans _ _ _ E' Hs) in E. discriminate.
Qed.

Lemma map_get_set_other (m : jsmap K V) k v k' :
  same k k' = false -> map_get same (map_set same m k v) k' = map_get same m k'.
Proof.
  intros Hs. induction m as [|[k0 v0] m IH]; simpl.
  - rewrite Hs. reflexivity.
  - destruct (same k0 k) eqn:E; simpl.
    + destruct (same k0 k') eqn:E'; auto.
      rewrite same_sym in E.
      rewrite (same_trans _ _ _ E E') in Hs. discriminate.
    + destruct (same k0 k'); auto.
Qed.

End JsMapFacts.

Section IndexFacts.
Variables K T : Type.
Variable same : K -> K -> bool.
Hypothesis same_sym : forall a b, same a b = same b a.
Hypothesis same_trans :
  forall a b c, same a b = true -> same b c = true -> same a c = true.
Variable key_of : T -> K.

Lemma same_filter_ext k k' (l : list T) :
  same k k' = true ->
  filter (fun x => same (key_of x) k) l = filter (fun x => same (key_of x) k') l.
Proof.
  intros Hs. apply filter_ext. intro x.
  destruct (same (key_of x) k) eqn:E.
  - symmetry. eapply same_trans; eauto.
  - destruct (same (key_of x) k') eqn:E'; auto.
    rewrite same_sym in Hs. rewrite (same_trans _ _ _ E' Hs) in E. discriminate.
Qed.

Lemma same_find_ext k k' (l : list T) :
  same k k' = true ->
  find (fun x => same (key_of x) k) l = find (fun x => same (key_of x) k') l.
Proof.
  intros Hs. induction l as [|x l IH]; simpl; auto.
  destruct (same (key_of x) k) eqn:E.
  - rewrite (same_trans _ _ _ E Hs). reflexivity.
  - destruct (same (key_of x) k') eqn:E'; auto.
    rewrite same_sym in Hs. rewrite (same_trans _ _ _ E' Hs) in E. discriminate.
Qed.

(** The one-to-many index maps a key to the children carrying it, in
    input order, and holds no empty group. *)
Lemma index_many_get (children : list T) k :
  map_get same (index_many same key_of children) k
  = match filter (fun x => same (key_of x) k) children with
    | [] => None
    | group => Some group
    end.
Proof.
  unfold index_many. revert k.
  induction children as [|x children IH] using rev_ind; intro k; [reflexivity|].
  rewrite fold_left_app. simpl.
  match goal with |- context [fold_left ?f children []] =>
    set (m := fold_left f children []) in * end.
  rewrite filter_app. simpl.
  destruct (same (key_of x) k) eqn:E.
  - assert (Hv : forall v, map_get same (map_set same m (key_of x) v) k = Some v)
      by (intro v; apply map_get_set_same; assumption).
    rewrite (IH (key_of x)).
    rewrite <- (same_filter_ext _ _ children E).
    destruct (filter (fun x0 => same (key_of x0) (key_of x)) children) eqn:F.
    + rewrite Hv. reflexivity.
    + rewrite Hv. reflexivity.
  - rewrite app_nil_r.
    destruct (map_get same m (key_of x));
      rewrite map_get_set_other by assumption; apply IH.
Qed.

(** The one-to-one index maps a key to the first child carrying it. *)
Lemma index_one_get (children : list T) k :
  map_get same (index_one same key_of children) k
  = find (fun x => same (key_of x) k) children.
Proof.
  unfold index_one. revert k.
  induction children as [|x children IH] using rev_ind; intro k; [reflexivity|].
  rewrite fold_left_app. simpl.
  match goal with |- context [fold_left ?f children []] =>
    set (m := fold_left f children []) in * end.
  assert (Hfind : forall (f : T -> bool) l y,
             find f (l ++ [y]) = match find f l with
                                 | Some z => Some z
                                 | None => if f y then Some y else None
                                 end).
  { intros f l y. induction l as [|a l IHl]; simpl; auto.
    destruct (f a); auto. }
  rewrite Hfind. unfold map_has.
  destruct (map_get same m (key_of x)) eqn:G; simpl.
  - rewrite IH. destruct (find (fun x0 => same (key_of x0) k) children) eqn:F; auto.
    destruct (same (key_of x) k) eqn:E; auto.
    rewrite IH in G. rewrite (same_find_ext _ _ children E) in G. congruence.
  - destruct (same (key_of x) k) eqn:E.
    + rewrite map_get_set_same by assumption.
      rewrite IH in G. rewrite (same_find_ext _ _ children E) in G.
      rewrite G. reflexivity.
    + rewrite map_get_set_other by assumption. rewrite IH.
      destruct (find _ children); reflexivity.
Qed.
End IndexFacts.

Lemma SameValueZero_sym a b : SameValueZero a b = SameValueZero b a.
Proof.
  destruct a, b; simpl; auto.
  - destruct b, b0; reflexivity.
  - apply Z.eqb_sym.
  - apply String.eqb_sym.
Qed.

Lemma SameValueZero_eq a b : SameValueZero a b = true -> a = b.
Proof.
  destruct a, b; simpl; try discriminate; auto; intro H.
  - apply Bool.eqb_prop in H. congruence.
  - apply Z.eqb_eq in H. congruence.
  - apply String.eqb_eq in H. congruence.
Qed.

Lemma SameValueZero_trans a b c :
  SameValueZero a b = true -> SameValueZero b c = true -> SameValueZero a c = true.
Proof.
  intros H1 H2. apply SameValueZero_eq in H1. subst. assumption.
Qed.

Lemma eqb_trans (a b c : string) :
  (a =? b) = true -> (b =? c) = true -> (a =? c) = true.
Proof.
  intros H1 H2. apply String.eqb_eq in H1. subst. assumption.
Qed.

(** ** The grouping loop *)

Lemma groupBy_loop items keySelector :
  groupBy items keySelector
  = group_loop (fun item => ToPropertyKey (keySelector item)) items.
Proof. reflexivity. Qed.

Lemma groupByKey_loop items key :
  groupByKey items key
  = group_loop (fun item => ToPropertyKey (get item key)) items.
Proof. reflexivity. Qed.

Lemma fold_left_Throw (A B : Type) (f : A -> outcome B) (g : B -> A -> outcome B) l :
  fold_left (fun acc x => r <- acc ;; g r x) l Throw = Throw.
Proof. induction l; simpl; auto. Qed.

Lemma group_loop_snoc key_of items x :
  group_loop key_of (items ++ [x])
  = (result <- group_loop key_of items ;; push_group result (key_of x) x).
Proof. unfold group_loop. rewrite fold_left_app. reflexivity. Qed.

Lemma filter_snoc (A : Type) (f : A -> bool) l x :
  filter f (l ++ [x]) = filter f l ++ (if f x then [x] else []).
Proof. rewrite filter_app. reflexivity. Qed.

(** Each group holds the items carrying its key, in input order. *)
Lemma group_loop_own key_of items result :
  group_loop key_of items = Ok result ->
  forall k,
    own result k
    = match filter (fun item => key_of item =? k) items with
      | [] => None
      | group => Some group
      end.
Proof.
  revert result. induction items as [|x items IH] using rev_ind; intros result H k.
  - inversion H. reflexivity.
  - rewrite group_loop_snoc in H.
    destruct (group_loop key_of items) as [r|] eqn:L; [|discriminate].
    simpl in H. specialize (IH r eq_refl).
    rewrite filter_snoc. unfold push_group in H.
    assert (Hset : forall g, own (obj_set r (key_of x) g) k
                     = if key_of x =? k then Some g else own r k)
      by (intro g; apply own_obj_set).
    destruct (own r (key_of x)) as [g|] eqn:O.
    + inversion H; subst result; clear H. rewrite Hset.
      destruct (key_of x =? k) eqn:E.
      * apply String.eqb_eq in E. subst k. rewrite IH in O.
        destruct (filter _ items); [discriminate|]. inversion O. reflexivity.
      * rewrite app_nil_r. apply IH.
    + destruct (inherited (key_of x)); [discriminate|].
      inversion H; subst result; clear H. rewrite Hset.
      destruct (key_of x =? k) eqn:E.
      * apply String.eqb_eq in E. subst k. rewrite IH in O.
        destruct (filter _ items); [reflexivity|discriminate].
      * rewrite app_nil_r. apply IH.
Qed.

(** The loop returns exactly when no key names an inherited member. *)
Lemma group_loop_returns key_of items :
  (forall item, In item items -> inherited (key_of item) = false) ->
  exists result, group_loop key_of items = Ok result.
Proof.
  induction items as [|x items IH] using rev_ind; intro Hk.
  - exists []. reflexivity.
  - destruct IH as [r Hr].
    { intros item Hin. apply Hk. apply in_or_app. auto. }
    rewrite group_loop_snoc, Hr. simpl. unfold push_group.
    destruct (own r (key_of x)); [eauto|].
    rewrite Hk by (apply in_or_app; simpl; auto). eauto.
Qed.

Lemma group_loop_throws key_of items :
  (exists item, In item items /\ inherited (key_of item) = true) ->
  group_loop key_of items = Throw.
Proof.
  induction items as [|x items IH] using rev_ind; intros [item [Hin Hinh]].
  - destruct Hin.
  - rewrite group_loop_snoc.
    destruct (group_loop key_of items) as [r|] eqn:L; [|reflexivity].
    apply in_app_or in Hin. destruct Hin as [Hin|[Hx|[]]].
    + assert (Ok r = Throw) by (apply IH; eauto). discriminate.
    + subst item. simpl. unfold push_group.
      rewrite (group_loop_own _ _ _ L).
      destruct (filter (fun item => key_of item =? key_of x) items) as [|y l] eqn:F.
      * rewrite Hinh. reflexivity.
      * exfalso.
        assert (Hy : In y (filter (fun item => key_of item =? key_of x) items))
          by (rewrite F; simpl; auto).
        apply filter_In in Hy. destruct Hy as [Hy E].
        apply String.eqb_eq in E.
        assert (Ok r = Throw).
        { apply IH. exists y. split; auto. congruence. }
        discriminate.
Qed.


(** ** Own-key order of grouping results *)

Lemma array_index_canonical k n :
  array_index k = Some n -> NilZero.string_of_uint (N.to_uint n) = k.
Proof.
  unfold array_index. destruct (NilZero.uint_of_string k) as [d|]; [|discriminate].
  destruct (_ =? k) eqn:E; simpl; [|discriminate].
  destruct (_ <=? _)%N; [|discriminate].
  intro H. inversion H. subst n. apply String.eqb_eq. assumption.
Qed.

Lemma array_index_inj k1 k2 n :
  array_index k1 = Some n -> array_index k2 = Some n -> k1 = k2.
Proof.
  intros H1 H2. apply array_index_canonical in H1, H2. congruence.
Qed.

Lemma mem_string_In k l : mem_string k l = true <-> In k l.
Proof.
  unfold mem_string. rewrite existsb_exists. split.
  - intros [x [Hin E]]. apply String.eqb_eq in E. subst. assumption.
  - intro Hin. exists k. split; auto. apply String.eqb_refl.
Qed.

Lemma first_seen_In k ks : In k (first_seen ks) <-> In k ks.
Proof.
  induction ks as [|a ks IH]; simpl; [tauto|].
  rewrite filter_In, IH. destruct (String.eqb_spec k a) as [->|Hne]; simpl.
  - tauto.
  - split; [tauto|]. intros [H|H]; [congruence|auto].
Qed.

Lemma first_seen_snoc ks k :
  first_seen (ks ++ [k])
  = if mem_string k ks then first_seen ks else first_seen ks ++ [k].
Proof.
  induction ks as [|a ks IH]; simpl; [reflexivity|].
  rewrite IH. unfold mem_string in *. simpl.
  destruct (existsb (String.eqb k) ks); simpl.
  - rewrite orb_true_r. reflexivity.
  - rewrite orb_false_r, filter_snoc.
    destruct (k =? a); simpl; [rewrite app_nil_r|]; reflexivity.
Qed.

Lemma first_seen_NoDup ks : NoDup (first_seen ks).
Proof.
  induction ks as [|a ks IH]; simpl; constructor.
  - rewrite filter_In. rewrite String.eqb_refl. simpl. intros [_ H]. discriminate.
  - apply NoDup_filter. assumption.
Qed.

Lemma ordered_split_filter l I S :
  ordered_split l I S -> filter is_index l = I /\ filter not_index l = S.
Proof.
  intros [-> [HI [_ HS]]]. rewrite !filter_app. split.
  - rewrite (forallb_filter_id is_index I).
    + assert (filter is_index S = []) as ->; [|apply app_nil_r].
      clear - HS. induction HS; simpl; auto. rewrite H. assumption.
    + apply forallb_forall. apply Forall_forall. assumption.
  - assert (filter not_index I = []) as ->.
    { clear - HI. induction HI; simpl; auto. unfold not_index at 1. rewrite H. assumption. }
    simpl. clear - HS. induction HS; simpl; auto.
    unfold not_index at 1. rewrite H. simpl. congruence.
Qed.

Section KeyOrder.
Variable A : Type.
Implicit Types (o : obj A).

Lemma keys_insert_index o I S n k v :
  ordered_split (keys o) I S ->
  array_index k = Some n ->
  ~ In k (keys o) ->
  exists I', ordered_split (keys (insert_index n k v o)) I' S
             /\ (forall x, In x I' <-> x = k \/ In x I).
Proof.
  intros Hsplit Hk. revert o Hsplit.
  assert (Hidx : is_index k = true) by (unfold is_index; rewrite Hk; reflexivity).
  induction I as [|a I IH]; intros o [Hl [HI [Hsorted HS]]] Hnotin.
  - exists [k]. simpl in Hl. split.
    + assert (keys (insert_index n k v o) = k :: keys o) as ->.
      { destruct o as [|[k0 v0] o]; simpl; auto.
        assert (is_index k0 = false) as Hk0.
        { unfold keys in Hl. simpl in Hl. rewrite <- Hl in HS. inversion HS. assumption. }
        unfold is_index in Hk0. destruct (array_index k0); [discriminate|reflexivity]. }
      repeat split; simpl; auto; try congruence. repeat constructor.
    + intro x. simpl. intuition congruence.
  - destruct o as [|[k0 v0] o]; [discriminate|].
    unfold keys in Hl. simpl in Hl. inversion Hl as [[Ha Hrest]]. subst k0.
    inversion HI as [|? ? Ha_idx HI']; subst.
    inversion Hsorted as [|? ? Hsorted' Ha_lt]; subst.
    simpl. unfold is_index in Ha_idx.
    destruct (array_index a) as [na|] eqn:Ea; [|discriminate].
    destruct (na <? n)%N eqn:Lt.
    + destruct (IH o) as [I' [[Hl' [HI'' [Hs'' HS'']]] Hin']].
      { repeat split; auto. }
      { intro Hin. apply Hnotin. unfold keys. simpl. auto. }
      exists (a :: I'). split.
      * repeat split; auto.
        -- unfold keys in *. simpl. rewrite Hl'. reflexivity.
        -- constructor; auto. unfold is_index. rewrite Ea. reflexivity.
        -- constructor; auto. apply Forall_forall. intros x Hx.
           apply Hin' in Hx. destruct Hx as [->|Hx].
           ++ unfold index_lt. rewrite Ea, Hk. apply N.ltb_lt. assumption.
           ++ rewrite Forall_forall in Ha_lt. auto.
      * intro x. simpl. rewrite Hin'. tauto.
    + exists (k :: a :: I). split.
      * assert (Hlt : (n < na)%N).
        { apply N.ltb_ge in Lt.
          assert (n <> na).
          { intro; subst na. apply Hnotin. unfold keys. simpl. left.
            eapply array_index_inj; eauto. }
          lia. }
        repeat split; auto.
        -- unfold keys in *. simpl. rewrite Hrest. reflexivity.
        -- constructor; auto. constructor.
           ++ unfold index_lt. rewrite Hk, Ea. assumption.
           ++ apply Forall_forall. intros x Hx.
              rewrite Forall_forall in Ha_lt. specialize (Ha_lt x Hx).
              unfold index_lt in *. rewrite Hk. rewrite Ea in Ha_lt.
              destruct (array_index x); [lia|contradiction].
      * intro x. simpl. intuition congruence.
Qed.

Lemma keys_obj_set_new o I S k v :
  ordered_split (keys o) I S ->
  own o k = None ->
  if is_index k
  then exists I', ordered_split (keys (obj_set o k v)) I' S
                  /\ (forall x, In x I' <-> x = k \/ In x I)
  else ordered_split (keys (obj_set o k v)) I (S ++ [k]).
Proof.
  intros Hsplit Hnone. unfold obj_set, has_own. rewrite Hnone. unfold add_own, is_index.
  destruct (array_index k) as [n|] eqn:Ek.
  - apply keys_insert_index; auto. rewrite <- own_in_keys. congruence.
  - destruct Hsplit as [Hl [HI [Hs HS]]]. repeat split; auto.
    + unfold keys in *. rewrite map_app, Hl, app_assoc. reflexivity.
    + apply Forall_app. split; auto. constructor; auto.
      unfold is_index. rewrite Ek. reflexivity.
Qed.

Lemma keys_obj_set_old o k v :
  own o k <> None -> keys (obj_set o k v) = keys o.
Proof.
  intro H. unfold obj_set, has_own. destruct (own o k); [|congruence].
  apply keys_replace_own.
Qed.
End KeyOrder.

(** Own-key order of a grouping result. *)
Lemma group_loop_keys key_of items result :
  group_loop key_of items = Ok result ->
  exists I,
    ordered_split (keys result) I
      (filter not_index (first_seen (map key_of items)))
    /\ (forall x, In x I <-> is_index x = true /\ In x (map key_of items)).
Proof.
  revert result. induction items as [|x items IH] using rev_ind; intros result H.
  - inversion H. exists []. split.
    + repeat split; simpl; auto. constructor.
    + simpl. tauto.
  - rewrite group_loop_snoc in H.
    destruct (group_loop key_of items) as [r|] eqn:L; [|discriminate].
    simpl in H. destruct (IH r eq_refl) as [I [Hsplit HI]].
    pose proof (group_loop_own _ _ _ L (key_of x)) as Hown.
    replace (map key_of (items ++ [x])) with (map key_of items ++ [key_of x])
      by (rewrite map_app; reflexivity).
    rewrite first_seen_snoc.
    assert (Hmem : mem_string (key_of x) (map key_of items) = true
                   <-> own r (key_of x) <> None).
    { rewrite mem_string_In, in_map_iff, Hown. split.
      - intros [y [E Hy]].
        assert (In y (filter (fun item => key_of item =? key_of x) items)).
        { apply filter_In. split; auto. apply String.eqb_eq. assumption. }
        destruct (filter _ items); [contradiction|discriminate].
      - destruct (filter (fun item => key_of item =? key_of x) items) as [|y l] eqn:F;
          [congruence|]. intros _. exists y.
        assert (Hy : In y (filter (fun item => key_of item =? key_of x) items))
          by (rewrite F; simpl; auto).
        apply filter_In in Hy. destruct Hy as [Hy E]. apply String.eqb_eq in E. auto. }
    unfold push_group in H.
    destruct (own r (key_of x)) as [g|] eqn:O.
    + inversion H; subst result; clear H.
      rewrite keys_obj_set_old by congruence.
      rewrite (proj2 Hmem) by congruence.
      exists I. split; auto. intro y. rewrite HI, in_app_iff. simpl.
      split; [tauto|]. intros [Hy [Hin|[<-|[]]]]; auto.
      split; auto. apply mem_string_In. apply Hmem. congruence.
    + destruct (inherited (key_of x)); [discriminate|].
      inversion H; subst result; clear H.
      destruct (mem_string (key_of x) (map key_of items)) eqn:M.
      { exfalso. exact (proj1 Hmem eq_refl eq_refl). }
      rewrite filter_snoc.
      pose proof (@keys_obj_set_new _ r I _ (key_of x) ([] ++ [x]) Hsplit O) as Hnew.
      unfold not_index at 2.
      destruct (is_index (key_of x)) eqn:Ix; simpl.
      * destruct Hnew as [I' [Hsplit' HI']]. exists I'. rewrite app_nil_r.
        split; auto. intro y. rewrite HI', HI, in_app_iff. simpl.
        split.
        -- intros [->|[? ?]]; auto.
        -- intros [Hy [Hin|[<-|[]]]]; auto.
      * exists I. split; auto. intro y. rewrite HI, in_app_iff. simpl.
        split; [tauto|]. intros [Hy [Hin|[<-|[]]]]; auto. congruence.
Qed.

(** ** The nested index *)

Lemma getFromNestedGroups_walk tree path :
  getFromNestedGroups tree path = walk (Val tree) path.
Proof. destruct path; [destruct tree|]; reflexivity. Qed.

Lemma walk_cons c key rest :
  walk (Val c) (key :: rest)
  = if truthy c && typeof_object c && negb (nullish key)
       && has_property c (ToPropertyKey key)
    then walk (get_property c (ToPropertyKey key)) rest
    else [].
Proof.
  cbn [walk]. destruct key; cbn [SameValueZero nullish negb];
    rewrite ?andb_true_r, ?andb_false_r; reflexivity.
Qed.

Lemma walk_object props key rest :
  walk (Val (VObj props)) (key :: rest)
  = if nullish key then []
    else match own props (ToPropertyKey key) with
         | Some v => walk (Val v) rest
         | None => []
         end.
Proof.
  rewrite walk_cons. cbn [truthy typeof_object andb has_property get_property].
  unfold has_own.
  destruct (nullish key); cbn [negb andb]; auto.
  destruct (own props (ToPropertyKey key)); cbn [orb]; auto.
  destruct (inherited (ToPropertyKey key)); auto.
  destruct rest; reflexivity.
Qed.

Lemma StronglySorted_index_lt_NoDup l : StronglySorted index_lt l -> NoDup l.
Proof.
  induction 1 as [|a l Hs IH Hlt]; constructor; auto.
  intro Hin. rewrite Forall_forall in Hlt. specialize (Hlt a Hin).
  unfold index_lt in Hlt. destruct (array_index a); [lia|contradiction].
Qed.

Lemma ordered_split_NoDup l I S : ordered_split l I S -> NoDup S -> NoDup l.
Proof.
  intros [-> [HI [Hs HS]]] HndS. apply NoDup_app; auto.
  - apply StronglySorted_index_lt_NoDup. assumption.
  - intros a Ha Ha'. rewrite Forall_forall in HI, HS.
    specialize (HI a Ha). specialize (HS a Ha'). congruence.
Qed.

Lemma group_loop_NoDup key_of items result :
  group_loop key_of items = Ok result -> NoDup (keys result).
Proof.
  intro H. destruct (group_loop_keys _ _ _ H) as [I [Hsplit _]].
  eapply ordered_split_NoDup; eauto.
  apply NoDup_filter. apply first_seen_NoDup.
Qed.

Lemma own_of_In (A : Type) (o : obj A) k v :
  NoDup (keys o) -> In (k, v) o -> own o k = Some v.
Proof.
  unfold keys. induction o as [|[k0 v0] o IH]; simpl; intros Hnd Hin; [contradiction|].
  inversion Hnd as [|? ? Hnotin Hnd']; subst.
  destruct Hin as [E|Hin].
  - inversion E; subst. rewrite String.eqb_refl. reflexivity.
  - destruct (String.eqb_spec k0 k) as [->|Hne]; auto.
    exfalso. apply Hnotin. apply in_map_iff. exists (k, v). auto.
Qed.

Lemma sub_fold_snoc build entries e :
  sub_fold build (entries ++ [e])
  = (result <- sub_fold build entries ;;
     sub <- build (snd e) ;;
     Ok (obj_set result (fst e) sub)).
Proof. unfold sub_fold. rewrite fold_left_app. reflexivity. Qed.

Lemma sub_fold_own build entries :
  NoDup (keys entries) ->
  (forall g, In g (map snd entries) -> exists t, build g = Ok t) ->
  exists result,
    sub_fold build entries = Ok result
    /\ forall k,
         match own entries k with
         | Some g => exists t, build g = Ok t /\ own result k = Some t
         | None => own result k = None
         end.
Proof.
  induction entries as [|[k0 g0] entries IH] using rev_ind; intros Hnd Hok.
  - exists []. split; [reflexivity|]. intro k. reflexivity.
  - unfold keys in Hnd. rewrite map_app in Hnd. simpl in Hnd.
    assert (Hnd' : NoDup (keys entries)).
    { apply NoDup_remove_1 in Hnd. rewrite app_nil_r in Hnd. assumption. }
    assert (Hk0 : own entries k0 = None).
    { apply NoDup_remove_2 in Hnd. rewrite app_nil_r in Hnd.
      destruct (own entries k0) eqn:O; auto. exfalso. apply Hnd.
      apply own_in_keys. congruence. }
    destruct IH as [res [Hres Hown]]; auto.
    { intros g Hg. apply Hok. rewrite map_app. apply in_or_app. auto. }
    destruct (Hok g0) as [t0 Ht0].
    { rewrite map_app. apply in_or_app. simpl. auto. }
    exists (obj_set res k0 t0). split.
    + rewrite sub_fold_snoc, Hres. simpl. rewrite Ht0. reflexivity.
    + intro k. rewrite own_app, own_obj_set. simpl. specialize (Hown k).
      destruct (String.eqb_spec k0 k) as [->|Hne].
      * rewrite Hk0. eauto.
      * destruct (own entries k); auto.
Qed.

Lemma createNestedGroups_cons items firstKey restKeys :
  createNestedGroups items (firstKey :: restKeys)
  = (groups <- group_loop (fun item => ToPropertyKey (get item firstKey)) items ;;
     match restKeys with
     | [] => Ok (groups_value groups)
     | _ :: _ =>
         result <- sub_fold (fun g => createNestedGroups g restKeys) groups ;;
         Ok (VObj result)
     end).
Proof. destruct restKeys; reflexivity. Qed.

Lemma own_groups_value_props (groups : obj (list record)) k :
  own (map (fun e => (fst e, array_of (snd e))) groups) k
  = option_map array_of (own groups k).
Proof.
  induction groups as [|[k0 g0] groups IH]; simpl; auto.
  destruct (k0 =? k); auto.
Qed.

Lemma filter_filter (A : Type) (f g : A -> bool) l :
  filter f (filter g l) = filter (fun x => g x && f x) l.
Proof.
  induction l as [|a l IH]; simpl; auto.
  destruct (g a); simpl; [destruct (f a)|]; simpl; congruence.
Qed.

Lemma filter_false (A : Type) (l : list A) : filter (fun _ => false) l = [].
Proof. induction l; simpl; auto. Qed.

Lemma no_inherited_key_cons k keys item :
  no_inherited_key (k :: keys) item = true ->
  inherited (ToPropertyKey (get item k)) = false /\ no_inherited_key keys item = true.
Proof.
  unfold no_inherited_key. simpl. rewrite andb_true_iff, negb_true_iff. tauto.
Qed.

(** The nested index followed along a path of the same arity holds the
    children that match the path componentwise, in input order. *)
Lemma nested_lookup keys : forall items path,
  List.length path = List.length keys ->
  Forall (fun item => no_inherited_key keys item = true) items ->
  exists tree,
    createNestedGroups items keys = Ok tree
    /\ getFromNestedGroups tree path
       = map VObj (filter (fun c => nested_match path (key_values c keys)) items).
Proof.
  induction keys as [|k rest IH]; intros items path Hlen Hinh.
  - destruct path; [|discriminate]. exists (array_of items). split; [reflexivity|].
    unfold getFromNestedGroups, array_of. simpl. f_equal. symmetry.
    apply forallb_filter_id. apply forallb_forall. auto.
  - destruct path as [|pv path]; [discriminate|]. simpl in Hlen.
    injection Hlen as Hlen.
    rewrite createNestedGroups_cons.
    set (found := filter (fun c => nested_match (pv :: path) (key_values c (k :: rest))) items).
    assert (Hfound : found
              = filter (fun c => negb (nullish pv)
                                 && (ToPropertyKey (get c k) =? ToPropertyKey pv)
                                 && nested_match path (key_values c rest)) items)
      by reflexivity.
    clearbody found.
    set (key_of := fun item => ToPropertyKey (get item k)).
    destruct (group_loop_returns key_of items) as [groups Hgroups].
    { intros item Hin. rewrite Forall_forall in Hinh.
      apply (no_inherited_key_cons _ _ _ (Hinh item Hin)). }
    rewrite Hgroups. simpl.
    pose proof (group_loop_own _ _ _ Hgroups) as Hown.
    assert (Hsub : forall key g, own groups key = Some g ->
              g = filter (fun item => key_of item =? key) items
              /\ Forall (fun item => no_inherited_key rest item = true) g).
    { intros key g Hg. rewrite Hown in Hg.
      assert (g = filter (fun item => key_of item =? key) items).
      { destruct (filter (fun item => key_of item =? key) items); [discriminate|].
        inversion Hg. reflexivity. }
      split; auto. subst g. apply Forall_forall. intros item Hin.
      apply filter_In in Hin. destruct Hin as [Hin _].
      rewrite Forall_forall in Hinh.
      apply (no_inherited_key_cons _ _ _ (Hinh item Hin)). }
    assert (Hnull : nullish pv = true -> found = []).
    { intro Hn. rewrite Hfound, Hn. simpl. apply filter_false. }
    assert (Hsome : nullish pv = false ->
              found = filter (fun c => nested_match path (key_values c rest))
                        (filter (fun item => key_of item =? ToPropertyKey pv) items)).
    { intro Hn. rewrite Hfound, Hn, filter_filter. reflexivity. }
    assert (Hmiss : own groups (ToPropertyKey pv) = None -> found = []).
    { intro Hnone. rewrite Hown in Hnone.
      destruct (nullish pv) eqn:Hn; [auto|]. rewrite Hsome by reflexivity.
      destruct (filter (fun item => key_of item =? ToPropertyKey pv) items);
        [reflexivity|discriminate]. }
    destruct rest as [|k2 rest].
    + (* leaf level *)
      destruct path; [|discriminate].
      exists (groups_value groups). split; [reflexivity|].
      rewrite getFromNestedGroups_walk. unfold groups_value.
      rewrite walk_object.
      destruct (nullish pv) eqn:Hn.
      { rewrite Hnull by reflexivity. reflexivity. }
      rewrite own_groups_value_props.
      destruct (own groups (ToPropertyKey pv)) as [g|] eqn:O; simpl.
      * destruct (Hsub _ _ O) as [-> _]. rewrite Hsome by reflexivity.
        f_equal. symmetry. rewrite <- (filter_ext (fun _ => true)).
        -- apply forallb_filter_id. apply forallb_forall. auto.
        -- reflexivity.
      * rewrite (Hmiss eq_refl). reflexivity.
    + (* inner level *)
      destruct (sub_fold_own (fun g => createNestedGroups g (k2 :: rest)) groups)
        as [result [Hresult Hres]].
      { eapply group_loop_NoDup; eauto. }
      { intros g Hg. apply in_map_iff in Hg. destruct Hg as [[key g'] [Eg Hin]].
        simpl in Eg. subst g'.
        assert (Hg : own groups key = Some g).
        { apply own_of_In; auto. eapply group_loop_NoDup; eauto. }
        destruct (Hsub _ _ Hg) as [_ Hinh'].
        destruct (IH g (repeat VNull (List.length (k2 :: rest)))) as [t [Ht _]]; auto.
        - apply repeat_length.
        - eauto. }
      rewrite Hresult. simpl bind. exists (VObj result). split; [reflexivity|].
      rewrite getFromNestedGroups_walk. rewrite walk_object.
      destruct (nullish pv) eqn:Hn.
      { rewrite Hnull by reflexivity. reflexivity. }
      specialize (Hres (ToPropertyKey pv)).
      destruct (own groups (ToPropertyKey pv)) as [g|] eqn:O.
      * destruct Hres as [t [Ht Hr]]. rewrite Hr.
        destruct (Hsub _ _ O) as [Eg Hinh'].
        destruct (IH g path Hlen Hinh') as [t' [Ht' Hlookup]].
        rewrite Ht in Ht'. inversion Ht'; subst t'.
        rewrite <- getFromNestedGroups_walk, Hlookup, Eg, Hsome by reflexivity.
        reflexivity.
      * rewrite Hres. rewrite (Hmiss eq_refl). reflexivity.
Qed.

(** ** groupByMany against createNestedGroups; composite keys *)

Lemma fold_left_ext (A B : Type) (f g : A -> B -> A) l a :
  (forall a x, f a x = g a x) -> fold_left f l a = fold_left g l a.
Proof.
  intro H. revert a. induction l as [|x l IH]; intro a; simpl; auto.
  rewrite H. apply IH.
Qed.

(** groupByMany and createNestedGroups build the same tree. *)
Lemma groupByMany_cons items firstKey restKeys :
  groupByMany items (firstKey :: restKeys)
  = (groups <- group_loop (fun item => ToPropertyKey (get item firstKey)) items ;;
     match restKeys with
     | [] => Ok (groups_value groups)
     | _ :: _ =>
         result <- sub_fold (fun g => groupByMany g restKeys) groups ;;
         Ok (VObj result)
     end).
Proof. destruct restKeys; reflexivity. Qed.

(** groupByMany and createNestedGroups build the same tree. *)
Lemma groupByMany_createNestedGroups keys : forall items,
  groupByMany items keys = createNestedGroups items keys.
Proof.
  induction keys as [|k rest IH]; intro items.
  - reflexivity.
  - rewrite groupByMany_cons, createNestedGroups_cons.
    destruct (group_loop _ items) as [groups|]; [|reflexivity].
    destruct rest as [|k2 rest]; [reflexivity|].
    cbn [bind]. unfold sub_fold.
    rewrite (fold_left_ext _ _
               (fun acc entry => result <- acc ;;
                                 sub <- groupByMany (snd entry) (k2 :: rest) ;;
                                 Ok (obj_set result (fst entry) sub))
               (fun acc entry => result <- acc ;;
                                 sub <- createNestedGroups (snd entry) (k2 :: rest) ;;
                                 Ok (obj_set result (fst entry) sub))).
    + reflexivity.
    + intros a x. rewrite IH. reflexivity.
Qed.

Lemma bar_prefix a : forall b r1 r2,
  has_bar a = false -> has_bar b = false ->
  (a ++ String "|" r1 = b ++ String "|" r2)%string -> a = b /\ r1 = r2.
Proof.
  induction a as [|c a IH]; intros [|c' b] r1 r2 Ha Hb E; simpl in *.
  - inversion E. auto.
  - inversion E; subst. rewrite Ascii.eqb_refl in Hb. discriminate.
  - inversion E; subst. rewrite Ascii.eqb_refl in Ha. discriminate.
  - inversion E; subst. apply orb_false_iff in Ha, Hb.
    destruct (IH b r1 r2) as [-> ->]; tauto.
Qed.

Lemma join_separator_cons2 x y l :
  join separator (x :: y :: l)
  = (x ++ String "|" ("|~~||" ++ join separator (y :: l)))%string.
Proof. reflexivity. Qed.

Lemma append_cancel_l (s a b : string) : (s ++ a = s ++ b)%string -> a = b.
Proof. induction s as [|c s IH]; simpl; intro E; [|inversion E]; auto. Qed.

Lemma join_separator_inj xs : forall ys,
  List.length xs = List.length ys ->
  forallb (fun s => negb (has_bar s)) xs = true ->
  forallb (fun s => negb (has_bar s)) ys = true ->
  join separator xs = join separator ys -> xs = ys.
Proof.
  induction xs as [|x xs IH]; intros [|y ys] Hlen Hx Hy E; try discriminate; auto.
  simpl in Hx, Hy. apply andb_true_iff in Hx, Hy.
  destruct Hx as [Hx Hxs], Hy as [Hy Hys].
  apply negb_true_iff in Hx, Hy.
  injection Hlen as Hlen.
  destruct xs as [|x2 xs], ys as [|y2 ys]; try discriminate.
  - simpl in E. congruence.
  - rewrite !join_separator_cons2 in E.
    destruct (@bar_prefix x y _ _ Hx Hy E) as [-> E'].
    f_equal. apply IH; auto. eapply append_cancel_l; eauto.
Qed.

Lemma render_plain v :
  plain_key v = true ->
  ToString (coalesce v (VStr EmptyString)) = ToString v /\ has_bar (ToString v) = false
  /\ nullish v = false.
Proof.
  unfold plain_key, coalesce. rewrite andb_true_iff, !negb_true_iff.
  intros [-> ->]. auto.
Qed.


Lemma createCompositeKey_plain vals :
  forallb plain_key vals = true ->
  map (fun v => ToString (coalesce v (VStr EmptyString))) vals = map ToString vals
  /\ forallb (fun s => negb (has_bar s)) (map ToString vals) = true.
Proof.
  induction vals as [|v vals IH]; simpl; auto.
  rewrite andb_true_iff. intros [Hv Hvals].
  destruct (IH Hvals) as [-> ->].
  destruct (render_plain _ Hv) as [-> [-> _]]. auto.
Qed.


Lemma attachChildrenComposite_filter parents children parentKeys childKeys as_ :
  attachChildrenComposite parents children parentKeys childKeys as_
  = map (fun parent =>
           with_property parent as_
             (array_of (filter (composite_match parentKeys childKeys parent) children)))
        parents.
Proof.
  unfold attachChildrenComposite. apply map_ext. intro parent.
  rewrite (index_many_get _ _ _ String.eqb_sym eqb_trans).
  match goal with |- context [or_empty ?x] =>
    replace (or_empty x) with (filter (composite_match parentKeys childKeys parent) children)
  end; [reflexivity|].
  unfold composite_match, getCompositeKey, makeCompositeKeyExtractor.
  destruct (filter _ children); reflexivity.
Qed.

Lemma attachChildComposite_find parents children parentKeys childKeys as_ :
  attachChildComposite parents children parentKeys childKeys as_
  = map (fun parent =>
           with_property parent as_
             (or_null (find (composite_match parentKeys childKeys parent) children)))
        parents.
Proof.
  unfold attachChildComposite. apply map_ext. intro parent.
  rewrite (index_one_get _ _ _ String.eqb_sym eqb_trans). reflexivity.
Qed.

Lemma first_filter_find (f : record -> bool) l :
  first_or_null (map VObj (filter f l)) = or_null (find f l).
Proof.
  induction l as [|a l IH]; simpl; auto. destruct (f a); auto.
Qed.

Lemma key_values_length item keys : List.length (key_values item keys) = List.length keys.
Proof. apply length_map. Qed.

(** ** The two composite strategies *)

Lemma forallb_Forall (A : Type) (f : A -> bool) l :
  forallb f l = true -> Forall (fun x => f x = true) l.
Proof. intro H. apply Forall_forall. apply forallb_forall. assumption. Qed.

Lemma attachChildrenNested_filter parents children parentKeys childKeys as_ :
  List.length parentKeys = List.length childKeys ->
  forallb (no_inherited_key childKeys) children = true ->
  attachChildrenNested parents children parentKeys childKeys as_
  = Ok (map (fun parent =>
               with_property parent as_
                 (array_of (filter (fun c => nested_match (key_values parent parentKeys)
                                                          (key_values c childKeys))
                                   children)))
            parents)
  /\ attachChildNested parents children parentKeys childKeys as_
     = Ok (map (fun parent =>
                  with_property parent as_
                    (or_null (find (fun c => nested_match (key_values parent parentKeys)
                                                          (key_values c childKeys))
                                   children)))
               parents).
Proof.
  intros Hlen Hinh. apply forallb_Forall in Hinh.
  unfold attachChildrenNested, attachChildNested.
  destruct (nested_lookup childKeys children (repeat VNull (List.length childKeys)))
    as [tree [Htree _]]; auto using repeat_length.
  rewrite Htree. cbn [bind].
  assert (Hpath : forall parent,
            getFromNestedGroups tree (map (fun key => get parent key) parentKeys)
            = map VObj (filter (fun c => nested_match (key_values parent parentKeys)
                                                      (key_values c childKeys))
                               children)).
  { intro parent.
    destruct (nested_lookup childKeys children (key_values parent parentKeys))
      as [tree' [Htree' Hlookup]]; auto.
    - rewrite key_values_length. assumption.
    - rewrite Htree in Htree'. inversion Htree'; subst tree'. exact Hlookup. }
  split; f_equal; apply map_ext; intro parent; rewrite Hpath; [reflexivity|].
  f_equal. apply (first_filter_find _ children).
Qed.


Lemma find_ext_in (A : Type) (f g : A -> bool) l :
  (forall x, In x l -> f x = g x) -> find f l = find g l.
Proof.
  induction l as [|a l IH]; simpl; intro H; auto.
  rewrite (H a) by auto. destruct (g a); auto.
Qed.


(** ** Depth of the nested index *)

Section ObjSetForall.
Variable A : Type.
Variable P : A -> bool.

Lemma forallb_replace_own (o : obj A) k v :
  forallb (fun e => P (snd e)) o = true -> P v = true ->
  forallb (fun e => P (snd e)) (replace_own k v o) = true.
Proof.
  intros Ho Hv. induction o as [|[k0 v0] o IH]; simpl in *; auto.
  apply andb_true_iff in Ho. destruct Ho as [H0 Ho].
  destruct (k0 =? k); simpl; rewrite ?Hv, ?H0; auto.
Qed.

Lemma forallb_insert_index (o : obj A) n k v :
  forallb (fun e => P (snd e)) o = true -> P v = true ->
  forallb (fun e => P (snd e)) (insert_index n k v o) = true.
Proof.
  intros Ho Hv. induction o as [|[k0 v0] o IH]; simpl in *.
  - rewrite Hv. reflexivity.
  - apply andb_true_iff in Ho. destruct Ho as [H0 Ho].
    destruct (array_index k0) as [n0|]; [destruct (n0 <? n)%N|]; simpl;
      rewrite ?Hv, ?H0; auto.
Qed.

Lemma forallb_obj_set (o : obj A) k v :
  forallb (fun e => P (snd e)) o = true -> P v = true ->
  forallb (fun e => P (snd e)) (obj_set o k v) = true.
Proof.
  intros Ho Hv. unfold obj_set, add_own. destruct (has_own o k).
  - apply forallb_replace_own; assumption.
  - destruct (array_index k).
    + apply forallb_insert_index; assumption.
    + rewrite forallb_app, Ho. simpl. rewrite Hv. reflexivity.
Qed.
End ObjSetForall.

Lemma sub_fold_values (P : value -> bool) build entries result :
  (forall g t, build g = Ok t -> P t = true) ->
  sub_fold build entries = Ok result ->
  forallb (fun e => P (snd e)) result = true.
Proof.
  intro Hbuild. revert result.
  induction entries as [|e entries IH] using rev_ind; intros result H.
  - inversion H. reflexivity.
  - rewrite sub_fold_snoc in H.
    destruct (sub_fold build entries) as [r|]; [|discriminate]. cbn [bind] in H.
    destruct (build (snd e)) as [t|] eqn:B; [|discriminate]. cbn [bind] in H.
    inversion H. apply forallb_obj_set; eauto.
Qed.

Lemma createNestedGroups_depth keys : forall items tree,
  createNestedGroups items keys = Ok tree ->
  has_depth (List.length keys) tree = true.
Proof.
  induction keys as [|k rest IH]; intros items tree H.
  - inversion H. simpl. unfold array_of.
    apply forallb_forall. intros v Hv. apply in_map_iff in Hv.
    destruct Hv as [r [<- _]]. reflexivity.
  - rewrite createNestedGroups_cons in H.
    destruct (group_loop _ items) as [groups|]; [|discriminate]. cbn [bind] in H.
    destruct rest as [|k2 rest].
    + inversion H. simpl.
      apply forallb_forall. intros e He. apply in_map_iff in He.
      destruct He as [e0 [<- _]]. simpl.
      apply forallb_forall. intros v Hv. apply in_map_iff in Hv.
      destruct Hv as [r [<- _]]. reflexivity.
    + destruct (sub_fold _ groups) as [result|] eqn:S; [|discriminate].
      inversion H.
      change (forallb (fun e => has_depth (List.length (k2 :: rest)) (snd e)) result = true).
      apply (sub_fold_values (has_depth (List.length (k2 :: rest))) _ _ _
               (fun g t Hg => IH g t Hg) S).
Qed.

Lemma own_In (A : Type) (o : obj A) k v : own o k = Some v -> In (k, v) o.
Proof.
  induction o as [|[k0 v0] o IH]; simpl; [discriminate|].
  destruct (String.eqb_spec k0 k) as [->|Hne].
  - intro H. inversion H. auto.
  - auto.
Qed.

Lemma has_depth_sub k props key sub :
  has_depth (S k) (VObj props) = true -> own props key = Some sub ->
  has_depth k sub = true.
Proof.
  simpl. intros H Hown. rewrite forallb_forall in H.
  apply (H (key, sub)). apply own_In. assumption.
Qed.

(** Within the depth of the index and away from null and undefined, the lookup
    is plain navigation. *)
Lemma walk_navigate k : forall tree path,
  has_depth k tree = true ->
  List.length path = k ->
  forallb not_nullish path = true ->
  getFromNestedGroups tree path = navigate tree path.
Proof.
  intros tree path. rewrite getFromNestedGroups_walk. revert tree path.
  induction k as [|k IH]; intros tree path Hd Hlen Hnn.
  - destruct path; [|discriminate]. reflexivity.
  - destruct path as [|v path]; [discriminate|].
    destruct tree; try discriminate.
    rewrite walk_object. simpl in Hnn. apply andb_true_iff in Hnn.
    destruct Hnn as [Hv Hnn]. unfold not_nullish in Hv.
    apply negb_true_iff in Hv. rewrite Hv. cbn [navigate].
    destruct (own props (ToPropertyKey v)) as [sub|] eqn:O; auto.
    apply IH; auto. eapply has_depth_sub; eauto.
Qed.

Lemma walk_short k : forall tree path,
  has_depth k tree = true ->
  List.length path < k ->
  getFromNestedGroups tree path = [].
Proof.
  intros tree path. rewrite getFromNestedGroups_walk. revert tree path.
  induction k as [|k IH]; intros tree path Hd Hlen; [lia|].
  destruct tree; try discriminate.
  destruct path as [|v path]; [reflexivity|].
  rewrite walk_object. destruct (nullish v); auto.
  destruct (own props (ToPropertyKey v)) as [sub|] eqn:O; auto.
  apply IH; [eapply has_depth_sub; eauto|simpl in Hlen; lia].
Qed.

(** ** The joins backed by a Map *)

Lemma get_with_property_same item as_ v : own (with_property item as_ v) as_ = Some v.
Proof. unfold with_property. rewrite own_obj_set, String.eqb_refl. reflexivity. Qed.

Lemma own_with_property_other item as_ v k :
  k <> as_ -> own (with_property item as_ v) k = own item k.
Proof.
  intro Hne. unfold with_property. rewrite own_obj_set.
  destruct (String.eqb_spec as_ k); congruence.
Qed.

Lemma index_many_SameValueZero (key_of : record -> value) children k :
  or_empty (map_get SameValueZero (index_many SameValueZero key_of children) k)
  = filter (fun c => SameValueZero (key_of c) k) children.
Proof.
  rewrite (index_many_get _ _ _ SameValueZero_sym SameValueZero_trans).
  destruct (filter _ children); reflexivity.
Qed.

Lemma index_one_SameValueZero (key_of : record -> value) children k :
  map_get SameValueZero (index_one SameValueZero key_of children) k
  = find (fun c => SameValueZero (key_of c) k) children.
Proof. apply (index_one_get _ _ _ SameValueZero_sym SameValueZero_trans). Qed.

Lemma attachChildren_filter parents children parentKey childKey as_ :
  attachChildren parents children parentKey childKey as_
  = map (fun parent =>
           with_property parent as_
             (array_of (filter (flat_match parentKey childKey parent) children)))
        parents.
Proof.
  unfold attachChildren. apply map_ext. intro parent.
  rewrite index_many_SameValueZero. reflexivity.
Qed.

Lemma attachChild_find parents children parentKey childKey as_ :
  attachChild parents children parentKey childKey as_
  = map (fun parent =>
           with_property parent as_
             (or_null (find (flat_match parentKey childKey parent) children)))
        parents.
Proof.
  unfold attachChild. apply map_ext. intro parent.
  rewrite index_one_SameValueZero. reflexivity.
Qed.

Lemma joinBySelectors_many parents children parentSelector childSelector as_ :
  joinBySelectors parents children parentSelector childSelector as_ many
  = map (fun parent =>
           with_property parent as_
             (array_of (filter (selector_match parentSelector childSelector parent)
                               children)))
        parents.
Proof.
  unfold joinBySelectors. apply map_ext. intro parent.
  rewrite index_many_SameValueZero. reflexivity.
Qed.

Lemma joinBySelectors_one parents children parentSelector childSelector as_ :
  joinBySelectors parents children parentSelector childSelector as_ one
  = map (fun parent =>
           with_property parent as_
             (or_null (find (selector_match parentSelector childSelector parent)
                            children)))
        parents.
Proof.
  unfold joinBySelectors. apply map_ext. intro parent.
  rewrite index_one_SameValueZero. reflexivity.
Qed.

Lemma first_of_filter (f : record -> bool) l :
  first_of (array_of (filter f l)) = or_null (find f l).
Proof. apply (first_filter_find f l). Qed.


(** C5: the value attachChild attaches to a parent is the first element of the
    sequence attachChildren attaches to it, or null when that sequence is
    empty; likewise for joinBySelectors in mode "one" and mode "many". *)
Theorem cardinality_duality parents children :
  (forall parentKey childKey as_,
     map (fun r => get r as_) (attachChild parents children parentKey childKey as_)
     = map (fun r => first_of (get r as_))
           (attachChildren parents children parentKey childKey as_))
  /\ (forall parentSelector childSelector as_,
        map (fun r => get r as_)
            (joinBySelectors parents children parentSelector childSelector as_ one)
        = map (fun r => first_of (get r as_))
              (joinBySelectors parents children parentSelector childSelector as_ many)).
Proof.
  split; intros.
  - rewrite attachChild_find, attachChildren_filter, !map_map.
    apply map_ext. intro parent. unfold get.
    rewrite !get_with_property_same. symmetry. apply first_of_filter.
  - rewrite joinBySelectors_one, joinBySelectors_many, !map_map.
    apply map_ext. intro parent. unfold get.
    rewrite !get_with_property_same. symmetry. apply first_of_filter.
Qed.



(** ** One-to-one joins *)



(** ** Key order of groupBy *)

Lemma filter_all (A : Type) (f : A -> bool) l :
  forallb f l = true -> filter f l = l.
Proof. apply forallb_filter_id. Qed.

Lemma filter_none (A : Type) (f : A -> bool) l :
  forallb (fun x => negb (f x)) l = true -> filter f l = [].
Proof.
  induction l as [|a l IH]; simpl; auto.
  rewrite andb_true_iff, negb_true_iff. intros [-> H]. auto.
Qed.

(** C6, as amended: when no key names a member of Object.prototype, groupBy
    returns a mapping whose own keys are the array-index keys in ascending
    numeric order followed by the other keys in first-seen order, and every
    group holds the records of its key in input order; when no key is an
    array index the keys are exactly in first-seen order. *)
Theorem groupBy_key_order items keySelector :
  forallb (fun item => negb (inherited (ToPropertyKey (keySelector item)))) items
  = true ->
  exists result,
    groupBy items keySelector = Ok result
    /\ keys result
       = filter is_index (keys result)
         ++ filter not_index
              (first_seen (map (fun item => ToPropertyKey (keySelector item)) items))
    /\ StronglySorted index_lt (filter is_index (keys result))
    /\ (forall k, In k (keys result)
                  <-> In k (map (fun item => ToPropertyKey (keySelector item)) items))
    /\ (forall k,
          own result k
          = match filter (fun item => ToPropertyKey (keySelector item) =? k) items with
            | [] => None
            | group => Some group
            end)
    /\ (forallb not_index
          (map (fun item => ToPropertyKey (keySelector item)) items) = true ->
        groups_in_first_seen_order items keySelector).
Proof.
  intro Hinh. set (key_of := fun item => ToPropertyKey (keySelector item)).
  destruct (group_loop_returns key_of items) as [result Hres].
  { intros item Hin. rewrite forallb_forall in Hinh.
    apply negb_true_iff. apply (Hinh item Hin). }
  destruct (group_loop_keys _ _ _ Hres) as [I [Hsplit HI]].
  destruct (ordered_split_filter _ _ _ Hsplit) as [Hidx Hstr].
  pose proof (group_loop_own _ _ _ Hres) as Hown.
  assert (Hkeys : keys result
                  = filter is_index (keys result)
                    ++ filter not_index (first_seen (map key_of items))).
  { rewrite Hidx. apply Hsplit. }
  assert (Hsorted : StronglySorted index_lt (filter is_index (keys result))).
  { rewrite Hidx. apply Hsplit. }
  assert (Hmem : forall k, In k (keys result) <-> In k (map key_of items)).
  { intro k. split.
    - intro Hin. apply own_in_keys in Hin. rewrite Hown in Hin.
      destruct (filter (fun item => key_of item =? k) items) as [|x l] eqn:F;
        [congruence|].
      assert (Hx : In x (filter (fun item => key_of item =? k) items))
        by (rewrite F; simpl; auto).
      apply filter_In in Hx. destruct Hx as [Hx E]. apply String.eqb_eq in E.
      apply in_map_iff. eauto.
    - intro Hin. apply own_in_keys. rewrite Hown.
      apply in_map_iff in Hin. destruct Hin as [x [E Hx]].
      assert (In x (filter (fun item => key_of item =? k) items)).
      { apply filter_In. split; auto. apply String.eqb_eq. assumption. }
      destruct (filter _ items); [contradiction|discriminate]. }
  assert (Hfirst : forallb not_index (map key_of items) = true ->
                   keys result = first_seen (map key_of items)).
  { intro Hnone. rewrite Hkeys, Hidx.
    assert (I = []) as ->.
    { destruct I as [|x I']; auto. exfalso.
      assert (Hx : In x (x :: I')) by (simpl; auto).
      destruct (proj1 (HI x) Hx) as [Hix Hin].
      rewrite forallb_forall in Hnone. specialize (Hnone x Hin).
      unfold not_index in Hnone. rewrite Hix in Hnone. discriminate. }
    simpl. apply filter_all. apply forallb_forall. intros x Hx.
    apply (proj1 (first_seen_In _ _)) in Hx. rewrite forallb_forall in Hnone. auto. }
  exists result.
  split; [exact Hres|]. split; [exact Hkeys|]. split; [exact Hsorted|].
  split; [exact Hmem|]. split; [exact Hown|].
  intro Hnone. exists result.
  split; [exact Hres|]. split; [exact (Hfirst Hnone)|exact Hown].
Qed.

(** ** Grouping trees and the nested index *)

(** C7, as amended: groupByMany and createNestedGroups build the same tree
    (and fail on the same inputs), so any navigation of one is a navigation of
    the other; for a path of the tuple's length whose values are neither null
    nor undefined, plain navigation of the groupByMany tree yields exactly
    what getFromNestedGroups finds in the nested index; with no field both
    return the input sequence. *)
Theorem groupByMany_matches_nested_index R fields path :
  groupByMany R fields = createNestedGroups R fields
  /\ (List.length path = List.length fields ->
      forallb not_nullish path = true ->
      navigation_agrees R fields path)
  /\ (forallb (no_inherited_key fields) R = true ->
      exists tree, groupByMany R fields = Ok tree)
  /\ groupByMany R [] = Ok (array_of R)
  /\ createNestedGroups R [] = Ok (array_of R)
  /\ navigate (array_of R) [] = map VObj R
  /\ getFromNestedGroups (array_of R) [] = map VObj R.
Proof.
  pose proof (groupByMany_createNestedGroups fields R) as Heq.
  repeat split; auto.
  - intros Hlen Hnn. unfold navigation_agrees. rewrite Heq.
    destruct (createNestedGroups R fields) as [tree|] eqn:Htree; auto.
    symmetry. eapply walk_navigate; eauto.
    eapply createNestedGroups_depth; eauto.
  - intro Hinh. rewrite Heq. apply forallb_Forall in Hinh.
    destruct (nested_lookup fields R (repeat VNull (List.length fields)))
      as [tree [Htree _]]; eauto using repeat_length.
Qed.

(** ** Lookup in the nested index *)






(** ** The joins over a store *)

Module StoreFacts.
Import Store.

Lemma preserves_refl n h : preserves n h h.
Proof. split; auto. Qed.

Lemma preserves_trans n h1 h2 h3 :
  preserves n h1 h2 -> preserves n h2 h3 -> preserves n h1 h3.
Proof.
  intros [L1 P1] [L2 P2]. split; [lia|].
  intros a Ha. rewrite P2, P1; auto.
Qed.

Lemma alloc_preserves n h c :
  n <= List.length h -> preserves n h (fst (alloc h c)).
Proof.
  intro Hn. unfold alloc. simpl. split.
  - rewrite length_app. simpl. lia.
  - intros a Ha. apply nth_error_app1. lia.
Qed.

Lemma length_update h : forall a c, List.length (update h a c) = List.length h.
Proof.
  induction h as [|x h IH]; intros [|a] c; simpl; auto.
Qed.

Lemma nth_error_update_other h : forall a c b,
  a <> b -> nth_error (update h a c) b = nth_error h b.
Proof.
  induction h as [|x h IH]; intros [|a] c [|b] Hne; simpl; auto; try congruence.
Qed.

Lemma nth_error_update_same h : forall a c,
  a < List.length h -> nth_error (update h a c) a = Some c.
Proof.
  induction h as [|x h IH]; intros [|a] c Ha; simpl in *; try lia; auto.
  apply IH. lia.
Qed.

Lemma push_preserves n h a v : n <= a -> preserves n h (push h a v).
Proof.
  intro Hn. unfold push. split.
  - rewrite length_update. lia.
  - intros b Hb. apply nth_error_update_other. lia.
Qed.

Lemma length_push h a v : List.length (push h a v) = List.length h.
Proof. apply length_update. Qed.


Lemma same_value_eq a b : same_value a b = true -> a = b.
Proof.
  destruct a, b; simpl; try discriminate; auto; intro H.
  - apply Bool.eqb_prop in H. congruence.
  - apply Z.eqb_eq in H. congruence.
  - apply String.eqb_eq in H. congruence.
  - apply Nat.eqb_eq in H. congruence.
Qed.

Lemma same_value_refl a : same_value a a = true.
Proof.
  destruct a; simpl; auto.
  - destruct b; reflexivity.
  - apply Z.eqb_refl.
  - apply String.eqb_refl.
  - apply Nat.eqb_refl.
Qed.

Lemma same_value_sym a b : same_value a b = same_value b a.
Proof.
  destruct (same_value a b) eqn:E.
  - apply same_value_eq in E. subst. symmetry. apply same_value_refl.
  - destruct (same_value b a) eqn:E'; auto.
    apply same_value_eq in E'. subst. rewrite same_value_refl in E. discriminate.
Qed.

Lemma same_value_trans a b c :
  same_value a b = true -> same_value b c = true -> same_value a c = true.
Proof. intros H1 H2. apply same_value_eq in H1. subst. assumption. Qed.

Lemma elems_at_alloc h c a :
  a < List.length h -> elems_at (fst (alloc h c)) a = elems_at h a.
Proof.
  intro Ha. unfold elems_at, alloc. simpl. rewrite nth_error_app1 by lia. reflexivity.
Qed.

Lemma elems_at_alloc_new h elems :
  elems_at (fst (alloc h (CArray elems))) (List.length h) = elems.
Proof.
  unfold elems_at, alloc. simpl.
  rewrite nth_error_app2 by lia. rewrite Nat.sub_diag. reflexivity.
Qed.

Lemma elems_at_push h a v b :
  a < List.length h ->
  elems_at (push h a v) b = if (b =? a)%nat then elems_at h a ++ [v] else elems_at h b.
Proof.
  intro Ha. unfold push. destruct (Nat.eqb_spec b a) as [->|Hne].
  - unfold elems_at at 1. rewrite nth_error_update_same by assumption. reflexivity.
  - unfold elems_at at 1. rewrite nth_error_update_other by congruence. reflexivity.
Qed.

Lemma preserves_fields_of n h h' item :
  preserves n h h' -> n <= List.length h ->
  match item with HRef a => a < n | _ => True end ->
  fields_of h' item = fields_of h item.
Proof.
  intros [_ P] Hn Hitem. destruct item; auto. simpl. rewrite P by assumption.
  reflexivity.
Qed.

Lemma preserves_hget n h h' item key :
  preserves n h h' -> n <= List.length h ->
  match item with HRef a => a < n | _ => True end ->
  hget h' item key = hget h item key.
Proof.
  intros. unfold hget. erewrite preserves_fields_of; eauto.
Qed.

Lemma groups_of_get h m k :
  map_get same_value (groups_of h m) k
  = option_map (elems_at h) (map_get same_value m k).
Proof.
  induction m as [|[k0 a0] m IH]; simpl; auto.
  destruct (same_value k0 k); auto.
Qed.

Lemma map_set_absent (V : Type) (m : jsmap hvalue V) k v :
  map_get same_value m k = None -> map_set same_value m k v = m ++ [(k, v)].
Proof.
  induction m as [|[k0 v0] m IH]; simpl; auto.
  destruct (same_value k0 k); [discriminate|]. intro H. rewrite IH; auto.
Qed.

Lemma map_get_In (V : Type) (m : jsmap hvalue V) k v :
  map_get same_value m k = Some v -> In v (map snd m).
Proof.
  induction m as [|[k0 v0] m IH]; simpl; [discriminate|].
  destruct (same_value k0 k).
  - intro H. inversion H. auto.
  - auto.
Qed.

Lemma groups_of_set_present h m k a v :
  map_get same_value m k = Some a ->
  NoDup (map snd m) ->
  map_set same_value (groups_of h m) k v
  = map (fun e => (fst e, if (snd e =? a)%nat then v else elems_at h (snd e))) m.
Proof.
  induction m as [|[k0 a0] m IH]; simpl; [discriminate|].
  intros Hget Hnd. inversion Hnd as [|? ? Hnotin Hnd']; subst.
  destruct (same_value k0 k) eqn:E.
  - inversion Hget; subst a0. rewrite Nat.eqb_refl. f_equal.
    apply map_ext_in. intros [k1 a1] Hin. simpl.
    destruct (Nat.eqb_spec a1 a) as [->|Hne]; auto.
    exfalso. apply Hnotin. apply in_map_iff. exists (k1, a). auto.
  - destruct (Nat.eqb_spec a0 a) as [->|Hne].
    + exfalso. apply Hnotin. eapply map_get_In; eauto.
    + f_equal. apply IH; auto.
Qed.

Section IndexLoop.
Variable h0 : store.
Variable childKey : string.

Let n := List.length h0.
Let key0 (child : hvalue) : hvalue := hget h0 child childKey.

Lemma index_many_snoc (children : list hvalue) child :
  index_many same_value key0 (children ++ [child])
  = let m := index_many same_value key0 children in
    match map_get same_value m (key0 child) with
    | Some existing => map_set same_value m (key0 child) (existing ++ [child])
    | None => map_set same_value m (key0 child) [child]
    end.
Proof. unfold index_many. rewrite fold_left_app. reflexivity. Qed.

Lemma index_step_inv processed st child :
  allocated h0 child ->
  index_inv h0 childKey processed st ->
  index_inv h0 childKey (processed ++ [child]) (index_step childKey st child).
Proof.
  destruct st as [h m]. intros Halloc (Hpres & Hrange & Hnd & Hgroups).
  simpl in *. fold n in Hpres, Hrange. fold key0 in Hgroups.
  assert (Hlen : n <= List.length h) by (destruct Hpres; assumption).
  assert (Hkey : hget h child childKey = key0 child).
  { unfold key0. eapply preserves_hget; eauto. }
  assert (Hsnoc : index_many same_value key0 (processed ++ [child])
                  = match map_get same_value m (key0 child) with
                    | Some a =>
                        map_set same_value (groups_of h m) (key0 child)
                          (elems_at h a ++ [child])
                    | None => map_set same_value (groups_of h m) (key0 child) [child]
                    end).
  { rewrite index_many_snoc. cbv zeta. rewrite <- Hgroups, groups_of_get.
    destruct (map_get same_value m (key0 child)); reflexivity. }
  unfold index_step. cbn [fst snd]. rewrite Hkey.
  unfold index_inv. fold n. fold key0. rewrite Hsnoc.
  destruct (map_get same_value m (key0 child)) as [a|] eqn:G; cbn [fst snd alloc].
  - assert (Ha : n <= a < List.length h).
    { rewrite Forall_forall in Hrange. apply Hrange. eapply map_get_In; eauto. }
    split; [|split; [|split]].
    + eapply preserves_trans; [exact Hpres|]. apply push_preserves. lia.
    + rewrite length_push. assumption.
    + assumption.
    + rewrite (groups_of_set_present h m _ a _ G Hnd).
      apply map_ext. intros [k1 a1]. simpl. rewrite elems_at_push by lia. reflexivity.
  - split; [|split; [|split]].
    + eapply preserves_trans; [exact Hpres|].
      apply (alloc_preserves n h (CArray [child])). assumption.
    + rewrite (map_set_absent _ m _ _ G), map_app. simpl.
      apply Forall_app. split.
      * eapply Forall_impl; [|exact Hrange]. intros b Hb. simpl in Hb.
        rewrite length_app. simpl. lia.
      * constructor; auto. rewrite length_app. simpl. lia.
    + rewrite (map_set_absent _ m _ _ G), map_app. simpl.
      apply NoDup_app; auto.
      * constructor; auto. constructor.
      * intros b Hb [<-|[]]. rewrite Forall_forall in Hrange.
        specialize (Hrange _ Hb). lia.
    + rewrite (map_set_absent _ m _ _ G).
      rewrite (map_set_absent _ (groups_of h m)) by (rewrite groups_of_get, G; reflexivity).
      unfold groups_of. rewrite map_app. simpl. f_equal.
      * apply map_ext_in. intros [k1 a1] Hin. simpl. f_equal.
        apply (elems_at_alloc h (CArray [child])).
        rewrite Forall_forall in Hrange.
        apply (Hrange a1). apply in_map_iff. exists (k1, a1). auto.
      * f_equal. f_equal. apply (elems_at_alloc_new h [child]).
Qed.

Lemma index_loop_inv children : forall processed st,
  Forall (allocated h0) children ->
  index_inv h0 childKey processed st ->
  index_inv h0 childKey (processed ++ children)
    (fold_left (index_step childKey) children st).
Proof.
  induction children as [|c children IH]; intros processed st Halloc Hinv; simpl.
  - rewrite app_nil_r. assumption.
  - inversion Halloc; subst.
    replace (processed ++ c :: children) with ((processed ++ [c]) ++ children)
      by (rewrite <- app_assoc; reflexivity).
    apply IH; auto. apply index_step_inv; auto.
Qed.

End IndexLoop.

Lemma enriched_at_mono h0 h h' children parentKey childKey as_ parent out :
  preserves (List.length h) h h' ->
  enriched_at h0 h children parentKey childKey as_ parent out ->
  enriched_at h0 h' children parentKey childKey as_ parent out.
Proof.
  intros [Hlen Hpres] (o & arr & -> & Ho & Harr & Hrec & Helems).
  exists o, arr. repeat split; try lia.
  - rewrite Hpres; auto. apply nth_error_Some. congruence.
  - unfold elems_at in *. rewrite Hpres by lia. assumption.
Qed.

Lemma map_set_values (V : Type) (P : V -> Prop) (m : jsmap hvalue V) k v :
  Forall P (map snd m) -> P v -> Forall P (map snd (map_set same_value m k v)).
Proof.
  intros Hm Hv. induction m as [|[k0 v0] m IH]; simpl in *.
  - constructor; auto.
  - inversion Hm; subst. destruct (same_value k0 k); simpl; constructor; auto.
Qed.

(** The index loop writes only to arrays it has allocated. *)
Lemma index_loop_frame n childKey children : forall st,
  n <= List.length (fst st) ->
  Forall (fun a => n <= a < List.length (fst st)) (map snd (snd st)) ->
  let st' := fold_left (index_step childKey) children st in
  preserves n (fst st) (fst st')
  /\ Forall (fun a => n <= a < List.length (fst st')) (map snd (snd st')).
Proof.
  induction children as [|c children IH]; intros [h m] Hn Hrange; simpl in *.
  - split; [apply preserves_refl|assumption].
  - set (st1 := index_step childKey (h, m) c).
    assert (H1 : preserves n h (fst st1)
                 /\ Forall (fun a => n <= a < List.length (fst st1)) (map snd (snd st1))).
    { unfold st1, index_step. cbn [fst snd].
      destruct (map_get same_value m (hget h c childKey)) as [a|] eqn:G; cbn [fst snd alloc].
      - assert (Ha : n <= a < List.length h).
        { rewrite Forall_forall in Hrange. apply Hrange. eapply map_get_In; eauto. }
        split; [apply push_preserves; lia|]. rewrite length_push. assumption.
      - split; [apply (alloc_preserves n h (CArray [c])); assumption|].
        apply map_set_values.
        + eapply Forall_impl; [|exact Hrange]. intros b Hb. simpl in Hb.
          rewrite length_app. simpl. lia.
        + rewrite length_app. simpl. lia. }
    destruct H1 as [P1 R1].
    destruct (IH st1) as [P2 R2]; auto.
    { exact (Nat.le_trans _ _ _ Hn (proj1 P1)). }
    split; auto. eapply preserves_trans; eauto.
Qed.

Lemma attach_step_frame m parentKey as_ st parent :
  preserves (List.length (fst st)) (fst st) (fst (attach_step m parentKey as_ st parent)).
Proof.
  destruct st as [h outs]. unfold attach_step, lookup_or_empty. cbn [fst snd].
  destruct (map_get same_value m (hget h parent parentKey)); cbn [fst snd].
  - apply (alloc_preserves (List.length h) h). lia.
  - eapply preserves_trans.
    + apply (alloc_preserves (List.length h) h (CArray [])). lia.
    + destruct (alloc_preserves (List.length h) (h ++ [CArray []])
                  (CRecord (obj_set (fields_of (h ++ [CArray []]) parent) as_
                              (HRef (List.length h))))) as [L P].
      { rewrite length_app. simpl. lia. }
      split; auto.
Qed.

Lemma preserves_weaken n n' h h' : n' <= n -> preserves n h h' -> preserves n' h h'.
Proof. intros Hn [L P]. split; auto. intros a Ha. apply P. lia. Qed.

Lemma attach_loop_frame m parentKey as_ parents : forall st,
  preserves (List.length (fst st)) (fst st)
    (fst (fold_left (attach_step m parentKey as_) parents st)).
Proof.
  induction parents as [|p parents IH]; intro st; simpl.
  - apply preserves_refl.
  - pose proof (attach_step_frame m parentKey as_ st p) as P1.
    pose proof (IH (attach_step m parentKey as_ st p)) as P2.
    eapply preserves_trans; [exact P1|].
    eapply preserves_weaken; [|exact P2]. destruct P1. assumption.
Qed.

(** attachChildren leaves every object that existed before the call as it
    was, and returns a new array. *)
Lemma attachChildren_frame h parents children parentKey childKey as_ :
  preserves (List.length h) h
    (fst (attachChildren h parents children parentKey childKey as_))
  /\ List.length h <= snd (attachChildren h parents children parentKey childKey as_).
Proof.
  unfold attachChildren.
  destruct (index_loop_frame (List.length h) childKey (elems_at h children) (h, []))
    as [P1 _]; simpl; auto.
  set (indexed := fold_left (index_step childKey) (elems_at h children) (h, [])) in *.
  pose proof (attach_loop_frame (snd indexed) parentKey as_
                (elems_at (fst indexed) parents) (fst indexed, [])) as P2.
  cbn [fst] in P2.
  set (mapped := fold_left (attach_step (snd indexed) parentKey as_)
                   (elems_at (fst indexed) parents) (fst indexed, [])) in *.
  assert (P12 : preserves (List.length h) h (fst mapped)).
  { eapply preserves_trans; [exact P1|].
    eapply preserves_weaken; [|exact P2]. destruct P1. assumption. }
  split.
  - eapply preserves_trans; [exact P12|].
    apply (alloc_preserves (List.length h) (fst mapped)). destruct P12. assumption.
  - cbn [alloc snd]. destruct P12. assumption.
Qed.

Section AttachLoop.
Variable h0 : store.
Variables parentKey childKey as_ : string.
Variable children : list hvalue.
Variable h1 : store.
Variable m1 : jsmap hvalue nat.
Hypothesis indexed : index_inv h0 childKey children (h1, m1).

Lemma lookup_group pkv :
  match map_get same_value m1 pkv with
  | Some a =>
      List.length h0 <= a < List.length h1
      /\ elems_at h1 a
         = filter (fun child => same_value (hget h0 child childKey) pkv) children
  | None =>
      filter (fun child => same_value (hget h0 child childKey) pkv) children = []
  end.
Proof.
  destruct indexed as (_ & Hrange & _ & Hgroups). cbn [fst snd] in *.
  pose proof (groups_of_get h1 m1 pkv) as Hget.
  rewrite Hgroups in Hget.
  rewrite (index_many_get _ _ _ same_value_sym same_value_trans) in Hget.
  destruct (map_get same_value m1 pkv) as [a|] eqn:G; simpl in Hget.
  - split.
    + rewrite Forall_forall in Hrange. apply Hrange. eapply map_get_In; eauto.
    + destruct (filter _ children); [discriminate|]. inversion Hget. reflexivity.
  - destruct (filter _ children); [reflexivity|discriminate].
Qed.

Lemma attach_step_inv processed st parent :
  allocated h0 parent ->
  preserves (List.length h1) h1 (fst st) ->
  Forall2 (enriched_at h0 (fst st) children parentKey childKey as_) processed (snd st) ->
  let st' := attach_step m1 parentKey as_ st parent in
  preserves (List.length h1) h1 (fst st')
  /\ Forall2 (enriched_at h0 (fst st') children parentKey childKey as_)
       (processed ++ [parent]) (snd st').
Proof.
  destruct st as [h outs]. cbn [fst snd]. intros Halloc Hpres Houts.
  assert (H01 : preserves (List.length h0) h0 h1) by apply indexed.
  assert (Hn1 : List.length h0 <= List.length h1) by (destruct H01; assumption).
  assert (Hn : List.length h1 <= List.length h) by (destruct Hpres; assumption).
  assert (H0h : preserves (List.length h0) h0 h).
  { eapply preserves_trans; [exact H01|]. eapply preserves_weaken; eauto. }
  assert (Hitem : match parent with HRef a => a < List.length h0 | _ => True end)
    by (destruct parent; auto).
  assert (Hkey : hget h parent parentKey = hget h0 parent parentKey)
    by (eapply preserves_hget; eauto).
  pose proof (attach_step_frame m1 parentKey as_ (h, outs) parent) as Hstep.
  cbn [fst] in Hstep.
  split.
  { eapply preserves_trans; [exact Hpres|]. eapply preserves_weaken; eauto. }
  apply Forall2_app.
  { eapply Forall2_impl; [|exact Houts]. intros p o Hpo.
    eapply enriched_at_mono; eauto. }
  constructor; [|constructor].
  unfold attach_step, lookup_or_empty. cbn [fst snd]. rewrite Hkey.
  pose proof (lookup_group (hget h0 parent parentKey)) as Hgroup.
  destruct (map_get same_value m1 (hget h0 parent parentKey)) as [a|]; cbn [fst snd alloc].
  - destruct Hgroup as [Ha Helems].
    exists (List.length h), a.
    assert (Hf : fields_of h parent = fields_of h0 parent)
      by (eapply preserves_fields_of; eauto).
    rewrite Hf.
    split; [reflexivity|]. split; [lia|]. split.
    { rewrite length_app. simpl. lia. }
    split.
    + rewrite nth_error_app2 by lia. rewrite Nat.sub_diag. reflexivity.
    + unfold elems_at. rewrite nth_error_app1 by lia.
      destruct Hpres as [_ Hp]. rewrite Hp by lia. exact Helems.
  - assert (Hlen1 : List.length (h ++ [CArray []]) = S (List.length h))
      by (rewrite length_app; simpl; lia).
    rewrite Hlen1.
    exists (S (List.length h)), (List.length h).
    assert (Hf : fields_of (h ++ [CArray []]) parent = fields_of h0 parent).
    { eapply preserves_fields_of; eauto.
      eapply preserves_trans; [exact H0h|].
      apply (alloc_preserves (List.length h0) h (CArray [])). lia. }
    rewrite Hf.
    split; [reflexivity|]. split; [lia|]. split.
    { rewrite !length_app. simpl. lia. }
    split.
    + rewrite nth_error_app2 by lia. rewrite Hlen1, Nat.sub_diag. reflexivity.
    + unfold elems_at. rewrite nth_error_app1 by lia.
      rewrite nth_error_app2 by lia. rewrite Nat.sub_diag. simpl.
      symmetry. exact Hgroup.
Qed.

Lemma attach_loop_inv parents : forall processed st,
  Forall (allocated h0) parents ->
  preserves (List.length h1) h1 (fst st) ->
  Forall2 (enriched_at h0 (fst st) children parentKey childKey as_) processed (snd st) ->
  let st' := fold_left (attach_step m1 parentKey as_) parents st in
  preserves (List.length h1) h1 (fst st')
  /\ Forall2 (enriched_at h0 (fst st') children parentKey childKey as_)
       (processed ++ parents) (snd st').
Proof.
  induction parents as [|p parents IH]; intros processed st Halloc Hpres Houts; simpl.
  - rewrite app_nil_r. auto.
  - inversion Halloc; subst.
    destruct (attach_step_inv processed st p) as [P1 O1]; auto.
    replace (processed ++ p :: parents) with ((processed ++ [p]) ++ parents)
      by (rewrite <- app_assoc; reflexivity).
    apply IH; auto.
Qed.

End AttachLoop.

(** On arrays of allocated records, attachChildren returns an array that
    holds, for every parent in order, a reference to a record it has
    allocated: the parent's fields with the output field set to the array of
    matching children. *)
Lemma attachChildren_result h parents children parentKey childKey as_ :
  parents < List.length h ->
  Forall (allocated h) (elems_at h parents) ->
  Forall (allocated h) (elems_at h children) ->
  let run := attachChildren h parents children parentKey childKey as_ in
  Forall2 (enriched_at h (fst run) (elems_at h children) parentKey childKey as_)
    (elems_at h parents) (elems_at (fst run) (snd run)).
Proof.
  intros Hparents Hps Hcs run. subst run. unfold attachChildren.
  match goal with
  | |- context [fold_left (index_step childKey) ?l ?i] =>
      set (indexed := fold_left (index_step childKey) l i) in *
  end.
  assert (Hinv : index_inv h childKey (elems_at h children) indexed).
  { apply (index_loop_inv h childKey (elems_at h children) [] (h, [])); auto.
    repeat split; simpl; auto; constructor. }
  clearbody indexed. destruct indexed as [h1 m1]. cbn [fst snd].
  assert (H01 : preserves (List.length h) h h1) by apply Hinv.
  assert (Hsame : elems_at h1 parents = elems_at h parents).
  { unfold elems_at. destruct H01 as [_ P]. rewrite P by assumption. reflexivity. }
  rewrite Hsame.
  destruct (attach_loop_inv h parentKey childKey as_ (elems_at h children) h1 m1 Hinv
              (elems_at h parents) [] (h1, []) Hps
              (preserves_refl _ _) (Forall2_nil _)) as [P2 O2].
  simpl app in O2.
  match goal with
  | |- context [fold_left (attach_step m1 parentKey as_) ?l ?i] =>
      set (mapped := fold_left (attach_step m1 parentKey as_) l i) in *
  end.
  clearbody mapped. destruct mapped as [h2 outs].
  cbn [fst snd alloc] in *.
  replace (elems_at (h2 ++ [CArray outs]) (List.length h2)) with outs
    by (symmetry; apply (elems_at_alloc_new h2 outs)).
  eapply Forall2_impl; [|exact O2]. intros p o Hpo.
  eapply enriched_at_mono; [|exact Hpo].
  apply (alloc_preserves (List.length h2) h2 (CArray outs)). lia.
Qed.

Lemma extends_refl h : extends h h.
Proof. apply preserves_refl. Qed.

Lemma extends_trans h1 h2 h3 : extends h1 h2 -> extends h2 h3 -> extends h1 h3.
Proof.
  intros E1 E2. eapply preserves_trans; [exact E1|].
  eapply preserves_weaken; [|exact E2]. destruct E1. assumption.
Qed.

Lemma alloc_extends h c : extends h (fst (alloc h c)).
Proof. apply alloc_preserves. lia. Qed.

Lemma extends_length h h' : extends h h' -> List.length h <= List.length h'.
Proof. intros [L _]. exact L. Qed.


(** A loop whose turns only allocate only allocates. *)
Lemma fold_extends (X Y : Type) (step : store * X -> Y -> store * X) :
  (forall st y, extends (fst st) (fst (step st y))) ->
  forall ys st, extends (fst st) (fst (fold_left step ys st)).
Proof.
  intros Hstep ys. induction ys as [|y ys IH]; intro st; simpl.
  - apply extends_refl.
  - eapply extends_trans; [apply Hstep|apply IH].
Qed.

Lemma attach_one_step_extends m parentKey as_ st parent :
  extends (fst st) (fst (attach_one_step m parentKey as_ st parent)).
Proof. unfold attach_one_step. cbn [fst]. apply alloc_extends. Qed.



(** attachChild allocates its results and writes to nothing else. *)
Lemma attachChild_frame h parents children parentKey childKey as_ :
  extends h (fst (attachChild h parents children parentKey childKey as_))
  /\ List.length h <= snd (attachChild h parents children parentKey childKey as_).
Proof.
  unfold attachChild.
  match goal with
  | |- context [fold_left (attach_one_step ?m parentKey as_) ?l ?i] =>
      pose proof (fold_extends _ _ _ (attach_one_step_extends m parentKey as_) l i) as E;
      set (mapped := fold_left (attach_one_step m parentKey as_) l i) in *
  end.
  cbn [fst] in E. split.
  - eapply extends_trans; [exact E|apply alloc_extends].
  - cbn [alloc snd]. apply extends_length. exact E.
Qed.


End StoreFacts.

(** ** Enriched records *)




(** ** Concrete inputs: counterexamples, witnesses and scenarios *)


(** Key values that hold parts of the separator collide in the serialized
    key and are two paths of the nested index. *)
Lemma strategies_disagree_on_separator :
  ~ strategies_agree_on [split_parent] [split_child] ["a"; "b"] ["a"; "b"] "c".
Proof. intros [H _]. vm_compute in H. discriminate. Qed.


(** C2, failing input: a child whose key value is "constructor".  The nested
    builder finds the inherited Object under that name, takes it for a group
    and calls its missing push method; the serialized-key join of the same
    input returns one record per parent. *)
Theorem nested_join_throws_on_inherited_key :
  attachChildrenNested [named_parent] [named_child] ["name"] ["name"] "matches"
  = Throw
  /\ attachChildNested [named_parent] [named_child] ["name"] ["name"] "matches"
     = Throw
  /\ attachChildrenComposite [named_parent] [named_child] ["name"] ["name"] "matches"
     = [ [("name", VStr "x"); ("matches", VArr [])] ].
Proof. repeat split; reflexivity. Qed.



(** C6, counterexample: grouping by the numbers 2 then 1 yields the keys in
    the order "1", "2". *)
Lemma groupBy_reorders_index_keys :
  ~ groups_in_first_seen_order by_k (fun item => get item "k").
Proof.
  intros [result [Hres [Hkeys _]]]. vm_compute in Hres.
  inversion Hres; subst result. vm_compute in Hkeys. discriminate.
Qed.

Lemma groupBy_key_order_witness :
  groups_in_first_seen_order by_role (fun item => get item "role").
Proof.
  destruct (groupBy_key_order by_role (fun item => get item "role") eq_refl)
    as (result & _ & _ & _ & _ & _ & H).
  apply H. reflexivity.
Defined.

(** C7, counterexample: a record whose grouping field is null is grouped
    under the key "null", which plain navigation by null reaches and
    getFromNestedGroups refuses to look up. *)
Lemma navigation_disagrees_on_null :
  ~ navigation_agrees null_keyed ["a"] [VNull].
Proof. unfold navigation_agrees. vm_compute. discriminate. Qed.

Lemma groupByMany_matches_nested_index_witness :
  navigation_agrees stock ["sku"; "origin"] [VStr "A"; VStr "EU"]
  /\ exists tree, groupByMany stock ["sku"; "origin"] = Ok tree.
Proof.
  destruct (groupByMany_matches_nested_index stock ["sku"; "origin"]
              [VStr "A"; VStr "EU"]) as (_ & Hnav & Hret & _).
  split; [apply Hnav; reflexivity|apply Hret; reflexivity].
Defined.






Lemma enriches_each_length parents as_ out :
  enriches_each parents as_ out -> List.length out = List.length parents.
Proof. intros [f ->]. apply length_map. Qed.

Lemma enriches_each_nth parents as_ out :
  enriches_each parents as_ out ->
  forall i parent,
    nth_error parents i = Some parent ->
    exists v, nth_error out i = Some (with_property parent as_ v).
Proof.
  intros [f ->] i parent Hi. exists (f parent).
  rewrite nth_error_map, Hi. reflexivity.
Qed.

(** The joins backed by a Map return one enrichment per parent, in order, on
    every input; the nested joins do so whenever the nested index is built. *)
Lemma joins_keep_parents parents children as_ :
  (forall parentKey childKey,
     enriches_each parents as_ (attachChildren parents children parentKey childKey as_)
     /\ enriches_each parents as_ (attachChild parents children parentKey childKey as_))
  /\ (forall parentSelector childSelector mode,
        enriches_each parents as_
          (joinBySelectors parents children parentSelector childSelector as_ mode))
  /\ (forall parentKeys childKeys,
        enriches_each parents as_
          (attachChildrenComposite parents children parentKeys childKeys as_)
        /\ enriches_each parents as_
             (attachChildComposite parents children parentKeys childKeys as_))
  /\ (forall middle parentKey childParentKey middleKey childKey childAs
             middleCardinality childCardinality,
        enriches_each parents as_
          (attachChildrenWithFilter parents middle children parentKey
             childParentKey middleKey childKey as_ childAs
             middleCardinality childCardinality))
  /\ (forall parentKeys childKeys out,
        attachChildrenNested parents children parentKeys childKeys as_ = Ok out
        \/ attachChildNested parents children parentKeys childKeys as_ = Ok out ->
        enriches_each parents as_ out)
  /\ (forall parentKeys childKeys,
        forallb (no_inherited_key childKeys) children = true ->
        exists out out',
          attachChildrenNested parents children parentKeys childKeys as_ = Ok out
          /\ attachChildNested parents children parentKeys childKeys as_ = Ok out').
Proof.
  split. { intros; split; eexists; reflexivity. }
  split. { intros; destruct mode; eexists; reflexivity. }
  split. { intros; split; eexists; reflexivity. }
  split. { intros; eexists; reflexivity. }
  split.
  - intros parentKeys childKeys out H.
    unfold attachChildrenNested, attachChildNested in H.
    destruct (createNestedGroups children childKeys) as [tree|];
      cbn [bind] in H; destruct H as [H|H]; inversion H; eexists; reflexivity.
  - intros parentKeys childKeys Hinh. apply forallb_Forall in Hinh.
    destruct (nested_lookup childKeys children (repeat VNull (List.length childKeys)))
      as [tree [Htree _]]; auto using repeat_length.
    unfold attachChildrenNested, attachChildNested. rewrite Htree.
    eexists. eexists. split; reflexivity.
Qed.

(** The nested index is built exactly when no child key value names a member
    of Object.prototype. *)
Lemma createNestedGroups_throws items key rest :
  existsb (fun item => inherited (ToPropertyKey (get item key))) items = true ->
  createNestedGroups items (key :: rest) = Throw.
Proof.
  intro H. rewrite createNestedGroups_cons.
  rewrite group_loop_throws; [reflexivity|].
  apply existsb_exists in H. exact H.
Qed.

(** With null in a key field the one-to-one joins differ as well. *)
Example one_to_one_on_null :
  attachChildNested [lot_product] [lot_stock] ["sku"; "lot"] ["sku"; "lot"] "line"
  = Ok [ lot_product ++ [("line", VNull)] ]
  /\ attachChildComposite [lot_product] [lot_stock] ["sku"; "lot"] ["sku"; "lot"] "line"
     = [ lot_product ++ [("line", VObj lot_stock)] ].
Proof. split; reflexivity. Qed.

Example flat_one_to_many :
  attachChildren users orders "id" "userId" "orders"
  = [ [("id", num 1);
       ("orders", array_of [ [("id", num 101); ("userId", num 1)];
                             [("id", num 102); ("userId", num 1)] ])];
      [("id", num 2);
       ("orders", array_of [ [("id", num 103); ("userId", num 2)] ])] ].
Proof. reflexivity. Qed.

Example flat_one_to_one_no_match :
  attachChild users [ [("id", num 201); ("userId", num 1)] ]
              "id" "userId" "address"
  = [ [("id", num 1);
       ("address", VObj [("id", num 201); ("userId", num 1)])];
      [("id", num 2); ("address", VNull)] ].
Proof. reflexivity. Qed.

Example composite_key_equivalence :
  attachChildrenNested [product] stock ["sku"; "origin"] ["sku"; "origin"] "stock"
  = Ok (attachChildrenComposite [product] stock
          ["sku"; "origin"] ["sku"; "origin"] "stock")
  /\ attachChildrenComposite [product] stock
          ["sku"; "origin"] ["sku"; "origin"] "stock"
     = [ product ++
         [("stock",
           array_of [ [("sku", VStr "A"); ("origin", VStr "US"); ("qty", num 5)] ])] ].
Proof. split; reflexivity. Qed.

Example three_level_child_one :
  attachChildrenWithFilter
    [ [("id", num 1)] ]
    [ [("id", num 10)]; [("id", num 20)] ]
    [ [("id", num 1); ("enrollmentId", num 1); ("feeId", num 10); ("paid", num 100)] ]
    "id" "enrollmentId" "id" "feeId" "fees" "payment" None (Some one)
  = [ [("id", num 1);
       ("fees",
        array_of
          [ [("id", num 10);
             ("payment", VObj [("id", num 1); ("enrollmentId", num 1);
                               ("feeId", num 10); ("paid", num 100)])];
            [("id", num 20); ("payment", VUndefined)] ])] ].
Proof. reflexivity. Qed.

Example empty_inputs :
  attachChildren [] [] "id" "userId" "orders" = []
  /\ attachChildrenWithFilter [] [] [] "a" "b" "c" "d" "e" "f" None None = [].
Proof. split; reflexivity. Qed.

Example composite_coerces_numbers :
  attachChildrenComposite [ [("id", num 1)] ] [ [("ref", VStr "1")] ] ["id"] ["ref"] "refs"
  = [ [("id", num 1); ("refs", array_of [ [("ref", VStr "1")] ])] ]
  /\ attachChildren [ [("id", num 1)] ] [ [("ref", VStr "1")] ] "id" "ref" "refs"
     = [ [("id", num 1); ("refs", array_of [])] ].
Proof. split; reflexivity. Qed.

Example array_index_samples :
  array_index "0" = Some 0%N
  /\ array_index "42" = Some 42%N
  /\ array_index "4294967294" = Some 4294967294%N
  /\ array_index "4294967295" = None
  /\ array_index "01" = None
  /\ array_index "-1" = None
  /\ array_index "1.5" = None
  /\ array_index EmptyString = None.
Proof. repeat split; reflexivity. Qed.

Example ToString_samples :
  ToString (VNum (-15)) = "-15"
  /\ ToString (VNum 0) = "0"
  /\ ToString (VBool true) = "true"
  /\ ToString (VArr [VNum 1; VNull; VStr "a"]) = "1,,a"
  /\ ToString (VObj [("id", VNum 1)]) = "[object Object]"
  /\ createCompositeKey [VStr "SKU-A"; VStr "origin1"] = "SKU-A||~~||origin1".
Proof. repeat split; reflexivity. Qed.

(** Own-key order of a plain object: array indices first, ascending. *)
Example numeric_keys_are_reordered :
  groupBy [ [("k", num 2)]; [("k", VStr "b")]; [("k", num 1)] ]
          (fun item => get item "k")
  = Ok [ ("1", [ [("k", num 1)] ]);
         ("2", [ [("k", num 2)] ]);
         ("b", [ [("k", VStr "b")] ]) ].
Proof. reflexivity. Qed.

(** groupBy fails on a key that names a member of Object.prototype. *)
Example groupBy_throws_on_inherited_key :
  groupBy [ [("role", VStr "toString")] ] (fun item => get item "role") = Throw.
Proof. reflexivity. Qed.

(** The index of the lookup counterexample is one the library builds. *)
Example tagged_index_is_built :
  createNestedGroups [tagged_child] ["region"] = Ok tagged_index
  /\ has_depth 1 tagged_index = true.
Proof. split; reflexivity. Qed.

(** On the store, the attached array is the group array of the index, the
    enriched users are new records and the input cells are as they were. *)
Example store_attachChildren :
  Store.attachChildren shop 5 6 "id" "userId" "orders"
  = (shop ++
     [ Store.CArray [Store.HRef 2; Store.HRef 3];
       Store.CArray [Store.HRef 4];
       Store.CRecord [("id", Store.HNum 1); ("orders", Store.HRef 7)];
       Store.CRecord [("id", Store.HNum 2); ("orders", Store.HRef 8)];
       Store.CArray [Store.HRef 9; Store.HRef 10] ],
     11).
Proof. reflexivity. Qed.

(* ================================================================== *)
(** * Further properties of the grouping functions *)
(* ================================================================== *)

Lemma group_loop_throws_iff key_of items :
  group_loop key_of items = Throw
  <-> exists item, In item items /\ inherited (key_of item) = true.
Proof.
  split; [|apply group_loop_throws].
  intro H.
  destruct (existsb (fun item => inherited (key_of item)) items) eqn:E.
  - apply existsb_exists in E. exact E.
  - exfalso.
    destruct (group_loop_returns key_of items) as [r Hr]; [|congruence].
    intros item Hin.
    destruct (inherited (key_of item)) eqn:I; [|reflexivity].
    assert (existsb (fun item => inherited (key_of item)) items = true)
      by (apply existsb_exists; eauto).
    congruence.
Qed.


(** ** Groups partition the input *)

Lemma filter_disjoint_app (A : Type) (p q : A -> bool) l :
  (forall x, In x l -> p x = true -> q x = false) ->
  Permutation (filter p l ++ filter q l) (filter (fun x => p x || q x) l).
Proof.
  induction l as [|a l IH]; intro Hd; simpl; [constructor|].
  assert (IH' : Permutation (filter p l ++ filter q l)
                  (filter (fun x => p x || q x) l))
    by (apply IH; intros; apply Hd; simpl; auto).
  destruct (p a) eqn:P; simpl.
  - rewrite (Hd a) by (simpl; auto). constructor. exact IH'.
  - destruct (q a); simpl; [|exact IH'].
    apply Permutation_sym, Permutation_cons_app, Permutation_sym. exact IH'.
Qed.

Lemma groups_by_key_permutation (key_of : record -> string) items ks :
  NoDup ks ->
  Permutation
    (List.concat (map (fun k => filter (fun item => key_of item =? k) items) ks))
    (filter (fun item => mem_string (key_of item) ks) items).
Proof.
  induction ks as [|k ks IH]; intro Hnd; simpl.
  - rewrite filter_false. constructor.
  - inversion Hnd as [|? ? Hk Hnd']; subst.
    eapply Permutation_trans.
    { apply Permutation_app_head. apply IH. assumption. }
    eapply Permutation_trans.
    { apply filter_disjoint_app. intros x _ E.
      apply String.eqb_eq in E. subst k.
      destruct (mem_string (key_of x) ks) eqn:M; [|reflexivity].
      apply mem_string_In in M. contradiction. }
    apply Permutation_refl.
Qed.

Lemma group_loop_entries key_of items result :
  group_loop key_of items = Ok result ->
  map snd result
  = map (fun k => filter (fun item => key_of item =? k) items) (keys result).
Proof.
  intro H. pose proof (group_loop_NoDup _ _ _ H) as Hnd.
  pose proof (group_loop_own _ _ _ H) as Hown.
  unfold keys. rewrite map_map. apply map_ext_in. intros [k g] Hin. simpl.
  pose proof (own_of_In _ result k g Hnd Hin) as Hk.
  rewrite Hown in Hk.
  destruct (filter (fun item => key_of item =? k) items); [discriminate|].
  inversion Hk. reflexivity.
Qed.

Lemma group_loop_partition key_of items result :
  group_loop key_of items = Ok result ->
  Permutation (List.concat (map snd result)) items
  /\ Forall (fun group => group <> []) (map snd result)
  /\ NoDup (keys result)
  /\ (forall k group, In (k, group) result ->
        Forall (fun item => key_of item = k) group).
Proof.
  intro H. pose proof (group_loop_NoDup _ _ _ H) as Hnd.
  pose proof (group_loop_own _ _ _ H) as Hown.
  assert (Hent : forall k g, In (k, g) result ->
            g = filter (fun item => key_of item =? k) items /\ g <> []).
  { intros k g Hin. pose proof (own_of_In _ result k g Hnd Hin) as Hk.
    rewrite Hown in Hk.
    destruct (filter (fun item => key_of item =? k) items); [discriminate|].
    inversion Hk. split; [reflexivity|discriminate]. }
  split; [|split; [|split]].
  - rewrite (group_loop_entries _ _ _ H).
    eapply Permutation_trans; [apply groups_by_key_permutation; assumption|].
    rewrite filter_all; [apply Permutation_refl|].
    apply forallb_forall. intros item Hin. apply mem_string_In.
    apply own_in_keys. rewrite Hown.
    destruct (filter (fun i => key_of i =? key_of item) items) eqn:F;
      [|discriminate].
    exfalso.
    assert (Hi : In item (filter (fun i => key_of i =? key_of item) items)).
    { apply filter_In. split; [assumption|apply String.eqb_refl]. }
    rewrite F in Hi. destruct Hi.
  - apply Forall_forall. intros g Hg. apply in_map_iff in Hg.
    destruct Hg as [[k g'] [<- Hin]]. simpl. apply (Hent k g' Hin).
  - exact Hnd.
  - intros k g Hin. destruct (Hent k g Hin) as [-> _].
    apply Forall_forall. intros item Hi. apply filter_In in Hi.
    apply String.eqb_eq. apply Hi.
Qed.

(** X2: the groups groupBy returns partition the input: listed one group
    after the other they are a rearrangement of the items (none lost, none
    repeated), no group is empty, no key occurs twice, and every record of a
    group carries the group's key. *)
Theorem groupBy_partitions_items items keySelector result :
  groupBy items keySelector = Ok result ->
  Permutation (List.concat (map snd result)) items
  /\ Forall (fun group => group <> []) (map snd result)
  /\ NoDup (keys result)
  /\ (forall k group, In (k, group) result ->
        Forall (fun item => ToPropertyKey (keySelector item) = k) group).
Proof.
  rewrite groupBy_loop. apply group_loop_partition.
Qed.

Lemma groupBy_partitions_items_witness :
  exists result,
    groupBy by_role (fun item => get item "role") = Ok result
    /\ Permutation (List.concat (map snd result)) by_role.
Proof.
  eexists. split; [reflexivity|].
  apply (groupBy_partitions_items by_role (fun item => get item "role")).
  reflexivity.
Defined.

(** ** Rebuilding a mapping from its entries *)

Lemma StronglySorted_snoc (A : Type) (R : A -> A -> Prop) l k :
  StronglySorted R (l ++ [k]) ->
  StronglySorted R l /\ Forall (fun x => R x k) l.
Proof.
  induction l as [|a l IH]; simpl; intro H.
  - split; constructor.
  - inversion H as [|? ? Hs Hall]; subst.
    destruct (IH Hs) as [Hl Hk].
    apply Forall_app in Hall. destruct Hall as [Hal Hak].
    split; constructor; auto.
    inversion Hak; assumption.
Qed.

Lemma list_rev_cases (A : Type) (l : list A) :
  l = [] \/ exists l' x, l = l' ++ [x].
Proof.
  induction l as [|x l _] using rev_ind; [left|right]; eauto.
Qed.

Lemma ordered_split_snoc l k I S :
  ordered_split (l ++ [k]) I S ->
  (exists I' S', ordered_split l I' S')
  /\ (is_index k = true -> Forall (fun x => index_lt x k) l).
Proof.
  intros (E & HI & Hs & HS).
  destruct (list_rev_cases _ S) as [-> | (S' & k' & ->)].
  - rewrite app_nil_r in E. subst I.
    apply StronglySorted_snoc in Hs. destruct Hs as [Hl Hk].
    apply Forall_app in HI. destruct HI as [HI _].
    split; [|auto].
    exists l, []. repeat split; auto. symmetry. apply app_nil_r.
  - rewrite app_assoc in E. apply app_inj_tail in E. destruct E as [-> ->].
    apply Forall_app in HS. destruct HS as [HS' Hk'].
    split.
    + exists I, S'. repeat split; auto.
    + inversion Hk'; subst. congruence.
Qed.

Section Rebuild.
Variable B : Type.

Lemma insert_index_last (o : obj B) n k v :
  array_index k = Some n ->
  Forall (fun x => index_lt x k) (keys o) ->
  insert_index n k v o = o ++ [(k, v)].
Proof.
  intros Hk. induction o as [|[k' v'] o IH]; simpl; intro H; [reflexivity|].
  inversion H as [|? ? Hlt Hrest]; subst. unfold index_lt in Hlt. rewrite Hk in Hlt.
  destruct (array_index k') as [n'|]; [|contradiction].
  apply N.ltb_lt in Hlt. rewrite Hlt. f_equal. apply IH. assumption.
Qed.

Lemma obj_set_last (o : obj B) I S k v :
  ordered_split (keys o ++ [k]) I S ->
  ~ In k (keys o) ->
  obj_set o k v = o ++ [(k, v)].
Proof.
  intros Hsplit Hnew.
  assert (Hown : own o k = None).
  { destruct (own o k) eqn:O; [|reflexivity].
    exfalso. apply Hnew. apply own_in_keys. congruence. }
  unfold obj_set, has_own. rewrite Hown. unfold add_own.
  destruct (array_index k) as [n|] eqn:A; [|reflexivity].
  apply insert_index_last; [assumption|].
  apply (ordered_split_snoc _ _ _ _ Hsplit).
  unfold is_index. rewrite A. reflexivity.
Qed.

End Rebuild.

(** Writing the entries of a mapping, in their own order, into an empty
    object gives the entries back in that order. *)
Lemma rebuild_entries (A B : Type) (g : A -> B) (o : obj A) :
  (exists I S, ordered_split (keys o) I S) ->
  NoDup (keys o) ->
  fold_left (fun result entry => obj_set result (fst entry) (g (snd entry))) o []
  = map (fun entry => (fst entry, g (snd entry))) o.
Proof.
  induction o as [|e o IH] using rev_ind; intros [I [S Hs]] Hnd; [reflexivity|].
  unfold keys in *. rewrite map_app in Hs, Hnd. simpl in Hs, Hnd.
  rewrite fold_left_app, map_app. simpl.
  assert (Hnd' : NoDup (map fst o) /\ ~ In (fst e) (map fst o)).
  { apply NoDup_remove in Hnd. rewrite app_nil_r in Hnd. exact Hnd. }
  destruct Hnd' as [Hnd' Hnew].
  rewrite IH; [|apply (ordered_split_snoc _ _ _ _ Hs)|assumption].
  apply obj_set_last with (I := I) (S := S).
  - unfold keys. rewrite map_map. simpl. exact Hs.
  - unfold keys. rewrite map_map. simpl. exact Hnew.
Qed.

(** X3: groupByTransform returns one entry per group of groupBy, under the
    same key and in the same key order, holding the transform of the group;
    it raises exactly when groupBy does. *)
Theorem groupByTransform_maps_groups (R : Type) items keySelector
    (valueTransform : list record -> R) :
  groupByTransform items keySelector valueTransform
  = (grouped <- groupBy items keySelector ;;
     Ok (map (fun entry => (fst entry, valueTransform (snd entry))) grouped)).
Proof.
  unfold groupByTransform.
  destruct (groupBy items keySelector) as [grouped|] eqn:G; [|reflexivity].
  simpl. f_equal. rewrite groupBy_loop in G.
  apply rebuild_entries.
  - destruct (group_loop_keys _ _ _ G) as [I [Hs _]]. eauto.
  - apply (group_loop_NoDup _ _ _ G).
Qed.

(** X4: two items end up in the same group of groupBy exactly when their keys
    convert to the same property key: groups are formed by the string
    rendering of the key, so the number 1 and the string "1" share a group. *)
Theorem groupBy_groups_by_rendering items keySelector result a b :
  groupBy items keySelector = Ok result ->
  In a items -> In b items ->
  ((exists k group, In (k, group) result /\ In a group /\ In b group)
   <-> ToPropertyKey (keySelector a) = ToPropertyKey (keySelector b)).
Proof.
  rewrite groupBy_loop. intros H Ha Hb.
  pose proof (group_loop_own _ _ _ H) as Hown.
  destruct (group_loop_partition _ _ _ H) as (_ & _ & _ & Hkey).
  split.
  - intros (k & g & Hin & Hag & Hbg).
    specialize (Hkey k g Hin). rewrite Forall_forall in Hkey.
    rewrite (Hkey a Hag), (Hkey b Hbg). reflexivity.
  - intro E. set (k := ToPropertyKey (keySelector a)).
    specialize (Hown k).
    assert (Hfa : In a (filter (fun item => ToPropertyKey (keySelector item) =? k) items)).
    { apply filter_In. split; [assumption|apply String.eqb_refl]. }
    assert (Hfb : In b (filter (fun item => ToPropertyKey (keySelector item) =? k) items)).
    { apply filter_In. split; [assumption|]. rewrite <- E. apply String.eqb_refl. }
    destruct (filter (fun item => ToPropertyKey (keySelector item) =? k) items)
      as [|x g] eqn:F; [destruct Hfa|].
    exists k, (x :: g). split; [|split]; auto.
    apply own_In. exact Hown.
Qed.

Lemma groupBy_groups_by_rendering_witness :
  exists result,
    groupBy [ [("k", VNum 1)]; [("k", VStr "1")] ] (fun item => get item "k")
    = Ok result
    /\ exists k group,
         In (k, group) result
         /\ In [("k", VNum 1)] group /\ In [("k", VStr "1")] group.
Proof.
  eexists. split; [reflexivity|].
  apply (groupBy_groups_by_rendering
           [ [("k", VNum 1)]; [("k", VStr "1")] ] (fun item => get item "k")).
  - reflexivity.
  - simpl. auto.
  - simpl. auto.
  - reflexivity.
Defined.

(** ** groupByComposite *)




Lemma groupByComposite_loop items keys :
  groupByComposite items keys
  = group_loop (fun item => getCompositeKey item keys) items.
Proof. reflexivity. Qed.




Lemma group_loop_ext_in (f g : record -> string) items :
  (forall item, In item items -> f item = g item) ->
  group_loop f items = group_loop g items.
Proof.
  unfold group_loop. generalize (Ok (@nil (string * list record))).
  induction items as [|x items IH]; intros acc H; simpl; [reflexivity|].
  rewrite (H x) by (simpl; auto). apply IH. intros; apply H; simpl; auto.
Qed.

(** X6: over a single key field whose value no item leaves null or undefined,
    groupByComposite is groupByKey; an item that does leave it null or
    undefined is filed under the empty key by groupByComposite and under
    "null" or "undefined" by groupByKey. *)
Theorem groupByComposite_single_key items key :
  (Forall (fun item => nullish (get item key) = false) items ->
   groupByComposite items [key] = groupByKey items key)
  /\ (forall item,
        nullish (get item key) = true ->
        getCompositeKey item [key] = EmptyString
        /\ (ToPropertyKey (get item key) = "null"
            \/ ToPropertyKey (get item key) = "undefined")).
Proof.
  split.
  - intro H. rewrite groupByComposite_loop, groupByKey_loop.
    apply group_loop_ext_in. intros item Hin.
    rewrite Forall_forall in H. specialize (H item Hin).
    unfold getCompositeKey, createCompositeKey, coalesce. simpl.
    rewrite H. reflexivity.
  - intros item H. unfold getCompositeKey, createCompositeKey, coalesce. simpl.
    rewrite H. split; [reflexivity|].
    destruct (get item key); try discriminate; auto.
Qed.

Lemma groupByComposite_single_key_witness :
  groupByComposite by_role ["role"] = groupByKey by_role "role"
  /\ getCompositeKey [("a", VNull)] ["a"] = EmptyString.
Proof.
  split.
  - apply (groupByComposite_single_key by_role "role").
    repeat constructor.
  - apply (groupByComposite_single_key null_keyed "a" ). reflexivity.
Defined.

(** ** When the nested builders raise *)

Lemma sub_fold_Throw_inv build entries :
  sub_fold build entries = Throw ->
  exists e, In e entries /\ build (snd e) = Throw.
Proof.
  induction entries as [|e entries IH] using rev_ind; intro H; [discriminate|].
  rewrite sub_fold_snoc in H.
  destruct (sub_fold build entries) as [r|] eqn:S.
  - simpl in H. destruct (build (snd e)) eqn:B; [discriminate|].
    exists e. split; [apply in_or_app; simpl; auto|assumption].
  - destruct (IH eq_refl) as [e' [Hin Hb]].
    exists e'. split; [apply in_or_app; auto|assumption].
Qed.

Lemma sub_fold_Throw build entries e :
  In e entries -> build (snd e) = Throw -> sub_fold build entries = Throw.
Proof.
  induction entries as [|x entries IH] using rev_ind; intros Hin Hb; [destruct Hin|].
  rewrite sub_fold_snoc.
  destruct (sub_fold build entries) as [r|] eqn:S; [|reflexivity].
  apply in_app_or in Hin. destruct Hin as [Hin|[->|[]]].
  - specialize (IH Hin Hb). discriminate.
  - simpl. rewrite Hb. reflexivity.
Qed.

Lemma createNestedGroups_throws_iff keys : forall items,
  createNestedGroups items keys = Throw
  <-> exists item key,
        In item items /\ In key keys
        /\ inherited (ToPropertyKey (get item key)) = true.
Proof.
  induction keys as [|k rest IH]; intro items.
  - simpl. split; [discriminate|]. intros (_ & key & _ & [] & _).
  - rewrite createNestedGroups_cons.
    set (key_of := fun item : record => ToPropertyKey (get item k)).
    destruct (group_loop key_of items) as [groups|] eqn:G.
    + assert (Hk : forall item, In item items -> inherited (key_of item) = false).
      { intros item Hin. destruct (inherited (key_of item)) eqn:I; [|reflexivity].
        assert (group_loop key_of items = Throw)
          by (apply group_loop_throws; eauto).
        congruence. }
      pose proof (group_loop_own _ _ _ G) as Hown.
      pose proof (group_loop_NoDup _ _ _ G) as Hnd.
      simpl. split.
      * intro H. destruct rest as [|k2 rest]; [discriminate|].
        destruct (sub_fold _ groups) as [r|] eqn:S; [discriminate|].
        apply sub_fold_Throw_inv in S. destruct S as [[gk g] [Hin Hb]].
        simpl in Hb. apply IH in Hb.
        destruct Hb as (item & key & Hi & Hkey & Hinh).
        exists item, key. split; [|split; [right; assumption|assumption]].
        pose proof (own_of_In _ groups gk g Hnd Hin) as Hg.
        rewrite Hown in Hg.
        destruct (filter (fun item => key_of item =? gk) items) eqn:F;
          [discriminate|].
        inversion Hg; subst g. rewrite <- F in Hi.
        apply filter_In in Hi. apply Hi.
      * intros (item & key & Hi & [<-|Hkey] & Hinh).
        { pose proof (Hk item Hi) as Hk'. unfold key_of in Hk'. congruence. }
        destruct rest as [|k2 rest]; [destruct Hkey|].
        assert (Hg : exists g, In (key_of item, g) groups /\ In item g).
        { specialize (Hown (key_of item)).
          assert (Hf : In item (filter (fun i => key_of i =? key_of item) items)).
          { apply filter_In. split; [assumption|apply String.eqb_refl]. }
          destruct (filter (fun i => key_of i =? key_of item) items) as [|x g];
            [destruct Hf|].
          exists (x :: g). split; [apply own_In; assumption|assumption]. }
        destruct Hg as (g & Hin & Hig).
        rewrite (sub_fold_Throw _ groups (key_of item, g)); [reflexivity|assumption|].
        simpl. apply IH. exists item, key. auto.
    + simpl. split; [|reflexivity]. intros _.
      apply group_loop_throws_iff in G. destruct G as (item & Hin & Hinh).
      exists item, k. simpl. auto.
Qed.



(* ================================================================== *)
(** * Further properties of the serialized keys *)
(* ================================================================== *)

(** X9: on tuples of the same length whose components are neither null nor
    undefined and render without the character "|", createCompositeKey is
    injective up to rendering: equal keys come from componentwise equal
    renderings. *)
Theorem createCompositeKey_injective_on_plain xs ys :
  List.length xs = List.length ys ->
  forallb plain_key xs = true ->
  forallb plain_key ys = true ->
  createCompositeKey xs = createCompositeKey ys ->
  map ToString xs = map ToString ys.
Proof.
  intros Hlen Hx Hy E.
  destruct (createCompositeKey_plain xs Hx) as [Ex Bx].
  destruct (createCompositeKey_plain ys Hy) as [Ey By].
  unfold createCompositeKey in E. rewrite Ex, Ey in E.
  apply join_separator_inj; auto.
  rewrite !length_map. assumption.
Qed.

Lemma createCompositeKey_injective_on_plain_witness :
  createCompositeKey [VNum 1; VStr "EU"] = createCompositeKey [VStr "1"; VStr "EU"]
  /\ map ToString [VNum 1; VStr "EU"] = map ToString [VStr "1"; VStr "EU"].
Proof.
  split; [reflexivity|].
  apply (createCompositeKey_injective_on_plain
           [VNum 1; VStr "EU"] [VStr "1"; VStr "EU"]); reflexivity.
Defined.

Lemma string_app_assoc (a b c : string) : ((a ++ b) ++ c = a ++ b ++ c)%string.
Proof. induction a as [|x a IH]; simpl; [reflexivity|]. rewrite IH. reflexivity. Qed.

Lemma join_cons2 sep x y l :
  join sep (x :: y :: l) = (x ++ sep ++ join sep (y :: l))%string.
Proof. reflexivity. Qed.

Lemma join_split sep a b l :
  join sep ((a ++ sep ++ b)%string :: l) = join sep (a :: b :: l).
Proof.
  destruct l as [|r rs]; [reflexivity|].
  rewrite (join_cons2 sep (a ++ sep ++ b)%string r rs).
  rewrite (join_cons2 sep a b (r :: rs)), (join_cons2 sep b r rs).
  rewrite !string_app_assoc. reflexivity.
Qed.

(** X10: the separator is not escaped: a string component that holds the
    separator yields the same key as the two components it splits into, so
    tuples of different length and content can share a serialized key. *)
Theorem createCompositeKey_separator_not_escaped a b rest :
  createCompositeKey (VStr (a ++ separator ++ b) :: rest)
  = createCompositeKey (VStr a :: VStr b :: rest).
Proof.
  exact (join_split separator a b
           (map (fun v => ToString (coalesce v (VStr EmptyString))) rest)).
Qed.




(* ================================================================== *)
(** * Further properties of the nested index *)
(* ================================================================== *)

Lemma walk_by_rendering path1 path2 :
  Forall2 (fun a b => nullish a = nullish b /\ ToPropertyKey a = ToPropertyKey b)
    path1 path2 ->
  forall current, walk current path1 = walk current path2.
Proof.
  induction 1 as [|a b p1 p2 [Hn Hk] _ IH]; intro current; [reflexivity|].
  destruct current as [c|]; [|reflexivity].
  rewrite !walk_cons, Hn, Hk.
  destruct (_ && _); [apply IH|reflexivity].
Qed.

(** X12: getFromNestedGroups reads a path element only through its conversion
    to a property key and the test against null and undefined: two paths
    whose elements render alike, such as the number 1 and the string "1",
    find the same sequence in every tree. *)
Theorem getFromNestedGroups_by_rendering tree path1 path2 :
  Forall2 (fun a b => nullish a = nullish b /\ ToPropertyKey a = ToPropertyKey b)
    path1 path2 ->
  getFromNestedGroups tree path1 = getFromNestedGroups tree path2.
Proof.
  intro H. rewrite !getFromNestedGroups_walk. apply walk_by_rendering. exact H.
Qed.

Lemma getFromNestedGroups_by_rendering_witness :
  getFromNestedGroups (VObj [("1", VArr [VObj product])]) [VNum 1]
  = getFromNestedGroups (VObj [("1", VArr [VObj product])]) [VStr "1"].
Proof.
  apply (getFromNestedGroups_by_rendering _ [VNum 1] [VStr "1"]).
  constructor; [split; reflexivity|constructor].
Defined.

Lemma nested_match_refl vals :
  forallb not_nullish vals = true -> nested_match vals vals = true.
Proof.
  induction vals as [|v vals IH]; simpl; [reflexivity|].
  rewrite andb_true_iff. intros [Hv Hrest]. unfold not_nullish in Hv.
  rewrite Hv, String.eqb_refl, IH by assumption. reflexivity.
Qed.

(** X13: building the nested index and looking an item up at its own key
    values finds it: when no key value names a member of Object.prototype,
    every item whose key values are neither null nor undefined occurs in the
    sequence found at the path of its own key values, and every record found
    at a path is an item of the input. *)
Theorem nested_index_round_trip items keys item :
  Forall (fun item => no_inherited_key keys item = true) items ->
  In item items ->
  forallb not_nullish (key_values item keys) = true ->
  exists tree,
    createNestedGroups items keys = Ok tree
    /\ In (VObj item) (getFromNestedGroups tree (key_values item keys))
    /\ forall path found,
         List.length path = List.length keys ->
         In found (getFromNestedGroups tree path) ->
         exists item', found = VObj item' /\ In item' items.
Proof.
  intros Hkeys Hin Hnn.
  destruct (nested_lookup keys items (key_values item keys)
              (key_values_length item keys) Hkeys) as [tree [Hbuild Hget]].
  exists tree. split; [assumption|]. split.
  - rewrite Hget. apply in_map. apply filter_In. split; [assumption|].
    apply nested_match_refl. assumption.
  - intros path found Hlen Hfound.
    destruct (nested_lookup keys items path Hlen Hkeys) as [tree' [Hbuild' Hget']].
    assert (tree' = tree) by congruence. subst tree'.
    rewrite Hget' in Hfound. apply in_map_iff in Hfound.
    destruct Hfound as [item' [<- Hi]]. apply filter_In in Hi.
    exists item'. split; [reflexivity|apply Hi].
Qed.

Lemma nested_index_round_trip_witness :
  exists tree,
    createNestedGroups stock ["sku"; "origin"] = Ok tree
    /\ In (VObj [("sku", VStr "A"); ("origin", VStr "EU"); ("qty", num 9)])
          (getFromNestedGroups tree [VStr "A"; VStr "EU"]).
Proof.
  destruct (nested_index_round_trip stock ["sku"; "origin"]
              [("sku", VStr "A"); ("origin", VStr "EU"); ("qty", num 9)])
    as [tree [H [Hin _]]].
  - repeat constructor.
  - simpl. auto.
  - reflexivity.
  - exists tree. split; [exact H|exact Hin].
Defined.

(** ** The index of no items *)









(* ================================================================== *)
(** * Further properties of the joins *)
(* ================================================================== *)

Section OverwriteFacts.
Variable A : Type.
Implicit Types (o : obj A).

Lemma replace_own_twice o k v v' :
  replace_own k v' (replace_own k v o) = replace_own k v' o.
Proof.
  induction o as [|[k' x] o IH]; simpl; [reflexivity|].
  destruct (k' =? k) eqn:E; simpl; rewrite E; [reflexivity|].
  rewrite IH. reflexivity.
Qed.

Lemma replace_own_insert_index o n k v v' :
  own o k = None ->
  replace_own k v' (insert_index n k v o) = insert_index n k v' o.
Proof.
  induction o as [|[k' x] o IH]; simpl; intro H.
  - rewrite String.eqb_refl. reflexivity.
  - destruct (k' =? k) eqn:E; [discriminate|].
    destruct (array_index k') as [n'|]; [destruct (n' <? n)%N|]; simpl.
    + rewrite E, IH by assumption. reflexivity.
    + rewrite String.eqb_refl. reflexivity.
    + rewrite String.eqb_refl. reflexivity.
Qed.

Lemma replace_own_last o k v v' :
  own o k = None ->
  replace_own k v' (o ++ [(k, v)]) = o ++ [(k, v')].
Proof.
  induction o as [|[k' x] o IH]; simpl; intro H.
  - rewrite String.eqb_refl. reflexivity.
  - destruct (k' =? k) eqn:E; [discriminate|].
    rewrite IH by assumption. reflexivity.
Qed.

(** Writing a property twice leaves the second value at the place the first
    write gave it. *)
Lemma obj_set_twice o k v v' :
  obj_set (obj_set o k v) k v' = obj_set o k v'.
Proof.
  unfold obj_set at 1.
  assert (Hhas : has_own (obj_set o k v) k = true).
  { unfold has_own. rewrite own_obj_set, String.eqb_refl. reflexivity. }
  rewrite Hhas. unfold obj_set, has_own.
  destruct (own o k) eqn:O.
  - apply replace_own_twice.
  - unfold add_own. destruct (array_index k).
    + apply replace_own_insert_index. assumption.
    + apply replace_own_last. assumption.
Qed.

End OverwriteFacts.

Lemma get_with_property_other item as_ v k :
  k <> as_ -> get (with_property item as_ v) k = get item k.
Proof.
  intro H. unfold get. rewrite own_with_property_other by assumption. reflexivity.
Qed.

Lemma key_values_with_property item as_ v keys :
  ~ In as_ keys ->
  key_values (with_property item as_ v) keys = key_values item keys.
Proof.
  intro H. unfold key_values. apply map_ext_in. intros k Hk.
  apply get_with_property_other. intros ->. contradiction.
Qed.

Lemma enrich_twice (F : record -> value) parents as_ :
  (forall parent v, F (with_property parent as_ v) = F parent) ->
  map (fun parent => with_property parent as_ (F parent))
      (map (fun parent => with_property parent as_ (F parent)) parents)
  = map (fun parent => with_property parent as_ (F parent)) parents.
Proof.
  intro H. rewrite map_map. apply map_ext. intro parent.
  rewrite H. apply obj_set_twice.
Qed.

(** X16: the single-key and serialized-key joins are idempotent: joining the
    output of a join once more against the same children, on the same keys
    and into the same output field, returns that output unchanged, provided
    the output field is not one of the parent key fields. *)
Theorem joins_are_idempotent parents children as_ :
  (forall parentKey childKey,
     as_ <> parentKey ->
     attachChildren (attachChildren parents children parentKey childKey as_)
       children parentKey childKey as_
     = attachChildren parents children parentKey childKey as_
     /\ attachChild (attachChild parents children parentKey childKey as_)
          children parentKey childKey as_
        = attachChild parents children parentKey childKey as_)
  /\ (forall parentKeys childKeys,
        ~ In as_ parentKeys ->
        attachChildrenComposite
          (attachChildrenComposite parents children parentKeys childKeys as_)
          children parentKeys childKeys as_
        = attachChildrenComposite parents children parentKeys childKeys as_
        /\ attachChildComposite
             (attachChildComposite parents children parentKeys childKeys as_)
             children parentKeys childKeys as_
           = attachChildComposite parents children parentKeys childKeys as_).
Proof.
  split.
  - intros parentKey childKey Hne.
    assert (Hm : forall parent v child,
              flat_match parentKey childKey (with_property parent as_ v) child
              = flat_match parentKey childKey parent child).
    { intros. unfold flat_match. rewrite get_with_property_other by congruence.
      reflexivity. }
    split.
    + rewrite !attachChildren_filter.
      apply (enrich_twice
               (fun parent =>
                  array_of (filter (flat_match parentKey childKey parent) children))).
      intros parent v. f_equal. apply filter_ext. intro c. apply Hm.
    + rewrite !attachChild_find.
      apply (enrich_twice
               (fun parent =>
                  or_null (find (flat_match parentKey childKey parent) children))).
      intros parent v. f_equal. apply find_ext_in. intros c _. apply Hm.
  - intros parentKeys childKeys Hni.
    assert (Hm : forall parent v child,
              composite_match parentKeys childKeys (with_property parent as_ v) child
              = composite_match parentKeys childKeys parent child).
    { intros. unfold composite_match, getCompositeKey.
      fold (key_values (with_property parent as_ v) parentKeys).
      rewrite key_values_with_property by assumption. reflexivity. }
    split.
    + rewrite !attachChildrenComposite_filter.
      apply (enrich_twice
               (fun parent =>
                  array_of (filter (composite_match parentKeys childKeys parent)
                                   children))).
      intros parent v. f_equal. apply filter_ext. intro c. apply Hm.
    + rewrite !attachChildComposite_find.
      apply (enrich_twice
               (fun parent =>
                  or_null (find (composite_match parentKeys childKeys parent)
                                children))).
      intros parent v. f_equal. apply find_ext_in. intros c _. apply Hm.
Qed.

(** X17: the three-level join is the two-level join run once per parent: for
    every parent the attached catalog is what attachChildren returns for the
    middle records against those children whose childParentKey is the
    parent's key (child cardinality "many"; the middle cardinality decides
    whether the whole catalog or its first record is attached). *)
Theorem three_level_join_is_attachChildren_per_parent parents middle children
    parentKey childParentKey middleKey childKey middleAs childAs
    middleCardinality childCardinality :
  default_many childCardinality = many ->
  attachChildrenWithFilter parents middle children parentKey childParentKey
    middleKey childKey middleAs childAs middleCardinality childCardinality
  = map (fun parent =>
           let own_children :=
             filter (fun child =>
                       StrictEquals (get child childParentKey) (get parent parentKey))
                    children in
           with_property parent middleAs
             (resolve_cardinality (default_many middleCardinality)
                (attachChildren middle own_children middleKey childKey childAs)))
        parents.
Proof.
  intro Hmany. unfold attachChildrenWithFilter. rewrite Hmany.
  apply map_ext. intro parent. cbv zeta. do 2 f_equal.
  rewrite attachChildren_filter. unfold middleWithChildren.
  apply map_ext. intro mid. cbv zeta. simpl resolve_cardinality. do 2 f_equal.
  rewrite index_many_SameValueZero, !filter_filter.
  apply filter_ext. intro child. unfold flat_match. apply andb_comm.
Qed.

Lemma three_level_join_is_attachChildren_per_parent_witness :
  attachChildrenWithFilter users [ [("fee", num 7)] ]
    [ [("userId", num 1); ("fee", num 7)]; [("userId", num 2); ("fee", num 7)] ]
    "id" "userId" "fee" "fee" "fees" "payments" None None
  = map (fun parent =>
           with_property parent "fees"
             (array_of
                (attachChildren [ [("fee", num 7)] ]
                   (filter (fun child =>
                              StrictEquals (get child "userId") (get parent "id"))
                           [ [("userId", num 1); ("fee", num 7)];
                             [("userId", num 2); ("fee", num 7)] ])
                   "fee" "fee" "payments")))
        users.
Proof.
  apply (three_level_join_is_attachChildren_per_parent users [ [("fee", num 7)] ]
           [ [("userId", num 1); ("fee", num 7)]; [("userId", num 2); ("fee", num 7)] ]
           "id" "userId" "fee" "fee" "fees" "payments" None None).
  reflexivity.
Defined.

(** X18: the three-level join without cardinality parameters returns what
    the one with cardinalities returns when both cardinalities are left out
    or set to "many". *)
Theorem three_level_join_variants_agree parents middle children
    parentKey childParentKey middleKey childKey middleAs childAs
    middleCardinality childCardinality :
  default_many middleCardinality = many ->
  default_many childCardinality = many ->
  Basic.attachChildrenWithFilter parents middle children parentKey
    childParentKey middleKey childKey middleAs childAs
  = attachChildrenWithFilter parents middle children parentKey childParentKey
      middleKey childKey middleAs childAs middleCardinality childCardinality.
Proof.
  intros Hm Hc. unfold attachChildrenWithFilter, Basic.attachChildrenWithFilter.
  rewrite Hm, Hc. reflexivity.
Qed.

Lemma three_level_join_variants_agree_witness :
  Basic.attachChildrenWithFilter users users orders "id" "userId" "id" "userId"
    "peers" "orders"
  = attachChildrenWithFilter users users orders "id" "userId" "id" "userId"
      "peers" "orders" None (Some many).
Proof.
  apply (three_level_join_variants_agree users users orders "id" "userId" "id"
           "userId" "peers" "orders" None (Some many)); reflexivity.
Defined.

(** X19: with empty key tuples on both sides every child matches every
    parent, under both composite strategies: the to-many joins attach the
    whole child sequence to each parent, the to-one joins its first record,
    or null when there is no child. *)
Theorem empty_key_tuples_match_everything parents children as_ :
  attachChildrenComposite parents children [] [] as_
  = map (fun parent => with_property parent as_ (array_of children)) parents
  /\ attachChildrenNested parents children [] [] as_
     = Ok (map (fun parent => with_property parent as_ (array_of children)) parents)
  /\ attachChildComposite parents children [] [] as_
     = map (fun parent =>
              with_property parent as_
                (match children with first :: _ => VObj first | [] => VNull end))
           parents
  /\ attachChildNested parents children [] [] as_
     = Ok (map (fun parent =>
                  with_property parent as_
                    (match children with first :: _ => VObj first | [] => VNull end))
               parents).
Proof.
  split; [|split; [|split]].
  - rewrite attachChildrenComposite_filter. apply map_ext. intro parent.
    do 2 f_equal. apply filter_all. apply forallb_forall. reflexivity.
  - reflexivity.
  - rewrite attachChildComposite_find. apply map_ext. intro parent.
    f_equal. destruct children; reflexivity.
  - unfold attachChildNested. simpl. f_equal. apply map_ext. intro parent.
    f_equal. destruct children; reflexivity.
Qed.

(** ** Serialized keys against Map keys *)

Lemma string_of_Z_inj a b : string_of_Z a = string_of_Z b -> a = b.
Proof.
  unfold string_of_Z. intro H.
  assert (Hnn : forall n, Z.to_int n <> Decimal.Pos Decimal.Nil
                          /\ Z.to_int n <> Decimal.Neg Decimal.Nil).
  { intro n. destruct n; simpl; split; try discriminate;
      intro E; inversion E as [E']; apply (Unsigned.to_uint_nonnil _ E'). }
  apply (f_equal NilZero.int_of_string) in H.
  rewrite !NilZero.isi in H by apply Hnn.
  inversion H as [E]. apply DecimalZ.to_int_inj. exact E.
Qed.

Lemma render_same_kind a b :
  (is_string a = true /\ is_string b = true)
  \/ (is_number a = true /\ is_number b = true) ->
  (createCompositeKey [a] =? createCompositeKey [b]) = SameValueZero a b.
Proof.
  intros [[Ha Hb]|[Ha Hb]]; destruct a, b; try discriminate; simpl.
  - reflexivity.
  - destruct (Z.eqb_spec n n0) as [->|Hne]; [apply String.eqb_refl|].
    apply String.eqb_neq. intro E. apply Hne. apply string_of_Z_inj.
    exact E.
Qed.

(** X20: on one key field per side whose values are all strings, or all
    numbers, the serialized-key joins are the single-key joins:
    attachChildrenComposite returns what attachChildren returns and
    attachChildComposite what attachChild returns. *)
Theorem composite_join_on_one_key_is_flat_join parents children
    parentKey childKey as_ :
  keys_of_kind is_string parents children parentKey childKey
  \/ keys_of_kind is_number parents children parentKey childKey ->
  attachChildrenComposite parents children [parentKey] [childKey] as_
  = attachChildren parents children parentKey childKey as_
  /\ attachChildComposite parents children [parentKey] [childKey] as_
     = attachChild parents children parentKey childKey as_.
Proof.
  intro Hkind.
  assert (Hm : forall parent child,
            In parent parents -> In child children ->
            composite_match [parentKey] [childKey] parent child
            = flat_match parentKey childKey parent child).
  { intros parent child Hp Hc. unfold composite_match, flat_match, getCompositeKey.
    simpl map. apply render_same_kind.
    destruct Hkind as [[HP HC]|[HP HC]]; rewrite Forall_forall in HP, HC;
      [left|right]; split; auto. }
  rewrite attachChildrenComposite_filter, attachChildren_filter,
    attachChildComposite_find, attachChild_find.
  split; apply map_ext_in; intros parent Hp; do 2 f_equal.
  - apply filter_ext_in. intros c Hc. apply Hm; assumption.
  - apply find_ext_in. intros c Hc. apply Hm; assumption.
Qed.

Lemma composite_join_on_one_key_is_flat_join_witness :
  attachChildrenComposite users orders ["id"] ["userId"] "orders"
  = attachChildren users orders "id" "userId" "orders".
Proof.
  apply (composite_join_on_one_key_is_flat_join users orders "id" "userId" "orders").
  right. split; repeat constructor.
Defined.

(** X21: joinBySelectors with the selectors that read one field is the
    single-key join: mode "many" gives attachChildren and mode "one" gives
    attachChild. *)
Theorem joinBySelectors_generalises_single_key_joins parents children
    parentKey childKey as_ :
  joinBySelectors parents children
    (fun parent => get parent parentKey) (fun child => get child childKey) as_ many
  = attachChildren parents children parentKey childKey as_
  /\ joinBySelectors parents children
       (fun parent => get parent parentKey) (fun child => get child childKey) as_ one
     = attachChild parents children parentKey childKey as_.
Proof. split; reflexivity. Qed.

(* ================================================================== *)
(** * Further properties of the nested joins and of missing keys *)
(* ================================================================== *)

(** X22: with fewer parent key fields than child key fields the nested joins
    match nothing: the lookup stops above the leaves of the index, so the
    to-many join attaches an empty sequence and the to-one join null to every
    parent (stated for child key values that name no member of
    Object.prototype). *)
Theorem nested_join_with_fewer_parent_keys parents children parentKeys childKeys as_ :
  List.length parentKeys < List.length childKeys ->
  forallb (no_inherited_key childKeys) children = true ->
  attachChildrenNested parents children parentKeys childKeys as_
  = Ok (map (fun parent => with_property parent as_ (VArr [])) parents)
  /\ attachChildNested parents children parentKeys childKeys as_
     = Ok (map (fun parent => with_property parent as_ VNull) parents).
Proof.
  intros Hlen Hkeys.
  unfold attachChildrenNested, attachChildNested.
  destruct (createNestedGroups children childKeys) as [tree|] eqn:B.
  - pose proof (createNestedGroups_depth _ _ _ B) as Hdepth.
    assert (Hnone : forall parent,
              getFromNestedGroups tree (map (fun key => get parent key) parentKeys) = []).
    { intro parent. apply (walk_short (List.length childKeys)); auto.
      rewrite length_map. assumption. }
    simpl. split; f_equal; apply map_ext; intro parent; rewrite Hnone; reflexivity.
  - exfalso. apply createNestedGroups_throws_iff in B.
    destruct B as (item & key & Hi & Hk & Hinh).
    rewrite forallb_forall in Hkeys. specialize (Hkeys item Hi).
    unfold no_inherited_key in Hkeys. rewrite forallb_forall in Hkeys.
    specialize (Hkeys key Hk). rewrite Hinh in Hkeys. discriminate.
Qed.

Lemma nested_join_with_fewer_parent_keys_witness :
  attachChildrenNested [product] stock ["sku"] ["sku"; "origin"] "stock"
  = Ok [ [("sku", VStr "A"); ("origin", VStr "US"); ("stock", VArr [])] ].
Proof.
  apply (nested_join_with_fewer_parent_keys [product] stock ["sku"]
           ["sku"; "origin"] "stock").
  - simpl. lia.
  - reflexivity.
Defined.

(** ** Levels of the nested mapping *)

Lemma sub_fold_entries build entries : forall result,
  (exists I S, ordered_split (keys entries) I S) ->
  NoDup (keys entries) ->
  sub_fold build entries = Ok result ->
  Forall2 (fun e r => fst r = fst e /\ build (snd e) = Ok (snd r)) entries result.
Proof.
  induction entries as [|e entries IH] using rev_ind; intros result [I [S Hs]] Hnd H.
  - inversion H. constructor.
  - rewrite sub_fold_snoc in H.
    destruct (sub_fold build entries) as [r|] eqn:F; [|discriminate].
    simpl in H. destruct (build (snd e)) as [sub|] eqn:B; [|discriminate].
    simpl in H. inversion H; subst result; clear H.
    unfold keys in Hs, Hnd. rewrite map_app in Hs, Hnd. simpl in Hs, Hnd.
    assert (Hnd' : NoDup (map fst entries) /\ ~ In (fst e) (map fst entries)).
    { apply NoDup_remove in Hnd. rewrite app_nil_r in Hnd. exact Hnd. }
    destruct Hnd' as [Hnd' Hnew].
    assert (IH' : Forall2 (fun e r => fst r = fst e /\ build (snd e) = Ok (snd r))
                    entries r).
    { apply IH; auto. apply (ordered_split_snoc _ _ _ _ Hs). }
    assert (Hkeys : keys r = map fst entries).
    { clear - IH'. induction IH' as [|x y l l' [E _] _ IHl]; simpl; congruence. }
    rewrite (obj_set_last _ r I S (fst e) sub).
    + apply Forall2_app; [assumption|]. constructor; [|constructor]. auto.
    + rewrite Hkeys. exact Hs.
    + rewrite Hkeys. exact Hnew.
Qed.

(** X23: over two or more fields groupByMany returns, for every group of
    groupByKey on the first field and in the same key order, the groupByMany
    of that group on the remaining fields: no group is lost or added and the
    keys of every level keep the order groupByKey gives them. *)
Theorem groupByMany_levels items firstKey secondKey restKeys tree :
  groupByMany items (firstKey :: secondKey :: restKeys) = Ok tree ->
  exists groups subs,
    groupByKey items firstKey = Ok groups
    /\ tree = VObj subs
    /\ keys subs = keys groups
    /\ Forall2 (fun group sub =>
                  fst sub = fst group
                  /\ groupByMany (snd group) (secondKey :: restKeys) = Ok (snd sub))
         groups subs.
Proof.
  intro H. rewrite groupByMany_cons in H. rewrite groupByKey_loop.
  destruct (group_loop _ items) as [groups|] eqn:G; [|discriminate].
  simpl in H.
  destruct (sub_fold _ groups) as [subs|] eqn:F; [|discriminate].
  simpl in H. inversion H; subst tree; clear H.
  exists groups, subs. split; [reflexivity|]. split; [reflexivity|].
  assert (Hall : Forall2 (fun group sub =>
                   fst sub = fst group
                   /\ groupByMany (snd group) (secondKey :: restKeys) = Ok (snd sub))
                   groups subs).
  { apply (sub_fold_entries _ _ _) in F; auto.
    - destruct (group_loop_keys _ _ _ G) as [I [Hs _]]. eauto.
    - apply (group_loop_NoDup _ _ _ G). }
  split; [|exact Hall].
  clear - Hall. induction Hall as [|x y l l' [E _] _ IHl]; simpl; congruence.
Qed.

Lemma groupByMany_levels_witness :
  exists groups subs,
    groupByKey stock "sku" = Ok groups
    /\ groupByMany stock ["sku"; "origin"] = Ok (VObj subs)
    /\ keys subs = keys groups.
Proof.
  destruct (groupByMany_levels stock "sku" "origin" [] _ eq_refl)
    as (groups & subs & Hg & Ht & Hk & _).
  exists groups, subs. split; [exact Hg|]. split; [|exact Hk].
  rewrite <- Ht. reflexivity.
Defined.



Lemma nested_match_same_kind pv cv :
  (is_string cv = true /\ is_string pv = true)
  \/ (is_number cv = true /\ is_number pv = true) ->
  nested_match [pv] [cv] = SameValueZero cv pv.
Proof.
  intros [[Hc Hp]|[Hc Hp]]; destruct cv, pv; try discriminate; simpl.
  - rewrite andb_true_r. reflexivity.
  - rewrite andb_true_r.
    destruct (Z.eqb_spec n n0) as [->|Hne]; [apply String.eqb_refl|].
    apply String.eqb_neq. intro E. apply Hne. apply string_of_Z_inj. exact E.
Qed.

(** X25: on one key field per side whose values are all strings, or all
    numbers, and none of which names a member of Object.prototype on the
    child side, the nested joins are the single-key joins:
    attachChildrenNested returns what attachChildren returns and
    attachChildNested what attachChild returns. *)
Theorem nested_join_on_one_key_is_flat_join parents children
    parentKey childKey as_ :
  keys_of_kind is_string parents children parentKey childKey
  \/ keys_of_kind is_number parents children parentKey childKey ->
  forallb (no_inherited_key [childKey]) children = true ->
  attachChildrenNested parents children [parentKey] [childKey] as_
  = Ok (attachChildren parents children parentKey childKey as_)
  /\ attachChildNested parents children [parentKey] [childKey] as_
     = Ok (attachChild parents children parentKey childKey as_).
Proof.
  intros Hkind Hkeys.
  destruct (attachChildrenNested_filter parents children [parentKey] [childKey]
              as_ eq_refl Hkeys) as [Hmany Hone].
  assert (Hm : forall parent child,
            In parent parents -> In child children ->
            nested_match (key_values parent [parentKey]) (key_values child [childKey])
            = flat_match parentKey childKey parent child).
  { intros parent child Hp Hc. unfold flat_match, key_values. simpl map.
    apply nested_match_same_kind.
    destruct Hkind as [[HP HC]|[HP HC]]; rewrite Forall_forall in HP, HC;
      [left|right]; split; auto. }
  rewrite Hmany, Hone, attachChildren_filter, attachChild_find.
  split; f_equal; apply map_ext_in; intros parent Hp; do 2 f_equal.
  - apply filter_ext_in. intros c Hc. apply Hm; assumption.
  - apply find_ext_in. intros c Hc. apply Hm; assumption.
Qed.

Lemma nested_join_on_one_key_is_flat_join_witness :
  attachChildrenNested users orders ["id"] ["userId"] "orders"
  = Ok (attachChildren users orders "id" "userId" "orders").
Proof.
  apply (nested_join_on_one_key_is_flat_join users orders "id" "userId" "orders").
  - right. split; repeat constructor.
  - reflexivity.
Defined.

(* ================================================================== *)
(** * Further properties of the joins over a store *)
(* ================================================================== *)

Module StoreSharing.
Import Store StoreFacts.

Lemma record_ref_allocated h v : record_ref h v -> allocated h v.
Proof.
  intros (a & fields & -> & Hcell). simpl. apply nth_error_Some. congruence.
Qed.

Lemma hget_alloc_record h fields as_ v :
  hget (fst (alloc h (CRecord (obj_set fields as_ v)))) (HRef (List.length h)) as_ = v.
Proof.
  unfold hget, fields_of, alloc. cbn [fst].
  rewrite nth_error_app2 by lia. rewrite Nat.sub_diag. simpl.
  rewrite own_obj_set, String.eqb_refl. reflexivity.
Qed.

Lemma attached_group_mono h0 h h' m bound parentKey as_ parent out :
  preserves (List.length h) h h' ->
  attached_group h0 h m bound parentKey as_ parent out ->
  attached_group h0 h' m bound parentKey as_ parent out.
Proof.
  intros Hp (o & arr & -> & Ho & Hget & [elems Harr] & Hm).
  exists o, arr. split; [reflexivity|]. split; [destruct Hp; lia|].
  split; [|split; [|assumption]].
  - rewrite (preserves_hget (List.length h) h h'); auto.
  - exists elems. destruct Hp as [_ P]. rewrite P; [assumption|].
    apply nth_error_Some. congruence.
Qed.

Section GroupLoop.
Variable h0 : store.
Variables parentKey childKey as_ : string.
Variable children : list hvalue.
Variable h1 : store.
Variable m1 : jsmap hvalue nat.
Hypothesis indexed : index_inv h0 childKey children (h1, m1).

(** The Map holds a group for a key exactly when some child carries it. *)
Lemma group_present pkv :
  map_get same_value m1 pkv = None
  <-> filter (fun child => same_value (hget h0 child childKey) pkv) children = [].
Proof.
  destruct indexed as (_ & _ & _ & Hgroups). cbn [fst snd] in Hgroups.
  pose proof (groups_of_get h1 m1 pkv) as Hget.
  rewrite Hgroups in Hget.
  rewrite (index_many_get _ _ _ same_value_sym same_value_trans) in Hget.
  destruct (map_get same_value m1 pkv); simpl in Hget;
    destruct (filter _ children); try discriminate; split; auto; discriminate.
Qed.

Lemma group_in_index pkv a :
  map_get same_value m1 pkv = Some a -> a < List.length h1.
Proof.
  intro G. destruct indexed as (_ & Hrange & _ & _). cbn [fst snd] in Hrange.
  rewrite Forall_forall in Hrange. apply (Hrange a). eapply map_get_In; eauto.
Qed.

Let groups_inv (processed : list hvalue) (st : store * list hvalue) : Prop :=
  preserves (List.length h1) h1 (fst st)
  /\ Forall2 (attached_group h0 (fst st) m1 (List.length h1) parentKey as_)
       processed (snd st)
  /\ NoDup (snd st).

Lemma group_step_inv processed st parent :
  allocated h0 parent ->
  groups_inv processed st ->
  groups_inv (processed ++ [parent]) (attach_step m1 parentKey as_ st parent).
Proof.
  destruct st as [h outs]. unfold groups_inv. cbn [fst snd].
  intros Halloc (Hpres & Houts & Hnd).
  assert (H01 : preserves (List.length h0) h0 h1) by apply indexed.
  assert (Hn1 : List.length h0 <= List.length h1) by (destruct H01; assumption).
  assert (Hn : List.length h1 <= List.length h) by (destruct Hpres; assumption).
  assert (H0h : preserves (List.length h0) h0 h).
  { eapply preserves_trans; [exact H01|]. eapply preserves_weaken; eauto. }
  assert (Hkey : hget h parent parentKey = hget h0 parent parentKey)
    by (eapply preserves_hget; eauto; destruct parent; auto).
  pose proof (attach_step_frame m1 parentKey as_ (h, outs) parent) as Hstep.
  cbn [fst] in Hstep.
  assert (Hold : Forall (fun out => exists o, out = HRef o /\ o < List.length h) outs).
  { clear - Houts. induction Houts as [|p o ps os (a & arr & -> & Ha & _) _ IH];
      constructor; eauto. }
  split; [|split].
  - eapply preserves_trans; [exact Hpres|]. eapply preserves_weaken; eauto.
  - apply Forall2_app.
    { eapply Forall2_impl; [|exact Houts]. intros p o Hpo.
      eapply attached_group_mono; eauto. }
    constructor; [|constructor].
    unfold attach_step, lookup_or_empty. cbn [fst snd]. rewrite Hkey.
    destruct (map_get same_value m1 (hget h0 parent parentKey)) as [a|] eqn:G;
      cbn [fst snd].
    + exists (List.length h), a. rewrite G.
      split; [reflexivity|]. split; [cbn [alloc fst]; rewrite length_app; simpl; lia|].
      split; [apply hget_alloc_record|]. split; [|reflexivity].
      pose proof (lookup_group h0 childKey children h1 m1 indexed
                    (hget h0 parent parentKey)) as Hgroup.
      rewrite G in Hgroup. destruct Hgroup as [Ha Helems].
      assert (Hne : elems_at h1 a <> []).
      { rewrite Helems. intro E. apply group_present in E. congruence. }
      unfold elems_at in Hne.
      destruct (nth_error h1 a) as [[fields|elems]|] eqn:C; try contradiction.
      exists elems. cbn [alloc fst]. rewrite nth_error_app1 by lia.
      destruct Hpres as [_ P]. rewrite P by lia. exact C.
    + exists (S (List.length h)), (List.length h). rewrite G.
      assert (Hlen1 : List.length (h ++ [CArray []]) = S (List.length h))
        by (rewrite length_app; simpl; lia).
      pose proof (hget_alloc_record (h ++ [CArray []])
                    (fields_of (h ++ [CArray []]) parent) as_
                    (HRef (List.length h))) as Hrec.
      rewrite Hlen1 in Hrec.
      cbn [alloc fst snd] in *. rewrite Hlen1.
      split; [reflexivity|].
      split; [rewrite !length_app; simpl; lia|].
      split; [exact Hrec|]. split; [|split; [reflexivity|lia]].
      exists []. rewrite nth_error_app1 by lia.
      rewrite nth_error_app2 by lia. rewrite Nat.sub_diag. reflexivity.
  - unfold attach_step. cbn [fst snd]. apply NoDup_app; auto.
    + constructor; [intros []|constructor].
    + intros out Hin [<-|[]].
      rewrite Forall_forall in Hold. destruct (Hold _ Hin) as (o & E & Ho).
      inversion E; subst o.
      unfold lookup_or_empty in Ho.
      destruct (map_get same_value m1 (hget h parent parentKey));
        cbn [fst snd alloc] in Ho; rewrite ?length_app in Ho; simpl in Ho; lia.
Qed.

Lemma group_loop_inv parents : forall processed st,
  Forall (allocated h0) parents ->
  groups_inv processed st ->
  groups_inv (processed ++ parents) (fold_left (attach_step m1 parentKey as_) parents st).
Proof.
  induction parents as [|p parents IH]; intros processed st Halloc Hinv; simpl.
  - rewrite app_nil_r. assumption.
  - inversion Halloc; subst.
    replace (processed ++ p :: parents) with ((processed ++ [p]) ++ parents)
      by (rewrite <- app_assoc; reflexivity).
    apply IH; auto. apply group_step_inv; auto.
Qed.

End GroupLoop.

Lemma Forall2_nth_error_both (A B : Type) (R : A -> B -> Prop) l1 l2 :
  Forall2 R l1 l2 ->
  forall i a b, nth_error l1 i = Some a -> nth_error l2 i = Some b -> R a b.
Proof.
  induction 1 as [|x y l1 l2 Hxy _ IH]; intros [|i] a b Ha Hb; simpl in *;
    try discriminate.
  - inversion Ha; inversion Hb; subst. assumption.
  - eapply IH; eauto.
Qed.

Lemma NoDup_nth_error_neq (A : Type) (l : list A) i j a b :
  NoDup l -> i <> j ->
  nth_error l i = Some a -> nth_error l j = Some b -> a <> b.
Proof.
  intros Hnd Hij Ha Hb E. subst b. apply Hij.
  apply (proj1 (NoDup_nth_error l) Hnd).
  - apply nth_error_Some. congruence.
  - congruence.
Qed.

(** What attachChildren returns, seen through the addresses of the attached
    arrays. *)
Lemma attachChildren_groups h parents children parentKey childKey as_ :
  parents < List.length h ->
  Forall (allocated h) (elems_at h parents) ->
  Forall (allocated h) (elems_at h children) ->
  let run := attachChildren h parents children parentKey childKey as_ in
  exists h1 m1,
    index_inv h childKey (elems_at h children) (h1, m1)
    /\ Forall2 (attached_group h (fst run) m1 (List.length h1) parentKey as_)
         (elems_at h parents) (elems_at (fst run) (snd run))
    /\ NoDup (elems_at (fst run) (snd run)).
Proof.
  intros Hparents Hps Hcs run. subst run. unfold attachChildren.
  match goal with
  | |- context [fold_left (index_step childKey) ?l ?i] =>
      set (indexed := fold_left (index_step childKey) l i) in *
  end.
  assert (Hinv : index_inv h childKey (elems_at h children) indexed).
  { apply (index_loop_inv h childKey (elems_at h children) [] (h, [])); auto.
    repeat split; simpl; auto; constructor. }
  clearbody indexed. destruct indexed as [h1 m1]. cbn [fst snd].
  exists h1, m1. split; [exact Hinv|].
  assert (H01 : preserves (List.length h) h h1) by apply Hinv.
  assert (Hsame : elems_at h1 parents = elems_at h parents).
  { unfold elems_at. destruct H01 as [_ P]. rewrite P by assumption. reflexivity. }
  rewrite Hsame.
  destruct (group_loop_inv h parentKey childKey as_ (elems_at h children) h1 m1 Hinv
              (elems_at h parents) [] (h1, []) Hps) as (P2 & O2 & N2).
  { split; [apply preserves_refl|]. split; constructor. }
  simpl app in O2.
  match goal with
  | |- context [fold_left (attach_step m1 parentKey as_) ?l ?i] =>
      set (mapped := fold_left (attach_step m1 parentKey as_) l i) in *
  end.
  clearbody mapped. destruct mapped as [h2 outs].
  cbn [fst snd alloc] in *.
  replace (elems_at (h2 ++ [CArray outs]) (List.length h2)) with outs
    by (symmetry; apply (elems_at_alloc_new h2 outs)).
  split; [|exact N2].
  eapply Forall2_impl; [|exact O2]. intros p o Hpo.
  eapply attached_group_mono; [|exact Hpo].
  apply (alloc_preserves (List.length h2) h2 (CArray outs)). lia.
Qed.

End StoreSharing.

(** X26: attachChildren attaches the group arrays of its index themselves:
    two parents whose keys are the same value and match some child are given
    one and the same array, so what is later pushed to the children of one
    shows in the other; a parent that matches no child is given an empty
    array of its own, shared with no other parent. *)
Theorem attachChildren_shares_group_arrays h parents children
    parentKey childKey as_ i j p q out_p out_q :
  parents < List.length h ->
  Forall (Store.record_ref h) (Store.elems_at h parents) ->
  Forall (Store.record_ref h) (Store.elems_at h children) ->
  let run := Store.attachChildren h parents children parentKey childKey as_ in
  let outs := Store.elems_at (fst run) (snd run) in
  i <> j ->
  nth_error (Store.elems_at h parents) i = Some p ->
  nth_error (Store.elems_at h parents) j = Some q ->
  nth_error outs i = Some out_p ->
  nth_error outs j = Some out_q ->
  (exists arr, Store.hget (fst run) out_p as_ = Store.HRef arr)
  /\ (Store.same_value (Store.hget h p parentKey) (Store.hget h q parentKey) = true ->
      Store.matching h (Store.elems_at h children) parentKey childKey p <> [] ->
      Store.hget (fst run) out_p as_ = Store.hget (fst run) out_q as_)
  /\ (Store.matching h (Store.elems_at h children) parentKey childKey p = [] ->
      Store.hget (fst run) out_p as_ <> Store.hget (fst run) out_q as_).
Proof.
  intros Hparents Hpr Hcr run outs Hij Hp Hq Hop Hoq.
  assert (Hps : Forall (Store.allocated h) (Store.elems_at h parents)).
  { eapply Forall_impl; [|exact Hpr]. apply StoreSharing.record_ref_allocated. }
  assert (Hcs : Forall (Store.allocated h) (Store.elems_at h children)).
  { eapply Forall_impl; [|exact Hcr]. apply StoreSharing.record_ref_allocated. }
  destruct (StoreSharing.attachChildren_groups h parents children parentKey childKey
              as_ Hparents Hps Hcs) as (h1 & m1 & Hinv & Hall & Hnd).
  fold run in Hall, Hnd. fold outs in Hall, Hnd.
  pose proof (StoreSharing.Forall2_nth_error_both _ _ _ _ _ Hall i p out_p Hp Hop)
    as (o1 & a1 & E1 & L1 & G1 & _ & M1).
  pose proof (StoreSharing.Forall2_nth_error_both _ _ _ _ _ Hall j q out_q Hq Hoq)
    as (o2 & a2 & E2 & L2 & G2 & _ & M2).
  pose proof (StoreSharing.NoDup_nth_error_neq _ outs i j out_p out_q Hnd Hij Hop Hoq)
    as Hne.
  pose proof (StoreSharing.group_present h childKey (Store.elems_at h children) h1 m1
                Hinv) as Hpresent.
  split; [eauto|]. split.
  - intros Hsame Hmatch. apply StoreFacts.same_value_eq in Hsame.
    rewrite <- Hsame in M2.
    destruct (map_get Store.same_value m1 (Store.hget h p parentKey)) eqn:G.
    + congruence.
    + exfalso. apply Hmatch. apply Hpresent. exact G.
  - intro Hnone. apply Hpresent in Hnone. rewrite Hnone in M1.
    destruct M1 as [Eo1 Hb1]. rewrite G1, G2. intro E. inversion E; subst a2.
    destruct (map_get Store.same_value m1 (Store.hget h q parentKey)) eqn:G.
    + subst a1.
      pose proof (StoreSharing.group_in_index h childKey (Store.elems_at h children)
                    h1 m1 Hinv _ _ G). lia.
    + destruct M2 as [Eo2 _]. apply Hne. congruence.
Qed.

Lemma attachChildren_shares_group_arrays_witness :
  Store.hget
    (fst (Store.attachChildren twins 4 5 "id" "userId" "orders"))
    (Store.HRef 7) "orders"
  = Store.hget
      (fst (Store.attachChildren twins 4 5 "id" "userId" "orders"))
      (Store.HRef 8) "orders"
  /\ Store.hget
       (fst (Store.attachChildren twins 4 5 "id" "userId" "orders"))
       (Store.HRef 10) "orders"
     <> Store.hget
          (fst (Store.attachChildren twins 4 5 "id" "userId" "orders"))
          (Store.HRef 7) "orders".
Proof.
  assert (Hp : 4 < List.length twins) by (simpl; lia).
  assert (Hps : Forall (Store.record_ref twins)
                  (Store.elems_at twins 4))
    by (repeat constructor; eexists; eexists; split; reflexivity).
  assert (Hcs : Forall (Store.record_ref twins)
                  (Store.elems_at twins 5))
    by (repeat constructor; eexists; eexists; split; reflexivity).
  split.
  - apply (attachChildren_shares_group_arrays twins 4 5 "id" "userId"
             "orders" 0 1 (Store.HRef 0) (Store.HRef 1) (Store.HRef 7) (Store.HRef 8)
             Hp Hps Hcs); try reflexivity; discriminate.
  - apply (attachChildren_shares_group_arrays twins 4 5 "id" "userId"
             "orders" 2 0 (Store.HRef 2) (Store.HRef 0) (Store.HRef 10) (Store.HRef 7)
             Hp Hps Hcs); try reflexivity; discriminate.
Defined.

Module StoreChild.
Import Store StoreFacts.

Lemma attached_child_mono h0 h h' children parentKey childKey as_ parent out :
  extends h h' ->
  attached_child h0 h children parentKey childKey as_ parent out ->
  attached_child h0 h' children parentKey childKey as_ parent out.
Proof.
  intros [Hlen Hpres] (o & -> & Ho & Hrec).
  exists o. split; [reflexivity|]. split; [assumption|].
  rewrite Hpres; [assumption|]. apply nth_error_Some. congruence.
Qed.

Lemma first_loop_find h childKey children k :
  map_get same_value (fold_left (first_step h childKey) children []) k
  = find (fun child => same_value (hget h child childKey) k) children.
Proof.
  exact (index_one_get _ _ same_value same_value_sym same_value_trans
           (fun child => hget h child childKey) children k).
Qed.

Section ChildLoop.
Variable h0 : store.
Variables parentKey childKey as_ : string.
Variable children : list hvalue.

Let childByKey := fold_left (first_step h0 childKey) children [].

Let child_inv (processed : list hvalue) (st : store * list hvalue) : Prop :=
  extends h0 (fst st)
  /\ Forall2 (attached_child h0 (fst st) children parentKey childKey as_)
       processed (snd st).

Lemma child_step_inv processed st parent :
  allocated h0 parent ->
  child_inv processed st ->
  child_inv (processed ++ [parent]) (attach_one_step childByKey parentKey as_ st parent).
Proof.
  destruct st as [h outs]. unfold child_inv. cbn [fst snd].
  intros Halloc (Hext & Houts).
  assert (Hn : List.length h0 <= List.length h) by (destruct Hext; assumption).
  assert (Hitem : match parent with HRef a => a < List.length h0 | _ => True end)
    by (destruct parent; auto).
  assert (Hkey : hget h parent parentKey = hget h0 parent parentKey)
    by (eapply preserves_hget; eauto).
  assert (Hf : fields_of h parent = fields_of h0 parent)
    by (eapply preserves_fields_of; eauto).
  assert (Hstep : extends h (fst (alloc h
            (CRecord (obj_set (fields_of h parent) as_
               match map_get same_value childByKey (hget h parent parentKey) with
               | Some child => hcoalesce child HNull
               | None => HNull
               end))))) by apply alloc_extends.
  split.
  - eapply extends_trans; [exact Hext|]. exact Hstep.
  - apply Forall2_app.
    { eapply Forall2_impl; [|exact Houts]. intros p o Hpo.
      eapply attached_child_mono; eauto. }
    constructor; [|constructor].
    unfold attach_one_step. cbn [fst snd alloc].
    exists (List.length h). split; [reflexivity|]. split; [assumption|].
    rewrite nth_error_app2 by lia. rewrite Nat.sub_diag. simpl.
    rewrite Hkey, Hf. unfold childByKey. rewrite first_loop_find. reflexivity.
Qed.

Lemma child_loop_inv parents : forall processed st,
  Forall (allocated h0) parents ->
  child_inv processed st ->
  child_inv (processed ++ parents)
    (fold_left (attach_one_step childByKey parentKey as_) parents st).
Proof.
  induction parents as [|p parents IH]; intros processed st Halloc Hinv; simpl.
  - rewrite app_nil_r. assumption.
  - inversion Halloc; subst.
    replace (processed ++ p :: parents) with ((processed ++ [p]) ++ parents)
      by (rewrite <- app_assoc; reflexivity).
    apply IH; auto. apply child_step_inv; auto.
Qed.

End ChildLoop.

(** What attachChild returns: for every parent, in order, a reference to a
    record it has allocated. *)
Lemma attachChild_result h parents children parentKey childKey as_ :
  Forall (allocated h) (elems_at h parents) ->
  let run := attachChild h parents children parentKey childKey as_ in
  Forall2
    (attached_child h (fst run) (elems_at h children) parentKey childKey as_)
    (elems_at h parents) (elems_at (fst run) (snd run)).
Proof.
  intros Hps run. subst run. unfold attachChild.
  destruct (child_loop_inv h parentKey childKey as_
              (elems_at h children) (elems_at h parents) [] (h, []) Hps)
    as (E & O).
  { split; [apply extends_refl|constructor]. }
  simpl app in O.
  match goal with
  | |- context [fold_left (attach_one_step ?m parentKey as_) ?l ?i] =>
      set (mapped := fold_left (attach_one_step m parentKey as_) l i) in *
  end.
  clearbody mapped. destruct mapped as [h2 outs].
  cbn [fst snd alloc] in *.
  replace (elems_at (h2 ++ [CArray outs]) (List.length h2)) with outs
    by (symmetry; apply (elems_at_alloc_new h2 outs)).
  eapply Forall2_impl; [|exact O]. intros p o Hpo.
  eapply attached_child_mono; [|exact Hpo].
  apply (alloc_extends h2 (CArray outs)).
Qed.

End StoreChild.

(** X27: attachChild attaches the child object itself, not a copy: for every
    parent, in order, the result holds a record allocated by the call whose
    output field is the very reference found in the child array for the
    first child whose key is the same value as the parent's, or null when
    there is none. *)
Theorem attachChild_attaches_the_child_itself h parents children
    parentKey childKey as_ :
  Forall (Store.record_ref h) (Store.elems_at h parents) ->
  Forall (Store.record_ref h) (Store.elems_at h children) ->
  let run := Store.attachChild h parents children parentKey childKey as_ in
  Forall2
    (fun parent out =>
       (exists o, out = Store.HRef o /\ List.length h <= o)
       /\ Store.hget (fst run) out as_
          = match find (fun child =>
                          Store.same_value (Store.hget h child childKey)
                                           (Store.hget h parent parentKey))
                       (Store.elems_at h children) with
            | Some child => child
            | None => Store.HNull
            end)
    (Store.elems_at h parents) (Store.elems_at (fst run) (snd run)).
Proof.
  intros Hpr Hcr run.
  assert (Hps : Forall (Store.allocated h) (Store.elems_at h parents)).
  { eapply Forall_impl; [|exact Hpr]. apply StoreSharing.record_ref_allocated. }
  pose proof (StoreChild.attachChild_result h parents children parentKey childKey
                as_ Hps) as Hres.
  fold run in Hres. cbv zeta in Hres.
  eapply Forall2_impl; [|exact Hres].
  intros parent out (o & -> & Ho & Hrec). split; [eauto|].
  unfold Store.hget, Store.fields_of. rewrite Hrec.
  rewrite own_obj_set, String.eqb_refl.
  destruct (find _ (Store.elems_at h children)) as [child|] eqn:F; [|reflexivity].
  apply find_some in F. destruct F as [Hin _].
  rewrite Forall_forall in Hcr. destruct (Hcr child Hin) as (a & fields & -> & _).
  reflexivity.
Qed.

Lemma attachChild_attaches_the_child_itself_witness :
  Forall2
    (fun parent out =>
       (exists o, out = Store.HRef o /\ List.length shop <= o)
       /\ Store.hget (fst (Store.attachChild shop 5 6 "id" "userId" "order"))
            out "order"
          = match find (fun child =>
                          Store.same_value (Store.hget shop child "userId")
                                           (Store.hget shop parent "id"))
                       (Store.elems_at shop 6) with
            | Some child => child
            | None => Store.HNull
            end)
    (Store.elems_at shop 5)
    (Store.elems_at (fst (Store.attachChild shop 5 6 "id" "userId" "order"))
       (snd (Store.attachChild shop 5 6 "id" "userId" "order"))).
Proof.
  apply (attachChild_attaches_the_child_itself shop 5 6 "id" "userId" "order");
    repeat constructor; eexists; eexists; split; reflexivity.
Defined.

Module StoreRead.
Import Store StoreFacts.

Section MapObj.
Variables A B : Type.
Variable g : A -> B.

Let lift (o : obj A) : obj B := map (fun e => (fst e, g (snd e))) o.

Lemma own_lift o k : own (lift o) k = option_map g (own o k).
Proof.
  induction o as [|[k' v] o IH]; simpl; [reflexivity|].
  destruct (k' =? k); [reflexivity|assumption].
Qed.

Lemma replace_own_lift o k v :
  lift (replace_own k v o) = replace_own k (g v) (lift o).
Proof.
  induction o as [|[k' v'] o IH]; simpl; [reflexivity|].
  destruct (k' =? k); simpl; [reflexivity|]. f_equal. exact IH.
Qed.

Lemma insert_index_lift o n k v :
  lift (insert_index n k v o) = insert_index n k (g v) (lift o).
Proof.
  induction o as [|[k' v'] o IH]; simpl; [reflexivity|].
  destruct (array_index k') as [n'|]; [destruct (n' <? n)%N|]; simpl;
    try reflexivity.
  f_equal. exact IH.
Qed.

Lemma obj_set_lift o k v :
  lift (obj_set o k v) = obj_set (lift o) k (g v).
Proof.
  unfold obj_set, has_own. rewrite own_lift.
  destruct (own o k); simpl.
  - apply replace_own_lift.
  - unfold add_own. destruct (array_index k).
    + apply insert_index_lift.
    + unfold lift. rewrite map_app. reflexivity.
Qed.

End MapObj.

Lemma read_primitive fuel h h' v :
  primitive v = true -> read fuel h' v = read 0 h v.
Proof. destruct v, fuel; simpl; auto; discriminate. Qed.

Lemma flat_record_allocated h v : flat_record h v -> allocated h v.
Proof.
  intros (a & fields & -> & Hcell & _). simpl. apply nth_error_Some. congruence.
Qed.

Lemma flat_record_extends h h' v :
  extends h h' -> flat_record h v -> fields_of h' v = fields_of h v.
Proof.
  intros Hext Hflat. eapply preserves_fields_of; eauto.
  pose proof (flat_record_allocated _ _ Hflat) as Ha. destruct v; auto.
Qed.

Lemma read_ref fuel h a :
  read (S fuel) h (HRef a)
  = match nth_error h a with
    | Some (CRecord fields) => VObj (map (fun e => (fst e, read fuel h (snd e))) fields)
    | Some (CArray elems) => VArr (map (read fuel h) elems)
    | None => VUndefined
    end.
Proof. reflexivity. Qed.

Lemma read_flat_record fuel h h' v :
  extends h h' -> flat_record h v ->
  read (S fuel) h' v = VObj (record_of h v).
Proof.
  intros [_ P] (a & fields & -> & Hcell & Hprim).
  unfold record_of, fields_of. rewrite read_ref.
  rewrite P by (apply nth_error_Some; congruence).
  rewrite Hcell. f_equal. apply map_ext_in. intros [k v] Hin. cbn [fst snd].
  f_equal. apply read_primitive. rewrite forallb_forall in Hprim.
  apply (Hprim (k, v) Hin).
Qed.

Lemma get_record_of h v key :
  get (record_of h v) key = read 0 h (hget h v key).
Proof.
  unfold get, record_of, hget.
  rewrite (own_lift _ _ (read 0 h)).
  destruct (own (fields_of h v) key); reflexivity.
Qed.

Lemma flat_record_key h v key :
  flat_record h v -> primitive (hget h v key) = true.
Proof.
  intros (a & fields & -> & Hcell & Hprim). unfold hget. simpl. rewrite Hcell.
  destruct (own fields key) as [x|] eqn:O; [|reflexivity].
  apply own_In in O. rewrite forallb_forall in Hprim. apply (Hprim (key, x) O).
Qed.

Lemma same_value_read h a b :
  primitive a = true -> primitive b = true ->
  SameValueZero (read 0 h a) (read 0 h b) = same_value a b.
Proof. destruct a, b; simpl; auto; discriminate. Qed.

Lemma filter_map_commute (A B : Type) (f : B -> bool) (g : A -> B) l :
  filter f (map g l) = map g (filter (fun x => f (g x)) l).
Proof.
  induction l as [|x l IH]; simpl; [reflexivity|].
  destruct (f (g x)); simpl; rewrite IH; reflexivity.
Qed.

Lemma Forall2_and (A B : Type) (R S : A -> B -> Prop) l1 l2 :
  Forall2 R l1 l2 -> Forall2 S l1 l2 -> Forall2 (fun a b => R a b /\ S a b) l1 l2.
Proof.
  induction 1; intro H'; inversion H'; subst; constructor; auto.
Qed.

Lemma Forall2_map_eq (A B C : Type) (R : A -> B -> Prop) (f : B -> C) (g : A -> C)
    l1 l2 :
  Forall2 R l1 l2 ->
  (forall a b, In a l1 -> R a b -> f b = g a) ->
  map f l2 = map g l1.
Proof.
  induction 1 as [|a b l1 l2 Hab _ IH]; intro H; simpl; [reflexivity|].
  f_equal; [apply H; simpl; auto|]. apply IH. intros; apply H; simpl; auto.
Qed.

(** The enriched parent read back from the store. *)
Lemma read_enriched h h' m bound children parentKey childKey as_ parent out :
  extends h h' ->
  flat_record h parent ->
  Forall (flat_record h) children ->
  enriched_at h h' children parentKey childKey as_ parent out ->
  Store.attached_group h h' m bound parentKey as_ parent out ->
  read 3 h' out
  = VObj
      (with_property (record_of h parent) as_
         (array_of (filter (flat_match parentKey childKey (record_of h parent))
                      (map (record_of h) children)))).
Proof.
  intros Hext Hp Hcs (o & arr & -> & Ho & Harr & Hrec & Helems)
    (o' & arr' & Eo & _ & Hget & [elems Hcell] & _).
  inversion Eo; subst o'.
  assert (arr' = arr).
  { unfold hget, fields_of in Hget. rewrite Hrec in Hget.
    rewrite own_obj_set, String.eqb_refl in Hget. congruence. }
  subst arr'.
  rewrite read_ref, Hrec.
  rewrite (obj_set_lift _ _ (read 2 h')).
  unfold with_property. f_equal. f_equal.
  - unfold record_of. apply map_ext_in. intros [k v] Hin. cbn [fst snd]. f_equal.
    apply read_primitive.
    destruct Hp as (a & fields & -> & Hc & Hprim). simpl in Hin.
    rewrite Hc in Hin. rewrite forallb_forall in Hprim. apply (Hprim (k, v) Hin).
  - rewrite read_ref, Hcell.
    unfold elems_at in Helems. rewrite Hcell in Helems.
    unfold array_of. f_equal. rewrite Helems.
    rewrite filter_map_commute, map_map.
    assert (Hsame : forall c, In c children ->
              same_value (hget h c childKey) (hget h parent parentKey)
              = flat_match parentKey childKey (record_of h parent) (record_of h c)).
    { intros c Hc. unfold flat_match. rewrite !get_record_of.
      symmetry. apply same_value_read; apply flat_record_key; auto.
      rewrite Forall_forall in Hcs. auto. }
    rewrite (filter_ext_in _ _ _ Hsame).
    apply map_ext_in. intros c Hc. apply filter_In in Hc.
    apply (read_flat_record 0 h); auto.
    rewrite Forall_forall in Hcs. apply Hcs. apply Hc.
Qed.

End StoreRead.

(** X28: what attachChildren builds in the store is what it computes on the
    records themselves: for parents and children that are records of
    primitive fields, the returned array, read back from the final store,
    is the result of attachChildren on the parents and children read from
    the initial store. *)
Theorem attachChildren_on_store_agrees h parents children parentKey childKey as_ :
  parents < List.length h ->
  Forall (Store.flat_record h) (Store.elems_at h parents) ->
  Forall (Store.flat_record h) (Store.elems_at h children) ->
  let run := Store.attachChildren h parents children parentKey childKey as_ in
  Store.read 4 (fst run) (Store.HRef (snd run))
  = array_of
      (attachChildren
         (map (Store.record_of h) (Store.elems_at h parents))
         (map (Store.record_of h) (Store.elems_at h children))
         parentKey childKey as_).
Proof.
  intros Hparents Hps Hcs run.
  assert (Hpa : Forall (Store.allocated h) (Store.elems_at h parents)).
  { eapply Forall_impl; [|exact Hps]. apply StoreRead.flat_record_allocated. }
  assert (Hca : Forall (Store.allocated h) (Store.elems_at h children)).
  { eapply Forall_impl; [|exact Hcs]. apply StoreRead.flat_record_allocated. }
  pose proof (StoreFacts.attachChildren_result h parents children parentKey
                childKey as_ Hparents Hpa Hca) as Hres.
  destruct (StoreSharing.attachChildren_groups h parents children parentKey childKey
              as_ Hparents Hpa Hca) as (h1 & m1 & _ & Hgroups & _).
  pose proof (StoreFacts.attachChildren_frame h parents children parentKey
                childKey as_) as [Hframe _].
  fold run in Hres, Hgroups, Hframe. cbv zeta in Hres.
  assert (Hcell : nth_error (fst run) (snd run)
                  = Some (Store.CArray (Store.elems_at (fst run) (snd run)))).
  { subst run. unfold Store.attachChildren. cbn [fst snd Store.alloc].
    unfold Store.elems_at.
    rewrite !nth_error_app2 by lia. rewrite !Nat.sub_diag. reflexivity. }
  rewrite StoreRead.read_ref, Hcell, attachChildren_filter.
  unfold array_of at 1. f_equal. rewrite !map_map.
  apply (StoreRead.Forall2_map_eq _ _ _ _ _ _ _ _
           (StoreRead.Forall2_and _ _ _ _ _ _ Hres Hgroups)).
  intros p out Hin [He Hg].
  rewrite (StoreRead.read_enriched h (fst run) m1 (List.length h1)
             (Store.elems_at h children) parentKey childKey as_ p out); auto.
  rewrite Forall_forall in Hps. auto.
Qed.

Lemma attachChildren_on_store_agrees_witness :
  Store.read 4 (fst (Store.attachChildren shop 5 6 "id" "userId" "orders"))
    (Store.HRef (snd (Store.attachChildren shop 5 6 "id" "userId" "orders")))
  = array_of (attachChildren users orders "id" "userId" "orders").
Proof.
  apply (attachChildren_on_store_agrees shop 5 6 "id" "userId" "orders").
  - simpl. lia.
  - repeat constructor;
      (eexists; eexists; split; [reflexivity|split; reflexivity]).
  - repeat constructor;
      (eexists; eexists; split; [reflexivity|split; reflexivity]).
Defined.

Module StoreReadChild.
Import Store StoreFacts StoreRead.

Lemma find_map_commute (A B : Type) (f : B -> bool) (g : A -> B) l :
  find f (map g l) = option_map g (find (fun x => f (g x)) l).
Proof.
  induction l as [|x l IH]; simpl; [reflexivity|].
  destruct (f (g x)); [reflexivity|assumption].
Qed.

(** The parent enriched by attachChild, read back from the store. *)
Lemma read_attached_child h h' children parentKey childKey as_ parent out :
  extends h h' ->
  flat_record h parent ->
  Forall (flat_record h) children ->
  Store.attached_child h h' children parentKey childKey as_ parent out ->
  read 2 h' out
  = VObj
      (with_property (record_of h parent) as_
         (or_null (find (flat_match parentKey childKey (record_of h parent))
                     (map (record_of h) children)))).
Proof.
  intros Hext Hp Hcs (o & -> & Ho & Hrec).
  rewrite read_ref, Hrec.
  rewrite (obj_set_lift _ _ (read 1 h')).
  unfold with_property. f_equal. f_equal.
  - unfold record_of. apply map_ext_in. intros [k v] Hin. cbn [fst snd]. f_equal.
    apply read_primitive.
    destruct Hp as (a & fields & -> & Hc & Hprim). simpl in Hin.
    rewrite Hc in Hin. rewrite forallb_forall in Hprim. apply (Hprim (k, v) Hin).
  - rewrite find_map_commute.
    assert (Hsame : forall c, In c children ->
              same_value (hget h c childKey) (hget h parent parentKey)
              = flat_match parentKey childKey (record_of h parent) (record_of h c)).
    { intros c Hc. unfold flat_match. rewrite !get_record_of.
      symmetry. apply same_value_read; apply flat_record_key; auto.
      rewrite Forall_forall in Hcs. auto. }
    rewrite <- (find_ext_in _ _ _ _ Hsame).
    destruct (find _ children) as [c|] eqn:F; [|reflexivity].
    apply find_some in F. destruct F as [Hc _].
    rewrite Forall_forall in Hcs. specialize (Hcs c Hc).
    assert (Href : hcoalesce c HNull = c).
    { destruct Hcs as (a & fields & -> & _). reflexivity. }
    rewrite Href. simpl or_null.
    apply (read_flat_record 0 h); auto.
Qed.

End StoreReadChild.

(** X29: what attachChild builds in the store is what it computes on the
    records themselves: for parents and children that are records of
    primitive fields, the returned array, read back from the final store, is
    the result of attachChild on the parents and children read from the
    initial store. *)
Theorem attachChild_on_store_agrees h parents children parentKey childKey as_ :
  Forall (Store.flat_record h) (Store.elems_at h parents) ->
  Forall (Store.flat_record h) (Store.elems_at h children) ->
  let run := Store.attachChild h parents children parentKey childKey as_ in
  Store.read 3 (fst run) (Store.HRef (snd run))
  = array_of
      (attachChild
         (map (Store.record_of h) (Store.elems_at h parents))
         (map (Store.record_of h) (Store.elems_at h children))
         parentKey childKey as_).
Proof.
  intros Hps Hcs run.
  assert (Hpa : Forall (Store.allocated h) (Store.elems_at h parents)).
  { eapply Forall_impl; [|exact Hps]. apply StoreRead.flat_record_allocated. }
  pose proof (StoreChild.attachChild_result h parents children parentKey
                childKey as_ Hpa) as Hres.
  pose proof (StoreFacts.attachChild_frame h parents children parentKey
                childKey as_) as [Hframe _].
  fold run in Hres, Hframe. cbv zeta in Hres.
  assert (Hcell : nth_error (fst run) (snd run)
                  = Some (Store.CArray (Store.elems_at (fst run) (snd run)))).
  { subst run. unfold Store.attachChild. cbn [fst snd Store.alloc].
    unfold Store.elems_at.
    rewrite !nth_error_app2 by lia. rewrite !Nat.sub_diag. reflexivity. }
  rewrite StoreRead.read_ref, Hcell, attachChild_find.
  unfold array_of at 1. f_equal. rewrite !map_map.
  apply (StoreRead.Forall2_map_eq _ _ _ _ _ _ _ _ Hres).
  intros p out Hin Hc.
  rewrite (StoreReadChild.read_attached_child h (fst run)
             (Store.elems_at h children) parentKey childKey as_ p out); auto.
  rewrite Forall_forall in Hps. auto.
Qed.

Lemma attachChild_on_store_agrees_witness :
  Store.read 3 (fst (Store.attachChild shop 5 6 "id" "userId" "order"))
    (Store.HRef (snd (Store.attachChild shop 5 6 "id" "userId" "order")))
  = array_of (attachChild users orders "id" "userId" "order").
Proof.
  apply (attachChild_on_store_agrees shop 5 6 "id" "userId" "order").
  - repeat constructor;
      (eexists; eexists; split; [reflexivity|split; reflexivity]).
  - repeat constructor;
      (eexists; eexists; split; [reflexivity|split; reflexivity]).
Defined.
